(** * Trace visualizer (tools/debug-ui): span forest, layout engine, timeline

    A shallow embedding of [TraceVisualizer.tsx] and of the [otel] types it
    reads, with the properties of the layout engine, of the span forest
    builder and of the timeline maps stated and proved over it.

    Numbers.  Timestamps are integer nanoseconds ([Z]); the layout only
    compares them and takes minima and maxima.  A [height_level] and a box
    [height] are only ever written by the literals 0 and 1, by [+= 1], by a
    sum and by [Math.max], hence naturals ([N]).  The timeline arithmetic
    divides, so it is modelled over the rationals ([Q]), with a division by
    zero made explicit (JavaScript yields NaN or an infinity there). *)

From Stdlib Require Import ZArith NArith QArith Qminmax Qround List Ascii String Lia Lqa Permutation Sorted.
From stdpp Require Import gmap strings list.
From Equations Require Import Equations.
Import ListNotations.

Set Warnings "-register-all".
Close Scope Q_scope.
Local Open Scope Z_scope.

(** ** The otel types (otel.ts)

    The visualizer reads [resource.attributes], [span.attributes] and
    [event.attributes] as arrays of [KeyValue] ([attrs.find(kv => ..)],
    [span.attributes.map(kv => ..)]); they are modelled as it reads them. *)

Record AttributeValue : Type := mkAttributeValue {
  stringValue : string;
  intValue : Z;
  boolValue : bool;
  doubleValue : Q }.

(** Modelled from the spec: the type [KeyValue], which the visualizer imports
    from [./otel] and the [otel.ts] at hand does not declare; a key/value
    attribute, with the two fields the visualizer reads ([kv.key],
    [kv.value]). *)
Record KeyValue : Type := mkKeyValue {
  key : string;
  value : AttributeValue }.

Record Event : Type := mkEvent {
  timeUnixNano : Z;
  event_name : string;
  event_attributes : list KeyValue }.

Record Resource : Type := mkResource {
  resource_attributes : list KeyValue }.

Record Link : Type := mkLink {
  link_traceId : string;
  link_spanId : string;
  link_attributes : list KeyValue }.

Module Otel.
Record Span : Type := mkSpan {
  traceId : string;
  spanId : string;
  parentSpanId : string;
  name : string;
  startTimeUnixNano : Z;
  endTimeUnixNano : Z;
  attributes : list KeyValue;
  events : list Event;
  links : list Link }.

Record ScopeSpans : Type := mkScopeSpans {
  spans : list Span }.

Record ResourceSpans : Type := mkResourceSpans {
  resource : Resource;
  scopeSpans : list ScopeSpans }.

Record ExportTraceServiceRequest : Type := mkRequest {
  resourceSpans : list ResourceSpans }.
End Otel.

(** ** Spans as the layout sees them

    Once built, the object graph of [VisSpan]s is walked as a forest: every
    span sits in one [children] array.  The layout and the renderer are
    modelled on that forest as an inductive tree; a write to
    [span.height_level] becomes a rebuilt node.  (The object graph itself,
    with its references, is the subject of [Module Heap] below.) *)

Inductive VisSpan : Type := mkVisSpan {
  spanId : string;
  name : string;
  startTime : Z;
  endTime : Z;
  parentSpanId : string;
  children : list VisSpan;
  events : list Event;
  resource : Resource;
  attributes : list KeyValue;
  height_level : N }.

Record VisNode : Type := mkVisNode {
  node_name : string;
  node_attributes : list (string * string) }.

Record SpanBoundingBox : Type := mkBox {
  start_time : Z;
  end_time : Z;
  height : N }.

Record NodeSpans : Type := mkNodeSpans {
  node : VisNode;
  spans : list VisSpan;
  bbox : SpanBoundingBox }.

(** [span.height_level = l] *)
Definition setLevel (span : VisSpan) (l : N) : VisSpan :=
  mkVisSpan (spanId span) (name span) (startTime span) (endTime span)
            (parentSpanId span) (children span) (events span) (resource span)
            (attributes span) l.

(** the node [span] once the layout of its children has written their levels *)
Definition withChildren (span : VisSpan) (cs : list VisSpan) : VisSpan :=
  mkVisSpan (spanId span) (name span) (startTime span) (endTime span)
            (parentSpanId span) cs (events span) (resource span)
            (attributes span) (height_level span).

(** ** Collision tests *)

Definition isBetween (coord start end_ : Z) : bool :=
  (coord >=? start) && (coord <=? end_).

Definition isCollidingInAxis (begin1 end1 begin2 end2 : Z) : bool :=
  isBetween begin2 begin1 end1 || isBetween end2 begin1 end1
  || isBetween begin1 begin2 end2 || isBetween end1 begin2 end2.

Definition isColliding (span1 : VisSpan) (bbox1 : SpanBoundingBox)
                       (span2 : VisSpan) (bbox2 : SpanBoundingBox) : bool :=
  let is_time_colliding :=
    isCollidingInAxis (startTime span1) (endTime span1) (startTime span2) (endTime span2) in
  if negb is_time_colliding then false
  else isCollidingInAxis
         (Z.of_N (height_level span1)) (Z.of_N (height_level span1 + height bbox1))
         (Z.of_N (height_level span2)) (Z.of_N (height_level span2 + height bbox2)).

(** ** arrangeSpans: the insert-and-bump loop *)

(** The inner [for (j = 0; j < i; j++) { if (isColliding(..)) {..; break} }]:
    does the current span, at level [l], collide with an earlier sibling? *)
Definition collidesWithEarlier (earlier : list (VisSpan * SpanBoundingBox))
           (cur_span : VisSpan) (cur_span_bbox : SpanBoundingBox) (l : N) : bool :=
  existsb (fun e => isColliding (setLevel cur_span l) cur_span_bbox (fst e) (snd e)) earlier.

(** the lowest row below every earlier sibling's box *)
Definition maxTop (earlier : list (VisSpan * SpanBoundingBox)) : N :=
  fold_right (fun e acc => N.max (height_level (fst e) + height (snd e)) acc) 0%N earlier.

Definition inspect {A} (a : A) : {b | a = b} := exist _ a eq_refl.

Lemma isBetween_true c a b : isBetween c a b = true <-> a <= c <= b.
Proof. unfold isBetween. rewrite andb_true_iff, Z.geb_le, Z.leb_le. lia. Qed.

Lemma isCollidingInAxis_true b1 e1 b2 e2 :
  isCollidingInAxis b1 e1 b2 e2 = true <->
  (b1 <= b2 <= e1 \/ b1 <= e2 <= e1 \/ b2 <= b1 <= e2 \/ b2 <= e1 <= e2).
Proof.
  unfold isCollidingInAxis. rewrite !orb_true_iff, !isBetween_true. tauto.
Qed.

Lemma collidesWithEarlier_below earlier cur box l :
  collidesWithEarlier earlier cur box l = true -> (l <= maxTop earlier)%N.
Proof.
  unfold collidesWithEarlier. induction earlier as [|[sj bj] rest IH]; simpl.
  - discriminate.
  - rewrite orb_true_iff. intros [H|H].
    + unfold isColliding in H. simpl in H.
      destruct (negb _); [discriminate|].
      apply isCollidingInAxis_true in H. lia.
    + specialize (IH H). lia.
Qed.

(** The [while (true)] loop of [arrangeSpans]: as long as the current span
    collides with an earlier sibling, [cur_span.height_level += 1].  Every
    colliding level is at most [maxTop earlier], which bounds the loop. *)
Equations bump (earlier : list (VisSpan * SpanBoundingBox))
          (cur_span : VisSpan) (cur_span_bbox : SpanBoundingBox) (l : N) : N
  by wf (N.to_nat (maxTop earlier + 1 - l)) lt :=
  bump earlier cur_span cur_span_bbox l
    with inspect (collidesWithEarlier earlier cur_span cur_span_bbox l) := {
    | exist _ true H => bump earlier cur_span cur_span_bbox (l + 1)
    | exist _ false _ => l }.
Next Obligation.
  apply collidesWithEarlier_below in H. lia.
Qed.

(** The outer [for (i = 0; i < spans.length; i++)]: [placed] are the siblings
    before [i] with their final levels. *)
Fixpoint placeSiblings (placed todo : list (VisSpan * SpanBoundingBox))
  : list (VisSpan * SpanBoundingBox) :=
  match todo with
  | [] => placed
  | (cur_span, cur_span_bbox) :: rest =>
      let l := bump placed cur_span cur_span_bbox (height_level cur_span) in
      placeSiblings (placed ++ [(setLevel cur_span l, cur_span_bbox)]) rest
  end.

(** One round of the last loop of [arrangeSpans]. *)
Definition growBox (final_bbox : SpanBoundingBox) (e : VisSpan * SpanBoundingBox)
  : SpanBoundingBox :=
  {| start_time := Z.min (start_time final_bbox) (start_time (snd e));
     end_time := Z.max (end_time final_bbox) (end_time (snd e));
     height := N.max (height final_bbox) (height_level (fst e) + height (snd e)) |}.

(** [arrangeSpans] once every sibling has its box (after the first loop).
    [final_bbox] starts as [span_bounding_boxes[0]] and is that very object:
    in round 0 of the last loop [bbox] is [final_bbox] itself, whose fields
    still hold the first box, and the later rounds read other boxes only. *)
Definition arrangeSiblings (boxed : list (VisSpan * SpanBoundingBox))
  : list VisSpan * SpanBoundingBox :=
  match boxed with
  | [] => ([], {| start_time := 0; end_time := 0; height := 0 |})
  | first :: _ =>
      let placed := placeSiblings [] boxed in
      (map fst placed, fold_left growBox placed (snd first))
  end.

Fixpoint arrangeSpan (span : VisSpan) : VisSpan * SpanBoundingBox :=
  match children span with
  | [] => (span, {| start_time := startTime span; end_time := endTime span; height := 1 |})
  | _ :: _ =>
      let r := arrangeSiblings (map arrangeSpan (children span)) in
      (withChildren span (fst r),
       {| start_time := Z.min (startTime span) (start_time (snd r));
          end_time := Z.max (endTime span) (end_time (snd r));
          height := height (snd r) + 1 |})
  end.

(** Takes a bunch of spans and modifies their heights to avoid collisions;
    returns the spans as the pass leaves them, and the bounding box. *)
Definition arrangeSpans (spans : list VisSpan) : list VisSpan * SpanBoundingBox :=
  arrangeSiblings (map arrangeSpan spans).

(** ** Array.prototype.sort

    The sort is stable and the comparators used here ([a.startTime -
    b.startTime], [localeCompare]) are total preorders, so the result is the
    one of any stable sort: here, insertion from left to right, each element
    going behind the earlier ones it does not precede. *)
Section Sort.
Context {A : Type} (cmp : A -> A -> Z).

Fixpoint insertSorted (x : A) (l : list A) : list A :=
  match l with
  | [] => [x]
  | y :: l' => if cmp x y <? 0 then x :: y :: l' else y :: insertSorted x l'
  end.

Definition sortBy (l : list A) : list A :=
  fold_left (fun acc x => insertSorted x acc) l [].
End Sort.

Definition byStartTime (a b : VisSpan) : Z := startTime a - startTime b.

(** ** AllSpans *)

Record AllSpans : Type := mkAllSpans { all_spans : list VisSpan }.

Definition getSpansForTimeRange (this : AllSpans) (startTime_ endTime_ : Z) : list VisSpan :=
  List.filter
    (fun span => isCollidingInAxis (startTime span) (endTime span) startTime_ endTime_)
    (all_spans this).

(** ** Plain objects used as maps

    [nodes_by_name], [spans_by_node_name] and [spanIdToSpan] are object
    literals ([{}]) used as maps.  For such an object [k in o] holds for the
    keys that were assigned and also for the names of the properties every
    object inherits from [Object.prototype]; what [o[k]] yields for an
    inherited name is a function or [Object.prototype] itself, on which
    [.push], [.sort] or [.children.push] is a call on [undefined]: a
    TypeError. *)

Module JsObject.

Inductive Thrown : Type := TypeError.

(** The names of the properties of [Object.prototype]. *)
Definition prototypeNames : list string :=
  ["constructor"; "__defineGetter__"; "__defineSetter__"; "hasOwnProperty";
   "__lookupGetter__"; "__lookupSetter__"; "isPrototypeOf"; "propertyIsEnumerable";
   "toString"; "valueOf"; "__proto__"; "toLocaleString"]%string.

Definition isPrototypeName (k : string) : bool :=
  existsb (String.eqb k) prototypeNames.

(** The array index a key stands for, if any: the decimal numeral, without
    sign, blank or leading zero, of an integer below 2^32 - 1. *)
Definition digit (c : ascii) : option N :=
  let n := N_of_ascii c in
  if ((48 <=? n) && (n <=? 57))%N then Some (n - 48)%N else None.

Fixpoint digits (k : string) (acc : N) : option N :=
  match k with
  | EmptyString => Some acc
  | String c rest =>
      match digit c with
      | Some d => digits rest (10 * acc + d)%N
      | None => None
      end
  end.

Definition arrayIndex (k : string) : option N :=
  match k with
  | EmptyString => None
  | String c rest =>
      if (N_of_ascii c =? 48)%N && negb (String.eqb rest "")
      then None
      else match digits k 0 with
           | Some n => if (n <? 4294967295)%N then Some n else None
           | None => None
           end
  end.

Definition isArrayIndex (k : string) : bool :=
  match arrayIndex k with Some _ => true | None => false end.

Definition byArrayIndex {V : Type} (a b : string * V) : Z :=
  Z.of_N (default 0%N (arrayIndex (fst a))) - Z.of_N (default 0%N (arrayIndex (fst b))).

(** [Object.values(o)], for the own properties of [o] in the order they were
    created: the values of the array-index keys in ascending order of the
    index, then those of the other keys in creation order. *)
Definition values {V : Type} (entries : list (string * V)) : list V :=
  map snd (sortBy byArrayIndex (List.filter (fun e => isArrayIndex (fst e)) entries))
  ++ map snd (List.filter (fun e => negb (isArrayIndex (fst e))) entries).

End JsObject.

(** ** getNodeSpans: one lane per service name *)

Definition serviceName (span : VisSpan) : string :=
  match find (fun kv => String.eqb (key kv) "service.name")
             (resource_attributes (resource span)) with
  | Some maybe_service_name => stringValue (value maybe_service_name)
  | None => "service.name missing"
  end.

Section Lanes.
(** [String.prototype.localeCompare], as the host provides it. *)
Variable localeCompare : string -> string -> Z.

(** [if (!(service_name in nodes_by_name)) nodes_by_name[service_name] = ..];
    the own properties of [nodes_by_name] are kept in the order they were
    created. *)
Definition addNode (nodes_by_name : list (string * VisNode)) (service_name : string)
  : list (string * VisNode) :=
  if existsb (fun e => String.eqb (fst e) service_name) nodes_by_name
     || JsObject.isPrototypeName service_name
  then nodes_by_name
  else nodes_by_name ++ [(service_name, {| node_name := service_name; node_attributes := [] |})].

(** [if (service_name in spans_by_node_name) spans_by_node_name[service_name].push(span)
     else spans_by_node_name[service_name] = [span]]: for an inherited name
    the value found has no [push]. *)
Definition addSpan (spans_by_node_name : gmap string (list VisSpan))
           (service_name : string) (span : VisSpan)
  : JsObject.Thrown + gmap string (list VisSpan) :=
  match spans_by_node_name !! service_name with
  | Some l => inr (<[service_name := l ++ [span]]> spans_by_node_name)
  | None =>
      if JsObject.isPrototypeName service_name
      then inl JsObject.TypeError
      else inr (<[service_name := [span]]> spans_by_node_name)
  end.

(** One round of the first loop; a throw ends the function. *)
Definition groupStep
           (acc : JsObject.Thrown + (list (string * VisNode) * gmap string (list VisSpan)))
           (span : VisSpan)
  : JsObject.Thrown + (list (string * VisNode) * gmap string (list VisSpan)) :=
  match acc with
  | inl e => inl e
  | inr (nodes_by_name, spans_by_node_name) =>
      let service_name := serviceName span in
      let nodes_by_name := addNode nodes_by_name service_name in
      match addSpan spans_by_node_name service_name span with
      | inl e => inl e
      | inr spans_by_node_name => inr (nodes_by_name, spans_by_node_name)
      end
  end.

Definition groupByNode (top_level_spans : list VisSpan)
  : JsObject.Thrown + (list (string * VisNode) * gmap string (list VisSpan)) :=
  fold_left groupStep top_level_spans (inr ([], ∅)).

(** The second loop: [cur_spans.sort] on a name that has no array throws. *)
Fixpoint laneLoop (spans_by_node_name : gmap string (list VisSpan))
         (all_nodes : list VisNode) (res : list NodeSpans)
  : JsObject.Thrown + list NodeSpans :=
  match all_nodes with
  | [] => inr res
  | node :: rest =>
      match spans_by_node_name !! node_name node with
      | Some cur_spans =>
          let cur_spans := sortBy byStartTime cur_spans in
          let r := arrangeSpans cur_spans in
          laneLoop spans_by_node_name rest
                   (res ++ [{| node := node; spans := fst r; bbox := snd r |}])
      | None => inl JsObject.TypeError
      end
  end.

Definition getNodeSpans (top_level_spans : list VisSpan)
  : JsObject.Thrown + list NodeSpans :=
  match groupByNode top_level_spans with
  | inl e => inl e
  | inr (nodes_by_name, spans_by_node_name) =>
      let all_nodes :=
        sortBy (fun a b => localeCompare (node_name a) (node_name b))
               (JsObject.values nodes_by_name) in
      laneLoop spans_by_node_name all_nodes []
  end.
End Lanes.

(** ** What the renderer and the counters read *)

(** [DrawSpan]: the row ([y / PARAMS.spanHeight]) of every span of a subtree,
    with its nesting depth below the lane's root list. *)
Fixpoint drawSpan (depth : nat) (curHeightLevel : N) (span : VisSpan)
  : list (VisSpan * nat * N) :=
  (span, depth, (curHeightLevel + height_level span)%N)
    :: flat_map (drawSpan (S depth) (curHeightLevel + height_level span + 1)%N)
                (children span).

(** [DrawNodeSpans]: every root is drawn with [curHeightLevel = 0]. *)
Definition drawLane (spans : list VisSpan) : list (VisSpan * nat * N) :=
  flat_map (drawSpan 0 0%N) spans.

Fixpoint countDisplayedSpansRec (span : VisSpan) : nat :=
  (1 + list_sum (map countDisplayedSpansRec (children span)))%nat.

Definition countDisplayedSpans (nodeSpans : list NodeSpans) : nat :=
  list_sum (map (fun ns => list_sum (map countDisplayedSpansRec (spans ns))) nodeSpans).

(** Every span of a subtree, the root first. *)
Fixpoint subtree (span : VisSpan) : list VisSpan :=
  span :: flat_map subtree (children span).

Definition forest (spans : list VisSpan) : list VisSpan := flat_map subtree spans.

(** A span with every [height_level] of its subtree forgotten. *)
Fixpoint eraseLevels (span : VisSpan) : VisSpan :=
  mkVisSpan (spanId span) (name span) (startTime span) (endTime span)
            (parentSpanId span) (map eraseLevels (children span)) (events span)
            (resource span) (attributes span) 0.

(** The levels of the first sibling of every sibling group of a subtree. *)
Fixpoint firstSiblingLevels (span : VisSpan) : list N :=
  match children span with
  | [] => []
  | c :: _ => [height_level c]
  end ++ flat_map firstSiblingLevels (children span).

Definition firstLevels (spans : list VisSpan) : list N :=
  match spans with
  | [] => []
  | s :: _ => [height_level s]
  end ++ flat_map firstSiblingLevels spans.

(** Induction on a span with the hypothesis for all its children. *)
Lemma VisSpan_forall_ind (P : VisSpan -> Prop) :
  (forall span, Forall P (children span) -> P span) -> forall span, P span.
Proof.
  intros step. fix IH 1. intros span. apply step.
  destruct span as [? ? ? ? ? cs ? ? ? ?]. simpl.
  induction cs as [|c cs IHcs]; constructor; [apply IH | exact IHcs].
Qed.


(** ** The timeline: state, screen maps, wheel zoom *)

Module Timeline.
Local Open Scope Q_scope.

Inductive TimelineAction : Type :=
| ActionNone
| DraggingEdge
| DraggingMiddle.

Record TimelineState : Type := mkTimelineState {
  startTime : Q;
  endTime : Q;
  selectedStart : Q;
  selectedEnd : Q;
  minStartTime : Q;
  maxEndTime : Q;
  action : TimelineAction;
  deltaX : Q;
  notDraggedEdgeTime : Q }.

(** [new TimelineState()] *)
Definition newTimelineState : TimelineState :=
  {| startTime := 1000000000; endTime := 3000000000;
     selectedStart := 1500000000; selectedEnd := 2500000000;
     minStartTime := 0; maxEndTime := 4000000000;
     action := ActionNone; deltaX := 0; notDraggedEdgeTime := 0 |}.

(** [a / b] on finite numbers.  With [b] zero JavaScript yields NaN or an
    infinity, which no rational stands for: [None]. *)
Definition div (a b : Q) : option Q :=
  if Qeq_bool b 0 then None else Some (a / b).

(** Sequencing of computations that may leave the finite numbers. *)
Definition bind {A B} (m : option A) (k : A -> option B) : option B :=
  match m with
  | Some a => k a
  | None => None
  end.

Notation "'let*' x ':=' m 'in' k" := (bind m (fun x => k))
  (at level 10, x name, m at level 100, k at level 200).

Definition screenToTime (screenX : Q) (timeline : TimelineState) (windowWidth : Q) : option Q :=
  let* r := div screenX windowWidth in
  Some (startTime timeline + r * (endTime timeline - startTime timeline)).

Definition timeToScreen (time : Q) (timeline : TimelineState) (windowWidth : Q) : option Q :=
  let* r := div (time - startTime timeline) (endTime timeline - startTime timeline) in
  Some (r * windowWidth).

(** The wheel handler of [Timeline]; [clientX] and [deltaY] are the two
    fields of the event it reads, the result is the state it sets. *)
Definition timelineScrollHandler (timelineState : TimelineState)
           (clientX deltaY : Q) (width : Q) : option TimelineState :=
  let mouseX := clientX in
  let* mouseTime := screenToTime mouseX timelineState width in
  let speedFactor := 1 # 1000 in
  let scrollAmount := deltaY * speedFactor in
  let currentLength := endTime timelineState - startTime timelineState in
  let newLength := currentLength * (1 + scrollAmount) in
  let* moved := div ((mouseTime - startTime timelineState) * newLength) currentLength in
  let newStart := mouseTime - moved in
  let newEnd := newStart + newLength in
  let newStart := Qmax (minStartTime timelineState) newStart in
  let newEnd := Qmin (maxEndTime timelineState) newEnd in
  Some {| startTime := newStart; endTime := newEnd;
          selectedStart := selectedStart timelineState;
          selectedEnd := selectedEnd timelineState;
          minStartTime := minStartTime timelineState;
          maxEndTime := maxEndTime timelineState;
          action := action timelineState;
          deltaX := deltaX timelineState;
          notDraggedEdgeTime := notDraggedEdgeTime timelineState |}.

(** The window [[startTime, endTime]] lies within the data extrema. *)
Definition windowWithinExtrema (s : TimelineState) : Prop :=
  minStartTime s <= startTime s /\ endTime s <= maxEndTime s.

End Timeline.
(** ** The span forest builder, on the object graph

    [extractVisSpans] creates one object per raw span and links the objects by
    reference: [spanIdToSpan] maps an identifier to an object, a [children]
    array holds objects.  Here the objects are the entries of the array
    [spans], a reference is an index into that array, and a write through a
    reference updates the entry.

    [spanIdToSpan] is an object literal used as a map; what it inherits from
    its prototype takes part in [k in spanIdToSpan] and is modelled with
    it. *)

Module Heap.

Record SpanObject : Type := mkSpanObject {
  spanId : string;
  name : string;
  startTime : Z;
  endTime : Z;
  parentSpanId : string;
  children : list nat;
  events : list Event;
  resource : Resource;
  attributes : list KeyValue;
  height_level : N }.

(** The object pushed for a raw span. *)
Definition newSpanObject (resource_spans : Otel.ResourceSpans) (span : Otel.Span) : SpanObject :=
  {| spanId := Otel.spanId span;
     name := Otel.name span;
     startTime := Otel.startTimeUnixNano span;
     endTime := Otel.endTimeUnixNano span;
     parentSpanId := Otel.parentSpanId span;
     children := [];
     events := Otel.events span;
     resource := Otel.resource resource_spans;
     attributes := Otel.attributes span;
     height_level := 0 |}.

(** The raw spans of a payload with their resource, in the order of the four
    nested loops. *)
Definition rawSpans (otel_requests : list Otel.ExportTraceServiceRequest)
  : list (Otel.ResourceSpans * Otel.Span) :=
  flat_map (fun request =>
    flat_map (fun resource_spans =>
      flat_map (fun scope_spans =>
        map (fun span => (resource_spans, span)) (Otel.spans scope_spans))
      (Otel.scopeSpans resource_spans))
    (Otel.resourceSpans request))
  otel_requests.

(** First loop nest: the array [spans]. *)
Definition collectSpans (otel_requests : list Otel.ExportTraceServiceRequest)
  : list SpanObject :=
  map (fun rs => newSpanObject (fst rs) (snd rs)) (rawSpans otel_requests).

(** The object [spanIdToSpan]: its own properties, and the span object that
    an assignment to ["__proto__"] has made its prototype, if any (its
    prototype is [Object.prototype] otherwise, which is also the prototype
    of every span object). *)
Record SpanIndex : Type := mkSpanIndex {
  own : gmap string nat;
  proto : option nat }.

Definition emptyIndex : SpanIndex := {| own := ∅; proto := None |}.

(** [spanIdToSpan[k] = span], [span] being the object at index [i]: the
    assignment to ["__proto__"] runs the setter inherited from
    [Object.prototype], which replaces the prototype and creates no
    property; any other key becomes an own property. *)
Definition setIndex (k : string) (i : nat) (m : SpanIndex) : SpanIndex :=
  if String.eqb k "__proto__"
  then {| own := own m; proto := Some i |}
  else {| own := <[k := i]> (own m); proto := proto m |}.

(** The own properties of a span object. *)
Definition spanFieldNames : list string :=
  ["spanId"; "name"; "startTime"; "endTime"; "parentSpanId"; "children";
   "events"; "resource"; "attributes"; "height_level"]%string.

(** [k in spanIdToSpan]: an own property, a property of the span object set
    as prototype, or a property of [Object.prototype]. *)
Definition hasIndex (m : SpanIndex) (k : string) : bool :=
  match own m !! k with Some _ => true | None => false end
  || JsObject.isPrototypeName k
  || match proto m with
     | Some _ => existsb (String.eqb k) spanFieldNames
     | None => false
     end.

(** [spanIdToSpan[k]] when it is a span object: the prototype read through
    ["__proto__"], or an own property.  Whatever else [k in spanIdToSpan]
    finds (a function of [Object.prototype], [Object.prototype] itself, a
    field of the prototype span) has no [children] array. *)
Definition getIndex (m : SpanIndex) (k : string) : option nat :=
  if String.eqb k "__proto__" then proto m else own m !! k.

(** [for (let span of spans) spanIdToSpan[span.spanId] = span], from the
    object at index [i] on: a later span with the same identifier wins. *)
Fixpoint indexFrom (i : nat) (spans : list SpanObject) (spanIdToSpan : SpanIndex)
  : SpanIndex :=
  match spans with
  | [] => spanIdToSpan
  | span :: rest => indexFrom (S i) rest (setIndex (spanId span) i spanIdToSpan)
  end.

Definition indexSpans (spans : list SpanObject) : SpanIndex := indexFrom 0 spans emptyIndex.

(** [parent.children.push(span)], [span] being the object at index [i] *)
Definition pushChild (i : nat) (parent : SpanObject) : SpanObject :=
  mkSpanObject (spanId parent) (name parent) (startTime parent) (endTime parent)
               (parentSpanId parent) (children parent ++ [i]) (events parent)
               (resource parent) (attributes parent) (height_level parent).

(** One round of the linking loop, for the object at index [i]:
    [if (span.parentSpanId in spanIdToSpan)
       spanIdToSpan[span.parentSpanId].children.push(span)]. *)
Definition linkStep (spanIdToSpan : SpanIndex) (spans : list SpanObject) (i : nat)
  : JsObject.Thrown + list SpanObject :=
  match spans !! i with
  | Some span =>
      if hasIndex spanIdToSpan (parentSpanId span)
      then match getIndex spanIdToSpan (parentSpanId span) with
           | Some parent => inr (alter (pushChild i) parent spans)
           | None => inl JsObject.TypeError
           end
      else inr spans
  | None => inr spans
  end.

(** The linking loop; a throw ends the function. *)
Definition linkChildren (spanIdToSpan : SpanIndex) (spans : list SpanObject)
  : JsObject.Thrown + list SpanObject :=
  fold_left (fun acc i =>
               match acc with
               | inl e => inl e
               | inr spans => linkStep spanIdToSpan spans i
               end)
            (seq 0 (length spans)) (inr spans).

(** [a.startTime - b.startTime] for two references *)
Definition byStartTimeRef (spans : list SpanObject) (a b : nat) : Z :=
  match spans !! a, spans !! b with
  | Some sa, Some sb => startTime sa - startTime sb
  | _, _ => 0
  end.

Definition sortedChildren (spans : list SpanObject) (span : SpanObject) : SpanObject :=
  mkSpanObject (spanId span) (name span) (startTime span) (endTime span)
               (parentSpanId span) (sortBy (byStartTimeRef spans) (children span))
               (events span) (resource span) (attributes span) (height_level span).

(** [for (let span of spans) span.children.sort(..)]: no start time changes,
    so every sort compares by the start times [spans] holds throughout. *)
Definition sortAllChildren (spans : list SpanObject) : list SpanObject :=
  map (sortedChildren spans) spans.

(** The references to the spans whose [parentSpanId] is the empty string. *)
Definition topLevel (spans : list SpanObject) : list nat :=
  List.filter
    (fun i => match spans !! i with
              | Some span => String.eqb (parentSpanId span) ""
              | None => false
              end)
    (seq 0 (length spans)).

(** [extractVisSpans]: the objects as the function leaves them, and the
    returned array [top_level_spans] of references into them; or the
    TypeError it throws. *)
Definition extractVisSpans (otel_requests : list Otel.ExportTraceServiceRequest)
  : JsObject.Thrown + (list SpanObject * list nat) :=
  let spans := collectSpans otel_requests in
  let spanIdToSpan := indexSpans spans in
  match linkChildren spanIdToSpan spans with
  | inl e => inl e
  | inr spans =>
      let spans := sortAllChildren spans in
      inr (spans, topLevel spans)
  end.

(** The tree below a reference, as a traversal that follows [children] sees
    it ([countDisplayedSpansRec], [arrangeSpan], [DrawSpan]).  The graph may
    hold a cycle, on which such a traversal does not end: [fuel] bounds the
    depth, and running out of it is [None]. *)
Fixpoint reify (fuel : nat) (spans : list SpanObject) (i : nat) : option VisSpan :=
  match fuel with
  | O => None
  | S fuel' =>
      match spans !! i with
      | None => None
      | Some span =>
          match mapM (reify fuel' spans) (children span) with
          | None => None
          | Some cs =>
              Some (mkVisSpan (spanId span) (name span) (startTime span) (endTime span)
                              (parentSpanId span) cs (events span) (resource span)
                              (attributes span) (height_level span))
          end
      end
  end.

Definition reifyForest (fuel : nat) (r : list SpanObject * list nat) : option (list VisSpan) :=
  mapM (reify fuel (fst r)) (snd r).

(** *** Payloads whose spans form a forest *)

(** The parent's reference, for the object at index [j]. *)
Definition parentRef (spanIdToSpan : SpanIndex) (spans : list SpanObject) (j : nat)
  : option nat :=
  match spans !! j with
  | Some span => getIndex spanIdToSpan (parentSpanId span)
  | None => None
  end.

Definition isTopLevel (spans : list SpanObject) (j : nat) : bool :=
  match spans !! j with
  | Some span => String.eqb (parentSpanId span) ""
  | None => false
  end.

(** Following parent identifiers from [j] ends, within [fuel] spans, at a
    span whose parent identifier is empty and is no span's identifier. *)
Fixpoint reachesRoot (fuel : nat) (spanIdToSpan : SpanIndex)
         (spans : list SpanObject) (j : nat) : bool :=
  match fuel with
  | O => false
  | S fuel' =>
      match parentRef spanIdToSpan spans j with
      | Some parent => reachesRoot fuel' spanIdToSpan spans parent
      | None => isTopLevel spans j
      end
  end.

(** No parent identifier dangles and none lies on a cycle. *)
Definition wellFormed (spans : list SpanObject) : bool :=
  forallb (reachesRoot (length spans) (indexSpans spans) spans) (seq 0 (length spans)).

End Heap.
(** * Properties of the layout engine *)

(** ** The collision tests *)

(** "Either one's boundary point lies within the other". *)
Definition boundaryOverlap (b1 e1 b2 e2 : Z) : Prop :=
  b1 <= b2 <= e1 \/ b1 <= e2 <= e1 \/ b2 <= b1 <= e2 \/ b2 <= e1 <= e2.

(** The closed intervals [[b1, e1]] and [[b2, e2]] share a point. *)
Definition closedOverlap (b1 e1 b2 e2 : Z) : Prop :=
  exists x, (b1 <= x <= e1) /\ (b2 <= x <= e2).


Lemma boundaryOverlap_closed b1 e1 b2 e2 :
  b1 <= e1 -> b2 <= e2 -> (boundaryOverlap b1 e1 b2 e2 <-> closedOverlap b1 e1 b2 e2).
Proof.
  intros H1 H2. unfold boundaryOverlap, closedOverlap. split.
  - intros [H|[H|[H|H]]];
      [exists b2 | exists e2 | exists b1 | exists e1]; lia.
  - intros [x Hx]. lia.
Qed.


(** ** The bump loop *)

Lemma bump_step earlier cur box l :
  bump earlier cur box l =
  if collidesWithEarlier earlier cur box l then bump earlier cur box (l + 1) else l.
Proof.
  rewrite bump_equation_1.
  destruct (inspect (collidesWithEarlier earlier cur box l)) as [[] H];
    simpl; rewrite H; reflexivity.
Qed.

Lemma bump_spec earlier cur box :
  forall n l, (maxTop earlier + 1 - l = n)%N ->
  (l <= bump earlier cur box l)%N /\
  collidesWithEarlier earlier cur box (bump earlier cur box l) = false /\
  (forall l', (l <= l' < bump earlier cur box l)%N ->
              collidesWithEarlier earlier cur box l' = true) /\
  (bump earlier cur box l <= N.max l (maxTop earlier + 1))%N.
Proof.
  induction n as [|n IH] using N.peano_ind; intros l Hn;
    rewrite bump_step;
    destruct (collidesWithEarlier earlier cur box l) eqn:Hc.
  - apply collidesWithEarlier_below in Hc. lia.
  - repeat split; [lia | exact Hc | lia | lia].
  - pose proof (collidesWithEarlier_below _ _ _ _ Hc) as Hle.
    destruct (IH (l + 1)%N ltac:(lia)) as (H1 & H2 & H3 & H4).
    repeat split; [lia | exact H2 | | lia].
    intros l' Hl'. destruct (N.eq_dec l' l) as [->|Hne]; [exact Hc|].
    apply H3. lia.
  - repeat split; [lia | exact Hc | lia | lia].
Qed.

Lemma bump_ge earlier cur box l : (l <= bump earlier cur box l)%N.
Proof. eapply bump_spec; reflexivity. Qed.

Lemma bump_nil cur box l : bump [] cur box l = l.
Proof. rewrite bump_step. reflexivity. Qed.



(** C8.  Empty-input degeneracy: [arrangeSpans] of the empty list is the
    zero-extent box {start_time: 0, end_time: 0, height: 0} (and no span),
    and [getNodeSpans] of the empty list returns the empty list of lanes,
    whatever [localeCompare] is. *)
Theorem empty_input_degenerate :
  arrangeSpans [] = ([], {| start_time := 0; end_time := 0; height := 0 |}) /\
  (forall localeCompare, getNodeSpans localeCompare [] = inr []).
Proof. split; [reflexivity | intros; reflexivity]. Qed.

(** C9.  [getSpansForTimeRange] keeps, in their order, exactly the stored
    top-level spans whose own interval passes the closed-interval test
    against the window (for a span and a window that start before they end:
    whose closed interval meets the window's); the children of a span play
    no part in the test, so
    a top-level span whose own interval misses the window is left out, and
    its subtree with it, also when one of its descendants overlaps the
    window. *)
Theorem time_range_filters_on_roots :
  (forall this a b span,
      In span (getSpansForTimeRange this a b) <->
      In span (all_spans this) /\
      isCollidingInAxis (startTime span) (endTime span) a b = true) /\
  (forall this a b,
      getSpansForTimeRange this a b =
      List.filter (fun span => isCollidingInAxis (startTime span) (endTime span) a b)
                  (all_spans this)) /\
  (forall pre post a b span cs,
      let kept := fun s => getSpansForTimeRange (mkAllSpans (pre ++ s :: post)) a b in
      (In span (kept span) -> kept (withChildren span cs) =
         getSpansForTimeRange (mkAllSpans pre) a b ++ withChildren span cs ::
         getSpansForTimeRange (mkAllSpans post) a b) /\
      (isCollidingInAxis (startTime span) (endTime span) a b = false ->
       kept (withChildren span cs) =
         getSpansForTimeRange (mkAllSpans pre) a b ++
         getSpansForTimeRange (mkAllSpans post) a b)) /\
  (forall this a b span,
      startTime span <= endTime span -> a <= b ->
      (In span (getSpansForTimeRange this a b) <->
       In span (all_spans this) /\ closedOverlap (startTime span) (endTime span) a b)) /\
  (forall this a b span d,
      In span (all_spans this) ->
      isCollidingInAxis (startTime span) (endTime span) a b = false ->
      In d (flat_map subtree (children span)) ->
      isCollidingInAxis (startTime d) (endTime d) a b = true ->
      ~ In span (getSpansForTimeRange this a b)).
Proof.
  unfold getSpansForTimeRange. split; [|split; [|split; [|split]]].
  - intros this a b span. rewrite filter_In. tauto.
  - reflexivity.
  - intros pre post a b span cs. simpl. split.
    + intros H. apply filter_In in H. destruct H as [_ H].
      rewrite List.filter_app. simpl. rewrite H. reflexivity.
    + intros H. rewrite List.filter_app. simpl. rewrite H. reflexivity.
  - intros this a b span Hspan Hab.
    rewrite filter_In, isCollidingInAxis_true, <- (boundaryOverlap_closed _ _ _ _ Hspan Hab).
    unfold boundaryOverlap. tauto.
  - intros this a b span d _ Hout _ _ H.
    apply filter_In in H. destruct H as [_ H]. congruence.
Qed.

(** ** What a layout pass writes *)

(** A placed sibling: the same box, the same span but for a level that is
    not lower. *)
Definition relevel (e e' : VisSpan * SpanBoundingBox) : Prop :=
  snd e' = snd e /\
  exists l, fst e' = setLevel (fst e) l /\ (height_level (fst e) <= l)%N.

Lemma setLevel_same span : setLevel span (height_level span) = span.
Proof. destruct span; reflexivity. Qed.

Lemma placeSiblings_relevel todo :
  forall placed, exists tail,
    placeSiblings placed todo = placed ++ tail /\ Forall2 relevel todo tail.
Proof.
  induction todo as [|[cur box] rest IH]; intros placed; simpl.
  - exists []. split; [symmetry; apply app_nil_r | constructor].
  - destruct (IH (placed ++ [(setLevel cur (bump placed cur box (height_level cur)), box)]))
      as (tail & Heq & Hrel).
    eexists (_ :: tail). split.
    + rewrite Heq, <- app_assoc. reflexivity.
    + constructor; [|exact Hrel].
      split; [reflexivity|]. eexists. split; [reflexivity|]. apply bump_ge.
Qed.

Lemma placeSiblings_first cur box rest :
  exists tail, placeSiblings [] ((cur, box) :: rest) = (cur, box) :: tail /\
               Forall2 relevel rest tail.
Proof.
  simpl. rewrite bump_nil, setLevel_same.
  destruct (placeSiblings_relevel rest [(cur, box)]) as (tail & Heq & Hrel).
  exists tail. split; [exact Heq | exact Hrel].
Qed.

Lemma arrangeSpan_eq span :
  arrangeSpan span =
  match children span with
  | [] => (span, {| start_time := startTime span; end_time := endTime span; height := 1 |})
  | _ :: _ =>
      let r := arrangeSpans (children span) in
      (withChildren span (fst r),
       {| start_time := Z.min (startTime span) (start_time (snd r));
          end_time := Z.max (endTime span) (end_time (snd r));
          height := height (snd r) + 1 |})
  end.
Proof. destruct span; reflexivity. Qed.

Lemma arrangeSpans_cons span rest :
  exists tail,
    arrangeSpans (span :: rest) =
      (fst (arrangeSpan span) :: map fst tail,
       fold_left growBox ((fst (arrangeSpan span), snd (arrangeSpan span)) :: tail)
                 (snd (arrangeSpan span))) /\
    Forall2 relevel (map arrangeSpan rest) tail.
Proof.
  unfold arrangeSpans, arrangeSiblings. cbn [map].
  destruct (arrangeSpan span) as [s b] eqn:E.
  destruct (placeSiblings_first s b (map arrangeSpan rest)) as (tail & Heq & Hrel).
  exists tail. rewrite Heq. split; [reflexivity | exact Hrel].
Qed.

Lemma arrangeSpan_level span : height_level (fst (arrangeSpan span)) = height_level span.
Proof. rewrite arrangeSpan_eq. destruct (children span); reflexivity. Qed.

(** *** The fields other than [height_level], and the shape *)

Lemma eraseLevels_setLevel span l : eraseLevels (setLevel span l) = eraseLevels span.
Proof. destruct span; reflexivity. Qed.

Lemma relevel_erase boxed tail :
  Forall2 relevel boxed tail ->
  map eraseLevels (map fst tail) = map eraseLevels (map fst boxed).
Proof.
  induction 1 as [|e e' l l' (_ & lv & Hs & _) _ IH]; simpl; [reflexivity|].
  rewrite Hs, eraseLevels_setLevel, IH. reflexivity.
Qed.

Lemma arrangeSpans_erase_from spans :
  Forall (fun s => eraseLevels (fst (arrangeSpan s)) = eraseLevels s) spans ->
  map eraseLevels (fst (arrangeSpans spans)) = map eraseLevels spans.
Proof.
  intros Hall. destruct spans as [|span rest]; [reflexivity|].
  destruct (arrangeSpans_cons span rest) as (tail & -> & Hrel).
  inversion Hall as [|? ? Hs Hrest]; subst. cbn [fst map].
  rewrite Hs. f_equal. rewrite (relevel_erase _ _ Hrel), !map_map.
  clear -Hrest. induction Hrest as [|c cs Hc _ IH]; simpl; [reflexivity|].
  rewrite Hc, IH. reflexivity.
Qed.

Lemma arrangeSpan_erase span : eraseLevels (fst (arrangeSpan span)) = eraseLevels span.
Proof.
  induction span as [span IH] using VisSpan_forall_ind.
  rewrite arrangeSpan_eq. destruct (children span) as [|c cs] eqn:Hcs; [reflexivity|].
  cbn [fst]. apply arrangeSpans_erase_from in IH.
  destruct span; simpl in *. subst. rewrite IH. reflexivity.
Qed.

Lemma arrangeSpans_erase spans :
  map eraseLevels (fst (arrangeSpans spans)) = map eraseLevels spans.
Proof.
  apply arrangeSpans_erase_from, Forall_forall. intros s _. apply arrangeSpan_erase.
Qed.

(** *** Levels only grow *)

(** The levels of a subtree, the root first. *)
Fixpoint levels (span : VisSpan) : list N :=
  height_level span :: flat_map levels (children span).

Lemma levels_eq span : levels span = height_level span :: flat_map levels (children span).
Proof. destruct span; reflexivity. Qed.

Lemma Forall2_le_refl (l : list N) : Forall2 N.le l l.
Proof. induction l; constructor; [lia | assumption]. Qed.

Lemma Forall2_le_trans (l1 l2 l3 : list N) :
  Forall2 N.le l1 l2 -> Forall2 N.le l2 l3 -> Forall2 N.le l1 l3.
Proof.
  intros H. revert l3. induction H as [|x y l l' Hxy _ IH]; intros l3 H3;
    inversion H3; subst; constructor; [lia | auto].
Qed.

Lemma relevel_levels boxed tail :
  Forall2 relevel boxed tail ->
  Forall2 N.le (flat_map levels (map fst boxed)) (flat_map levels (map fst tail)).
Proof.
  induction 1 as [|e e' l l' (_ & lv & Hs & Hle) _ IH]; simpl; [constructor|].
  apply Forall2_app; [|exact IH].
  rewrite Hs, (levels_eq (fst e)), levels_eq.
  destruct (fst e); simpl in *. constructor; [exact Hle | apply Forall2_le_refl].
Qed.

Lemma flat_map_levels_le (f : VisSpan -> VisSpan) spans :
  Forall (fun s => Forall2 N.le (levels s) (levels (f s))) spans ->
  Forall2 N.le (flat_map levels spans) (flat_map levels (map f spans)).
Proof.
  induction 1 as [|s rest Hs _ IH]; simpl; [constructor|].
  apply Forall2_app; assumption.
Qed.

Lemma arrangeSpans_levels_from spans :
  Forall (fun s => Forall2 N.le (levels s) (levels (fst (arrangeSpan s)))) spans ->
  Forall2 N.le (flat_map levels spans) (flat_map levels (fst (arrangeSpans spans))).
Proof.
  intros Hall. destruct spans as [|span rest]; [constructor|].
  destruct (arrangeSpans_cons span rest) as (tail & -> & Hrel).
  inversion Hall as [|? ? Hs Hrest]; subst. cbn [fst flat_map].
  apply Forall2_app; [exact Hs|].
  eapply Forall2_le_trans; [|apply (relevel_levels _ _ Hrel)].
  rewrite map_map. apply (flat_map_levels_le (fun s => fst (arrangeSpan s))), Hrest.
Qed.

Lemma arrangeSpan_levels span : Forall2 N.le (levels span) (levels (fst (arrangeSpan span))).
Proof.
  induction span as [span IH] using VisSpan_forall_ind.
  rewrite arrangeSpan_eq. destruct (children span) as [|c cs] eqn:Hcs;
    [apply Forall2_le_refl|].
  cbn [fst]. apply arrangeSpans_levels_from in IH.
  rewrite (levels_eq span), levels_eq, Hcs. simpl.
  constructor; [lia | exact IH].
Qed.

Lemma arrangeSpans_levels spans :
  Forall2 N.le (flat_map levels spans) (flat_map levels (fst (arrangeSpans spans))).
Proof.
  apply arrangeSpans_levels_from, Forall_forall. intros s _. apply arrangeSpan_levels.
Qed.

(** *** The first sibling stays where it is *)

Lemma firstSiblingLevels_eq span :
  firstSiblingLevels span =
  match children span with [] => [] | c :: _ => [height_level c] end
    ++ flat_map firstSiblingLevels (children span).
Proof. destruct span; reflexivity. Qed.

Lemma firstSiblingLevels_setLevel span l :
  firstSiblingLevels (setLevel span l) = firstSiblingLevels span.
Proof. rewrite !firstSiblingLevels_eq. destruct span; reflexivity. Qed.

Lemma relevel_firstSiblingLevels boxed tail :
  Forall2 relevel boxed tail ->
  flat_map firstSiblingLevels (map fst tail) = flat_map firstSiblingLevels (map fst boxed).
Proof.
  induction 1 as [|e e' l l' (_ & lv & Hs & _) _ IH]; simpl; [reflexivity|].
  rewrite Hs, firstSiblingLevels_setLevel, IH. reflexivity.
Qed.

Lemma arrangeSpans_firstLevels_from spans :
  Forall (fun s => firstSiblingLevels (fst (arrangeSpan s)) = firstSiblingLevels s) spans ->
  firstLevels (fst (arrangeSpans spans)) = firstLevels spans.
Proof.
  intros Hall. destruct spans as [|span rest]; [reflexivity|].
  destruct (arrangeSpans_cons span rest) as (tail & -> & Hrel).
  inversion Hall as [|? ? Hs Hrest]; subst. unfold firstLevels. cbn [fst flat_map].
  rewrite arrangeSpan_level, Hs. do 2 f_equal.
  rewrite (relevel_firstSiblingLevels _ _ Hrel), map_map.
  clear -Hrest. induction Hrest as [|c cs Hc _ IH]; simpl; [reflexivity|].
  rewrite Hc, IH. reflexivity.
Qed.

Lemma arrangeSpan_firstSiblingLevels span :
  firstSiblingLevels (fst (arrangeSpan span)) = firstSiblingLevels span.
Proof.
  induction span as [span IH] using VisSpan_forall_ind.
  rewrite arrangeSpan_eq. destruct (children span) as [|c cs] eqn:Hcs; [reflexivity|].
  cbn [fst]. apply arrangeSpans_firstLevels_from in IH.
  rewrite (firstSiblingLevels_eq span), Hcs. exact IH.
Qed.

Lemma arrangeSpans_firstLevels spans :
  firstLevels (fst (arrangeSpans spans)) = firstLevels spans.
Proof.
  apply arrangeSpans_firstLevels_from, Forall_forall.
  intros s _. apply arrangeSpan_firstSiblingLevels.
Qed.

(** C10 (as amended).  Layout frame condition: a pass of [arrangeSpans] (and
    of [arrangeSpan]) writes [height_level] only.  With the levels forgotten
    the spans are the ones given: identifier, name, times, parent
    identifier, events, resource, attributes, and the contents and order of
    every [children] list.  Span by span, in the same traversal, no level is
    lower after the pass than before; [arrangeSpan] leaves the level of its
    own span alone; and the first sibling of every sibling group keeps the
    level it had before the pass.  That level is 0 on a pass over spans
    whose levels are all 0, as the forest builder makes them; it need not be
    0 on a later pass, the levels being kept from pass to pass. *)
Theorem layout_frame :
  (forall spans,
      map eraseLevels (fst (arrangeSpans spans)) = map eraseLevels spans /\
      Forall2 N.le (flat_map levels spans) (flat_map levels (fst (arrangeSpans spans))) /\
      firstLevels (fst (arrangeSpans spans)) = firstLevels spans /\
      (Forall (fun l => l = 0%N) (flat_map levels spans) ->
       Forall (fun l => l = 0%N) (firstLevels (fst (arrangeSpans spans))))) /\
  (forall span,
      eraseLevels (fst (arrangeSpan span)) = eraseLevels span /\
      Forall2 N.le (levels span) (levels (fst (arrangeSpan span))) /\
      height_level (fst (arrangeSpan span)) = height_level span /\
      firstSiblingLevels (fst (arrangeSpan span)) = firstSiblingLevels span).
Proof.
  split.
  - intros spans.
    split; [apply arrangeSpans_erase|].
    split; [apply arrangeSpans_levels|].
    split; [apply arrangeSpans_firstLevels|].
    rewrite arrangeSpans_firstLevels. intros Hzero.
    assert (Hsub : forall s, Forall (fun l => l = 0%N) (levels s) ->
                             Forall (fun l => l = 0%N) (firstSiblingLevels s)).
    { induction s as [s IH] using VisSpan_forall_ind. intros Hs.
      rewrite levels_eq in Hs. inversion Hs as [|? ? _ Hcs]; subst.
      rewrite firstSiblingLevels_eq. apply Forall_app. split.
      - destruct (children s) as [|c cs]; [constructor|].
        simpl in Hcs. apply Forall_app in Hcs. destruct Hcs as [Hc _].
        rewrite levels_eq in Hc. inversion Hc; subst. repeat constructor. assumption.
      - clear Hs. induction IH as [|c cs Hc _ IHcs]; simpl; [constructor|].
        simpl in Hcs. apply Forall_app in Hcs. destruct Hcs as [H1 H2].
        apply Forall_app. split; [apply Hc, H1 | apply IHcs, H2]. }
    unfold firstLevels. apply Forall_app. split.
    + destruct spans as [|s rest]; [constructor|].
      simpl in Hzero. apply Forall_app in Hzero. destruct Hzero as [Hs _].
      rewrite levels_eq in Hs. inversion Hs; subst. repeat constructor. assumption.
    + induction spans as [|s rest IH]; simpl; [constructor|].
      simpl in Hzero. apply Forall_app in Hzero. destruct Hzero as [H1 H2].
      apply Forall_app. split; [apply Hsub, H1 | apply IH, H2].
  - intros span.
    split; [apply arrangeSpan_erase|].
    split; [apply arrangeSpan_levels|].
    split; [apply arrangeSpan_level | apply arrangeSpan_firstSiblingLevels].
Qed.

(** Two overlapping leaves, then the second alone in the displayed range: the
    first pass moves it to level 2, and the second pass, in which it is the
    first (and only) sibling, leaves it there. *)
Lemma first_sibling_keeps_bumped_level :
  let a := mkVisSpan "a" "a" 0 10 "" [] [] (mkResource []) [] 0 in
  let b := mkVisSpan "b" "b" 5 15 "" [] [] (mkResource []) [] 0 in
  exists b',
    fst (arrangeSpans [a; b]) = [a; b'] /\
    b' = setLevel b 2 /\
    fst (arrangeSpans [b']) = [b'] /\
    firstLevels (fst (arrangeSpans [b'])) = [2%N].
Proof.
  intros a b. eexists. split; [reflexivity|].
  split; [reflexivity|]. split; reflexivity.
Qed.


(** ** The bounding box *)

Definition isMinOf (m : Z) (l : list Z) : Prop := In m l /\ Forall (fun x => m <= x) l.
Definition isMaxOf (m : Z) (l : list Z) : Prop := In m l /\ Forall (fun x => x <= m) l.
Definition isMaxOfN (m : N) (l : list N) : Prop := In m l /\ Forall (fun x => (x <= m)%N) l.

(** the row below a placed sibling's box *)
Definition top (e : VisSpan * SpanBoundingBox) : N := (height_level (fst e) + height (snd e))%N.

Lemma growBox_fold placed :
  forall b, let r := fold_left growBox placed b in
  ((start_time r = start_time b \/ In (start_time r) (map (fun e => start_time (snd e)) placed)) /\
   start_time r <= start_time b /\
   Forall (fun e => start_time r <= start_time (snd e)) placed) /\
  ((end_time r = end_time b \/ In (end_time r) (map (fun e => end_time (snd e)) placed)) /\
   end_time b <= end_time r /\
   Forall (fun e => end_time (snd e) <= end_time r) placed) /\
  ((height r = height b \/ In (height r) (map top placed)) /\
   (height b <= height r)%N /\
   Forall (fun e => (top e <= height r)%N) placed).
Proof.
  induction placed as [|e rest IH]; intros b; simpl.
  - repeat split; try (left; reflexivity); try lia; constructor.
  - specialize (IH (growBox b e)). simpl in IH.
    destruct IH as ((Hs1 & Hs2 & Hs3) & (He1 & He2 & He3) & (Hh1 & Hh2 & Hh3)).
    unfold top in *. repeat split.
    + destruct Hs1 as [Hs1|Hs1]; [|right; right; exact Hs1].
      rewrite Hs1. destruct (Z.min_spec (start_time b) (start_time (snd e))) as [[_ ->]|[_ ->]];
        [left; reflexivity | right; left; reflexivity].
    + lia.
    + constructor; [lia | exact Hs3].
    + destruct He1 as [He1|He1]; [|right; right; exact He1].
      rewrite He1. destruct (Z.max_spec (end_time b) (end_time (snd e))) as [[_ ->]|[_ ->]];
        [right; left; reflexivity | left; reflexivity].
    + lia.
    + constructor; [lia | exact He3].
    + destruct Hh1 as [Hh1|Hh1]; [|right; right; exact Hh1].
      rewrite Hh1.
      destruct (N.max_spec (height b) (height_level (fst e) + height (snd e)))
        as [[_ ->]|[_ ->]]; [right; left; reflexivity | left; reflexivity].
    + lia.
    + constructor; [lia | exact Hh3].
Qed.

Lemma relevel_boxes boxed tail :
  Forall2 relevel boxed tail -> map snd tail = map snd boxed.
Proof.
  induction 1 as [|e e' l l' (Hb & _) _ IH]; simpl; [reflexivity|].
  rewrite Hb, IH. reflexivity.
Qed.

(** The box of a sibling group is the union of the siblings' boxes. *)
Lemma arrangeSpans_box span rest :
  let r := arrangeSpans (span :: rest) in
  let boxes := map (fun s => snd (arrangeSpan s)) (span :: rest) in
  isMinOf (start_time (snd r)) (map start_time boxes) /\
  isMaxOf (end_time (snd r)) (map end_time boxes) /\
  isMaxOfN (height (snd r))
           (map (fun p => height_level (fst p) + height (snd (arrangeSpan (snd p))))%N
                (combine (fst r) (span :: rest))).
Proof.
  destruct (arrangeSpans_cons span rest) as (tail & Heq & Hrel).
  cbv zeta. rewrite Heq. cbn [fst snd].
  set (placed := (fst (arrangeSpan span), snd (arrangeSpan span)) :: tail).
  assert (Hboxes : map snd placed = map (fun s => snd (arrangeSpan s)) (span :: rest)).
  { unfold placed. cbn [map snd]. f_equal.
    rewrite (relevel_boxes _ _ Hrel), map_map. reflexivity. }
  assert (Htops : map top placed =
                  map (fun p => height_level (fst p) + height (snd (arrangeSpan (snd p))))%N
                      (combine (fst (arrangeSpan span) :: map fst tail) (span :: rest))).
  { unfold placed. cbn [map combine fst snd]. unfold top at 1. cbn [fst snd]. f_equal.
    clear -Hrel. remember (map arrangeSpan rest) as boxed eqn:Hb.
    revert rest Hb. induction Hrel as [|e e' l l' (Hs & _) _ IH]; intros rest Hb.
    - reflexivity.
    - destruct rest as [|c cs]; [discriminate|]. simpl in Hb. injection Hb as -> ->.
      cbn [map combine fst snd]. unfold top at 1. rewrite Hs. f_equal. apply IH. reflexivity. }
  destruct (growBox_fold placed (snd (arrangeSpan span)))
    as ((Hs1 & Hs2 & Hs3) & (He1 & He2 & He3) & (Hh1 & Hh2 & Hh3)).
  rewrite <- Hboxes, <- Htops, !map_map. repeat split.
  - destruct Hs1 as [->|Hs1]; [left; reflexivity | exact Hs1].
  - apply List.Forall_forall. intros x Hx. apply in_map_iff in Hx.
    destruct Hx as (e & <- & He). rewrite List.Forall_forall in Hs3. apply Hs3, He.
  - destruct He1 as [->|He1]; [left; reflexivity | exact He1].
  - apply List.Forall_forall. intros x Hx. apply in_map_iff in Hx.
    destruct Hx as (e & <- & He). rewrite List.Forall_forall in He3. apply He3, He.
  - destruct Hh1 as [Hh1|Hh1]; [|exact Hh1].
    left. inversion Hh3 as [|? ? Htop _]; subst. unfold top in *. cbn [fst snd] in *. lia.
  - apply List.Forall_forall. intros x Hx. apply in_map_iff in Hx.
    destruct Hx as (e & <- & He). rewrite List.Forall_forall in Hh3. apply Hh3, He.
Qed.

Lemma map_flat_map {A B C} (f : B -> C) (g : A -> list B) (l : list A) :
  map f (flat_map g l) = flat_map (fun a => map f (g a)) l.
Proof. induction l as [|a l IH]; simpl; [reflexivity|]. rewrite map_app, IH. reflexivity. Qed.

Lemma isMinOf_flat {A} (f : A -> Z) (g : A -> list Z) m (l : list A) :
  isMinOf m (map f l) -> Forall (fun a => isMinOf (f a) (g a)) l -> isMinOf m (flat_map g l).
Proof.
  intros [Hin Hle] Hall. rewrite List.Forall_forall in Hall, Hle. split.
  - apply in_map_iff in Hin. destruct Hin as (a & <- & Ha).
    apply in_flat_map. exists a. split; [exact Ha | apply (Hall a Ha)].
  - apply List.Forall_forall. intros x Hx. apply in_flat_map in Hx.
    destruct Hx as (a & Ha & Hx). destruct (Hall a Ha) as [_ Hmin].
    rewrite List.Forall_forall in Hmin. specialize (Hmin x Hx).
    specialize (Hle (f a) (in_map f l a Ha)). lia.
Qed.

Lemma isMaxOf_flat {A} (f : A -> Z) (g : A -> list Z) m (l : list A) :
  isMaxOf m (map f l) -> Forall (fun a => isMaxOf (f a) (g a)) l -> isMaxOf m (flat_map g l).
Proof.
  intros [Hin Hle] Hall. rewrite List.Forall_forall in Hall, Hle. split.
  - apply in_map_iff in Hin. destruct Hin as (a & <- & Ha).
    apply in_flat_map. exists a. split; [exact Ha | apply (Hall a Ha)].
  - apply List.Forall_forall. intros x Hx. apply in_flat_map in Hx.
    destruct Hx as (a & Ha & Hx). destruct (Hall a Ha) as [_ Hmax].
    rewrite List.Forall_forall in Hmax. specialize (Hmax x Hx).
    specialize (Hle (f a) (in_map f l a Ha)). lia.
Qed.

Definition tightTimes (box : SpanBoundingBox) (contents : list VisSpan) : Prop :=
  isMinOf (start_time box) (map startTime contents) /\
  isMaxOf (end_time box) (map endTime contents).

Lemma arrangeSpans_times_from span rest :
  Forall (fun s => tightTimes (snd (arrangeSpan s)) (subtree s)) (span :: rest) ->
  tightTimes (snd (arrangeSpans (span :: rest))) (forest (span :: rest)).
Proof.
  intros Hall. destruct (arrangeSpans_box span rest) as (Hmin & Hmax & _).
  unfold tightTimes, forest. rewrite !map_flat_map. rewrite map_map in Hmin, Hmax. split.
  - apply (isMinOf_flat (fun s => start_time (snd (arrangeSpan s)))); [exact Hmin|].
    eapply List.Forall_impl; [|exact Hall]. intros s [H _]. exact H.
  - apply (isMaxOf_flat (fun s => end_time (snd (arrangeSpan s)))); [exact Hmax|].
    eapply List.Forall_impl; [|exact Hall]. intros s [_ H]. exact H.
Qed.

Lemma subtree_eq span : subtree span = span :: forest (children span).
Proof. destruct span; reflexivity. Qed.

(** The box of a subtree spans exactly the times of the subtree. *)
Lemma arrangeSpan_times span : tightTimes (snd (arrangeSpan span)) (subtree span).
Proof.
  induction span as [span IH] using VisSpan_forall_ind.
  rewrite arrangeSpan_eq, subtree_eq.
  destruct (children span) as [|c cs] eqn:Hcs.
  - unfold tightTimes, isMinOf, isMaxOf. simpl.
    split; (split; [left; reflexivity | constructor; [lia | constructor]]).
  - apply arrangeSpans_times_from in IH. destruct IH as ((Hi1 & Hl1) & (Hi2 & Hl2)).
    unfold tightTimes, isMinOf, isMaxOf. cbv zeta. cbn [snd start_time end_time map].
    repeat split.
    + destruct (Z.min_spec (startTime span) (start_time (snd (arrangeSpans (c :: cs)))))
        as [[_ ->]|[_ ->]]; [left; reflexivity | right; exact Hi1].
    + constructor; [lia|]. eapply List.Forall_impl; [|exact Hl1]. simpl. intros; lia.
    + destruct (Z.max_spec (endTime span) (end_time (snd (arrangeSpans (c :: cs)))))
        as [[_ ->]|[_ ->]]; [right; exact Hi2 | left; reflexivity].
    + constructor; [lia|]. eapply List.Forall_impl; [|exact Hl2]. simpl. intros; lia.
Qed.

(** C5.  Bounding box tightness: for a non-empty span list, the box returned
    by [arrangeSpans] has for [start_time] the least [startTime] and for
    [end_time] the greatest [endTime] over all the spans of the list with all
    their descendants, and for [height] the greatest, over the siblings, of
    the sibling's [height_level] after the pass plus the height of the
    sibling's own subtree box. *)
Theorem bounding_box_tight (spans : list VisSpan) :
  spans <> [] ->
  let r := arrangeSpans spans in
  isMinOf (start_time (snd r)) (map startTime (forest spans)) /\
  isMaxOf (end_time (snd r)) (map endTime (forest spans)) /\
  isMaxOfN (height (snd r))
           (map (fun p => height_level (fst p) + height (snd (arrangeSpan (snd p))))%N
                (combine (fst r) spans)).
Proof.
  destruct spans as [|span rest]; [congruence|]. intros _ r.
  destruct (arrangeSpans_times_from span rest) as (Hmin & Hmax).
  { apply List.Forall_forall. intros s _. apply arrangeSpan_times. }
  destruct (arrangeSpans_box span rest) as (_ & _ & Hh).
  split; [exact Hmin|]. split; [exact Hmax | exact Hh].
Qed.

Lemma bounding_box_tight_witness :
  let spans :=
    [mkVisSpan "A" "A" 0 10 ""
       [mkVisSpan "A1" "A1" (-5) 100 "A" [] [] (mkResource []) [] 0]
       [] (mkResource []) [] 0;
     mkVisSpan "B" "B" 5 60 "" [] [] (mkResource []) [] 0] in
  spans <> [] /\
  isMinOf (-5) (map startTime (forest spans)) /\
  isMaxOf 100 (map endTime (forest spans)) /\
  isMaxOfN 4 [2; 4]%N.
Proof.
  intros spans. split; [discriminate|].
  exact (bounding_box_tight spans ltac:(discriminate)).
Defined.

(** ** Rows of spans that overlap in time *)

(** Two different places of a lane's drawing hold spans of the same depth,
    on the same row, whose time intervals overlap (closed-interval test). *)
Definition sameRowOverlap (rows : list (VisSpan * nat * N)) : Prop :=
  exists i j s1 s2 depth row,
    i <> j /\
    rows !! i = Some (s1, depth, row) /\
    rows !! j = Some (s2, depth, row) /\
    isCollidingInAxis (startTime s1) (endTime s1) (startTime s2) (endTime s2) = true.

(** C1.  The no-overlap invariant (no two spans of a lane that overlap in
    time and have the same depth share a row) does not hold of the layout:
    the sibling test compares the siblings' own time intervals, not the time
    extent of their boxes, so a child that outlasts its parent can meet a
    later subtree.  Here A = [0, 10] has the child A1 = [0, 100] and
    B = [50, 60] has the child B1 = [50, 60]: A and B do not overlap, B
    stays on row 0, and A1 and B1, both of depth 1, are both drawn on
    row 1. *)
Theorem no_overlap_violated :
  let A1 := mkVisSpan "A1" "A1" 0 100 "A" [] [] (mkResource []) [] 0 in
  let B1 := mkVisSpan "B1" "B1" 50 60 "B" [] [] (mkResource []) [] 0 in
  let A := mkVisSpan "A" "A" 0 10 "" [A1] [] (mkResource []) [] 0 in
  let B := mkVisSpan "B" "B" 50 60 "" [B1] [] (mkResource []) [] 0 in
  let rows := drawLane (fst (arrangeSpans [A; B])) in
  map (fun r => (name (fst (fst r)), snd (fst r), snd r)) rows =
    [("A", 0%nat, 0%N); ("A1", 1%nat, 1%N); ("B", 0%nat, 0%N); ("B1", 1%nat, 1%N)] /\
  sameRowOverlap rows.
Proof.
  intros A1 B1 A B rows. split; [reflexivity|].
  exists 1%nat, 3%nat, A1, B1, 1%nat, 1%N.
  split; [discriminate|]. split; [reflexivity|]. split; reflexivity.
Qed.

(** ** Rows of well-nested spans

    When every span starts before it ends and holds the intervals of its
    children within its own, the siblings' own intervals stand for the time
    extent of their subtrees, and the layout keeps spans that overlap in
    time on different rows. *)

(** The number of rows a laid-out subtree takes: the height of its box. *)
Fixpoint extent (span : VisSpan) : N :=
  (1 + fold_right N.max 0 (map (fun c => height_level c + extent c) (children span)))%N.

(** [span] starts before it ends and its children lie within it, and so on
    below. *)
Fixpoint nestedb (span : VisSpan) : bool :=
  (startTime span <=? endTime span)
  && forallb (fun c => (startTime span <=? startTime c) && (endTime c <=? endTime span)
                       && nestedb c)
             (children span).

(** The level boxes of two siblings are apart, also without touching. *)
Definition levelsApart (c1 c2 : VisSpan) : Prop :=
  (height_level c1 + extent c1 < height_level c2)%N \/
  (height_level c2 + extent c2 < height_level c1)%N.

(** Siblings whose own intervals collide have level boxes that are apart. *)
Definition separated (cs : list VisSpan) : Prop :=
  ForallOrdPairs
    (fun c1 c2 =>
       isCollidingInAxis (startTime c1) (endTime c1) (startTime c2) (endTime c2) = true ->
       levelsApart c1 c2)
    cs.

Inductive wellLaid : VisSpan -> Prop :=
| WellLaid span :
    separated (children span) -> Forall wellLaid (children span) -> wellLaid span.

(** Two drawn spans that overlap in time are on different rows. *)
Definition rowsDiffer (a b : VisSpan * nat * N) : Prop :=
  isCollidingInAxis (startTime (fst (fst a))) (endTime (fst (fst a)))
                    (startTime (fst (fst b))) (endTime (fst (fst b))) = true ->
  snd a <> snd b.

Lemma ForallOrdPairs_app {A} (R : A -> A -> Prop) l1 l2 :
  ForallOrdPairs R l1 -> ForallOrdPairs R l2 ->
  (forall a b, In a l1 -> In b l2 -> R a b) ->
  ForallOrdPairs R (l1 ++ l2).
Proof.
  induction 1 as [|a l1 Ha _ IH]; intros H2 Hcross; simpl; [exact H2|].
  constructor.
  - apply Forall_app. split; [exact Ha|].
    apply List.Forall_forall. intros b Hb. apply Hcross; [left; reflexivity | exact Hb].
  - apply IH; [exact H2|]. intros x y Hx Hy. apply Hcross; [right; exact Hx | exact Hy].
Qed.

Lemma ForallOrdPairs_lookup {A} (R : A -> A -> Prop) (l : list A) :
  ForallOrdPairs R l ->
  forall i j a b, (i < j)%nat -> l !! i = Some a -> l !! j = Some b -> R a b.
Proof.
  induction 1 as [|x l Hx _ IH]; intros i j a b Hij Hi Hj; [discriminate|].
  destruct j as [|j]; [lia|]. simpl in Hj. destruct i as [|i]; simpl in Hi.
  - injection Hi as <-. rewrite List.Forall_forall in Hx. apply Hx.
    apply list_elem_of_In, list_elem_of_lookup. eauto.
  - apply (IH i j); [lia | exact Hi | exact Hj].
Qed.

Lemma isCollidingInAxis_sym b1 e1 b2 e2 :
  isCollidingInAxis b1 e1 b2 e2 = isCollidingInAxis b2 e2 b1 e1.
Proof.
  destruct (isCollidingInAxis b1 e1 b2 e2) eqn:H1, (isCollidingInAxis b2 e2 b1 e1) eqn:H2;
    try reflexivity.
  - apply isCollidingInAxis_true in H1.
    assert (H : isCollidingInAxis b2 e2 b1 e1 = true) by (apply isCollidingInAxis_true; tauto).
    congruence.
  - apply isCollidingInAxis_true in H2.
    assert (H : isCollidingInAxis b1 e1 b2 e2 = true) by (apply isCollidingInAxis_true; tauto).
    congruence.
Qed.

(** *** The layout separates the siblings that collide *)

Lemma extent_eq span :
  extent span =
  (1 + fold_right N.max 0 (map (fun c => height_level c + extent c) (children span)))%N.
Proof. destruct span; reflexivity. Qed.

Lemma extent_setLevel span l : extent (setLevel span l) = extent span.
Proof. rewrite !extent_eq. destruct span; reflexivity. Qed.

Lemma wellLaid_setLevel span l : wellLaid span -> wellLaid (setLevel span l).
Proof. intros H. inversion H; subst. constructor; destruct span; assumption. Qed.

(** Boxes that say how many rows their span takes. *)
Definition exact (e : VisSpan * SpanBoundingBox) : Prop := height (snd e) = extent (fst e).

(** No placed sibling collides with an earlier one. *)
Definition collisionFree (placed : list (VisSpan * SpanBoundingBox)) : Prop :=
  ForallOrdPairs (fun e1 e2 => isColliding (fst e2) (snd e2) (fst e1) (snd e1) = false) placed.

Lemma placeSiblings_collisionFree todo : forall placed,
  collisionFree placed -> collisionFree (placeSiblings placed todo).
Proof.
  induction todo as [|[cur box] rest IH]; intros placed Hfree; simpl; [exact Hfree|].
  apply IH. apply ForallOrdPairs_app; [exact Hfree | repeat constructor |].
  intros e1 e2 He1 [<-|[]]. cbn [fst snd].
  destruct (bump_spec placed cur box _ (height_level cur) eq_refl) as (_ & Hno & _).
  unfold collidesWithEarlier in Hno.
  destruct (isColliding _ box (fst e1) (snd e1)) eqn:Hc; [|reflexivity].
  assert (Hex : existsb (fun e => isColliding
                   (setLevel cur (bump placed cur box (height_level cur))) box (fst e) (snd e))
                   placed = true).
  { apply existsb_exists. exists e1. split; [exact He1 | exact Hc]. }
  congruence.
Qed.

Lemma placeSiblings_exact todo : forall placed,
  Forall exact placed -> Forall exact todo -> Forall exact (placeSiblings placed todo).
Proof.
  induction todo as [|[cur box] rest IH]; intros placed Hp Ht; simpl; [exact Hp|].
  inversion Ht as [|? ? Hcur Hrest]; subst. apply IH; [|exact Hrest].
  apply Forall_app. split; [exact Hp|]. repeat constructor.
  unfold exact in *. cbn [fst snd] in *. rewrite extent_setLevel. exact Hcur.
Qed.

Lemma collisionFree_separated placed :
  collisionFree placed -> Forall exact placed -> separated (map fst placed).
Proof.
  unfold collisionFree, separated.
  induction 1 as [|e1 placed Hhead _ IH]; intros Hex; simpl; [constructor|].
  inversion Hex as [|? ? He1 Hrest]; subst. constructor; [|apply IH, Hrest].
  apply List.Forall_forall. intros c2 Hc2. apply in_map_iff in Hc2.
  destruct Hc2 as (e2 & <- & He2). intros Htime.
  rewrite List.Forall_forall in Hhead, Hrest.
  specialize (Hhead e2 He2). specialize (Hrest e2 He2). unfold exact in *.
  destruct (isColliding (fst e2) (snd e2) (fst e1) (snd e1)) eqn:Hc; [discriminate|].
  unfold isColliding in Hc. rewrite isCollidingInAxis_sym, Htime in Hc. simpl in Hc.
  rewrite He1, Hrest in Hc. unfold levelsApart.
  destruct (N.lt_ge_cases (height_level (fst e1) + extent (fst e1)) (height_level (fst e2)))
    as [Hlt|Hge]; [left; exact Hlt|].
  destruct (N.lt_ge_cases (height_level (fst e2) + extent (fst e2)) (height_level (fst e1)))
    as [Hlt'|Hge']; [right; exact Hlt'|].
  exfalso. apply not_true_iff_false in Hc. apply Hc.
  apply isCollidingInAxis_true. lia.
Qed.

Lemma growBox_height placed : forall b,
  height (fold_left growBox placed b) =
  N.max (height b) (fold_right N.max 0%N (map top placed)).
Proof.
  induction placed as [|e rest IH]; intros b; simpl; [lia|].
  rewrite IH. unfold top. simpl. lia.
Qed.

Lemma arrangeSiblings_laid boxed :
  Forall exact boxed -> Forall (fun e => wellLaid (fst e)) boxed ->
  let r := arrangeSiblings boxed in
  separated (fst r) /\ Forall wellLaid (fst r) /\
  (boxed <> [] ->
   height (snd r) = fold_right N.max 0%N (map (fun c => height_level c + extent c)%N (fst r))).
Proof.
  intros Hex Hlaid. destruct boxed as [|[s b] rest].
  - simpl. split; [constructor|]. split; [constructor | congruence].
  - cbv zeta. unfold arrangeSiblings. cbn [fst snd].
    set (placed := placeSiblings [] ((s, b) :: rest)).
    assert (Hfree : collisionFree placed) by (apply placeSiblings_collisionFree; constructor).
    assert (Hexp : Forall exact placed) by (apply placeSiblings_exact; [constructor | exact Hex]).
    destruct (placeSiblings_relevel ((s, b) :: rest) []) as (tail & Heq & Hrel).
    fold placed in Heq. simpl in Heq.
    destruct (placeSiblings_first s b rest) as (tail' & Heq' & _). fold placed in Heq'.
    split; [apply collisionFree_separated; assumption|]. split.
    + rewrite Heq. clear -Hrel Hlaid.
      induction Hrel as [|e e' l l' (_ & lv & Hs & _) _ IH]; simpl; [constructor|].
      inversion Hlaid as [|? ? He Hl]; subst.
      constructor; [rewrite Hs; apply wellLaid_setLevel, He | apply IH, Hl].
    + intros _. rewrite growBox_height.
      assert (Htops : map top placed = map (fun c => height_level c + extent c)%N (map fst placed)).
      { rewrite map_map. clear -Hexp.
        induction Hexp as [|e l He _ IH]; simpl; [reflexivity|].
        unfold top at 1. rewrite He, IH. reflexivity. }
      rewrite <- Htops, Heq'. cbn [map fold_right]. unfold top at 1 3. cbn [fst snd]. lia.
Qed.

Lemma arrangeSpan_laid span :
  exact (arrangeSpan span) /\ wellLaid (fst (arrangeSpan span)).
Proof.
  induction span as [span IH] using VisSpan_forall_ind.
  rewrite arrangeSpan_eq. destruct (children span) as [|c cs] eqn:Hcs.
  - split.
    + unfold exact. cbn [fst snd height]. rewrite extent_eq, Hcs. reflexivity.
    + cbn [fst]. constructor; rewrite Hcs; constructor.
  - destruct (arrangeSiblings_laid (map arrangeSpan (c :: cs))) as (Hsep & Hlaid & Hh).
    { apply Forall_map. eapply List.Forall_impl; [|exact IH]. intros s [H _]. exact H. }
    { apply Forall_map. eapply List.Forall_impl; [|exact IH]. intros s [_ H]. exact H. }
    fold (arrangeSpans (c :: cs)) in Hsep, Hlaid, Hh. cbv zeta. split.
    + unfold exact. cbn [fst snd height]. rewrite extent_eq.
      rewrite Hh by discriminate. destruct span; simpl. lia.
    + cbn [fst]. constructor; destruct span; assumption.
Qed.

Lemma arrangeSpans_laid spans :
  separated (fst (arrangeSpans spans)) /\ Forall wellLaid (fst (arrangeSpans spans)).
Proof.
  destruct (arrangeSiblings_laid (map arrangeSpan spans)) as (Hsep & Hlaid & _).
  - apply Forall_map, List.Forall_forall. intros s _. apply arrangeSpan_laid.
  - apply Forall_map, List.Forall_forall. intros s _. apply arrangeSpan_laid.
  - split; assumption.
Qed.

(** *** Nesting is a matter of times and shape *)

Lemma nestedb_eq span :
  nestedb span =
  (startTime span <=? endTime span)
  && forallb (fun c => (startTime span <=? startTime c) && (endTime c <=? endTime span)
                       && nestedb c)
             (children span).
Proof. destruct span; reflexivity. Qed.

Lemma eraseLevels_eq span :
  eraseLevels span =
  mkVisSpan (spanId span) (name span) (startTime span) (endTime span)
            (parentSpanId span) (map eraseLevels (children span)) (events span)
            (resource span) (attributes span) 0.
Proof. destruct span; reflexivity. Qed.

Lemma nestedb_erase span : nestedb (eraseLevels span) = nestedb span.
Proof.
  induction span as [span IH] using VisSpan_forall_ind.
  rewrite (nestedb_eq span), eraseLevels_eq, nestedb_eq. cbn [startTime endTime children].
  f_equal. induction IH as [|c cs Hc _ IHcs]; simpl; [reflexivity|].
  rewrite Hc, IHcs. rewrite (eraseLevels_eq c). reflexivity.
Qed.

Lemma nestedb_arrangeSpans spans :
  forallb nestedb (fst (arrangeSpans spans)) = forallb nestedb spans.
Proof.
  pose proof (arrangeSpans_erase spans) as H.
  assert (Hgen : forall l, forallb nestedb l = forallb nestedb (map eraseLevels l)).
  { induction l as [|a l IHl]; simpl; [reflexivity|]. rewrite nestedb_erase, IHl. reflexivity. }
  rewrite (Hgen (fst (arrangeSpans spans))), H, <- Hgen. reflexivity.
Qed.

(** *** Where a subtree is drawn *)

Lemma nestedb_children span :
  nestedb span = true ->
  startTime span <= endTime span /\
  forall c, In c (children span) ->
            startTime span <= startTime c /\ endTime c <= endTime span /\ nestedb c = true.
Proof.
  rewrite nestedb_eq, andb_true_iff, forallb_forall. intros [H1 H2].
  split; [apply Z.leb_le, H1|]. intros c Hc. specialize (H2 c Hc).
  rewrite !andb_true_iff, !Z.leb_le in H2. tauto.
Qed.

Lemma nested_within span :
  nestedb span = true ->
  forall x, In x (subtree span) ->
            startTime span <= startTime x /\ endTime x <= endTime span /\
            startTime x <= endTime x.
Proof.
  induction span as [span IH] using VisSpan_forall_ind. intros Hn x Hx.
  destruct (nestedb_children span Hn) as [Hse Hcs].
  rewrite subtree_eq in Hx. destruct Hx as [<-|Hx]; [lia|].
  unfold forest in Hx. apply in_flat_map in Hx. destruct Hx as (c & Hc & Hx).
  rewrite List.Forall_forall in IH. destruct (Hcs c Hc) as (H1 & H2 & H3).
  specialize (IH c Hc H3 x Hx). lia.
Qed.

Lemma top_le_extent span c :
  In c (children span) -> (height_level c + extent c < extent span)%N.
Proof.
  rewrite (extent_eq span). generalize (children span) as cs.
  induction cs as [|c' cs IH]; intros Hc; [destruct Hc|].
  simpl. destruct Hc as [->|Hc]; [lia|]. specialize (IH Hc). lia.
Qed.

Lemma drawSpan_eq depth cur span :
  drawSpan depth cur span =
  (span, depth, (cur + height_level span)%N)
    :: flat_map (drawSpan (S depth) (cur + height_level span + 1)%N) (children span).
Proof. destruct span; reflexivity. Qed.

Lemma draw_members span :
  forall depth cur a, In a (drawSpan depth cur span) ->
    In (fst (fst a)) (subtree span) /\
    (cur + height_level span <= snd a < cur + height_level span + extent span)%N.
Proof.
  induction span as [span IH] using VisSpan_forall_ind. intros depth cur a Ha.
  rewrite drawSpan_eq in Ha. rewrite subtree_eq. destruct Ha as [<-|Ha].
  - split; [left; reflexivity|]. cbn [snd]. rewrite (extent_eq span). lia.
  - apply in_flat_map in Ha. destruct Ha as (c & Hc & Ha).
    rewrite List.Forall_forall in IH. destruct (IH c Hc _ _ _ Ha) as [Hin Hrow].
    split.
    + right. unfold forest. apply in_flat_map. exists c. split; assumption.
    + pose proof (top_le_extent span c Hc). lia.
Qed.

Lemma overlap_lift X Y x y :
  startTime X <= startTime x /\ endTime x <= endTime X /\ startTime x <= endTime x ->
  startTime Y <= startTime y /\ endTime y <= endTime Y /\ startTime y <= endTime y ->
  isCollidingInAxis (startTime x) (endTime x) (startTime y) (endTime y) = true ->
  isCollidingInAxis (startTime X) (endTime X) (startTime Y) (endTime Y) = true.
Proof.
  intros Hx Hy H. apply isCollidingInAxis_true in H. apply isCollidingInAxis_true. lia.
Qed.

(** What is to be shown of a subtree. *)
Definition drawsApart (span : VisSpan) : Prop :=
  wellLaid span -> nestedb span = true ->
  forall depth cur, ForallOrdPairs rowsDiffer (drawSpan depth cur span).

Lemma siblings_drawn_apart cs :
  Forall drawsApart cs -> separated cs -> Forall wellLaid cs -> forallb nestedb cs = true ->
  forall depth cur, ForallOrdPairs rowsDiffer (flat_map (drawSpan depth cur) cs).
Proof.
  induction 1 as [|c rest Hc _ IH]; intros Hsep Hlaid Hn depth cur; simpl; [constructor|].
  inversion Hsep as [|? ? Hhead Htail]; subst.
  inversion Hlaid as [|? ? Hlc Hlrest]; subst.
  apply andb_true_iff in Hn. destruct Hn as [Hnc Hnrest].
  apply ForallOrdPairs_app.
  - apply Hc; assumption.
  - apply IH; assumption.
  - intros a b Ha Hb Hov. apply in_flat_map in Hb. destruct Hb as (c' & Hc' & Hb).
    destruct (draw_members c _ _ _ Ha) as [Hina Hrowa].
    destruct (draw_members c' _ _ _ Hb) as [Hinb Hrowb].
    pose proof (proj1 (forallb_forall nestedb rest) Hnrest c' Hc') as Hnc'.
    rewrite List.Forall_forall in Hhead.
    pose proof (overlap_lift c c' _ _ (nested_within c Hnc _ Hina)
                  (nested_within c' Hnc' _ Hinb) Hov) as Hcc.
    destruct (Hhead c' Hc' Hcc) as [Hap|Hap]; lia.
Qed.

Lemma subtree_drawn_apart span : drawsApart span.
Proof.
  induction span as [span IH] using VisSpan_forall_ind.
  intros Hlaid Hn depth cur. rewrite drawSpan_eq.
  inversion Hlaid as [? Hsep Hcs]; subst. constructor.
  - apply List.Forall_forall. intros b Hb _. apply in_flat_map in Hb.
    destruct Hb as (c & Hc & Hb). destruct (draw_members c _ _ _ Hb) as [_ Hrow].
    cbn [snd]. lia.
  - apply siblings_drawn_apart; try assumption.
    apply forallb_forall. intros c Hc. apply (proj2 (nestedb_children span Hn) c Hc).
Qed.

(** On well-nested spans the layout keeps any two spans of a lane that
    overlap in time on different rows, whatever their depths. *)
Theorem no_overlap_when_nested (spans : list VisSpan) :
  forallb nestedb spans = true ->
  ForallOrdPairs rowsDiffer (drawLane (fst (arrangeSpans spans))) /\
  ~ sameRowOverlap (drawLane (fst (arrangeSpans spans))).
Proof.
  intros Hn. destruct (arrangeSpans_laid spans) as [Hsep Hlaid].
  assert (Hdraw : ForallOrdPairs rowsDiffer (drawLane (fst (arrangeSpans spans)))).
  { unfold drawLane. apply siblings_drawn_apart; try assumption.
    - apply List.Forall_forall. intros s _. apply subtree_drawn_apart.
    - rewrite nestedb_arrangeSpans. exact Hn. }
  split; [exact Hdraw|].
  intros (i & j & s1 & s2 & depth & row & Hij & Hi & Hj & Hov).
  destruct (Nat.lt_total i j) as [Hlt|[Heq|Hgt]]; [|contradiction|].
  - apply (ForallOrdPairs_lookup _ _ Hdraw i j _ _ Hlt Hi Hj); [exact Hov | reflexivity].
  - apply (ForallOrdPairs_lookup _ _ Hdraw j i _ _ Hgt Hj Hi); [|reflexivity].
    cbn [fst]. rewrite isCollidingInAxis_sym. exact Hov.
Qed.

Example no_overlap_when_nested_example :
  let A1 := mkVisSpan "A1" "A1" 0 10 "A" [] [] (mkResource []) [] 0 in
  let B1 := mkVisSpan "B1" "B1" 5 60 "B" [] [] (mkResource []) [] 0 in
  let A := mkVisSpan "A" "A" 0 10 "" [A1] [] (mkResource []) [] 0 in
  let B := mkVisSpan "B" "B" 5 60 "" [B1] [] (mkResource []) [] 0 in
  forallb nestedb [A; B] = true /\
  map (fun r => (name (fst (fst r)), snd r)) (drawLane (fst (arrangeSpans [A; B]))) =
    [("A", 0%N); ("A1", 1%N); ("B", 3%N); ("B1", 4%N)] /\
  ~ sameRowOverlap (drawLane (fst (arrangeSpans [A; B]))).
Proof.
  intros A1 B1 A B. split; [reflexivity|]. split; [reflexivity|].
  apply no_overlap_when_nested. reflexivity.
Qed.

(** * Properties of the timeline *)

Module TimelineProps.
Import Timeline.
Local Open Scope Q_scope.

Lemma div_nonzero a b : ~ b == 0 -> div a b = Some (a / b).
Proof.
  intros Hb. unfold div. destruct (Qeq_bool b 0) eqn:E; [|reflexivity].
  apply Qeq_bool_iff in E. contradiction.
Qed.

Lemma div_zero a b : b == 0 -> div a b = None.
Proof.
  intros Hb. unfold div. apply Qeq_bool_iff in Hb. rewrite Hb. reflexivity.
Qed.

(** C6.  Screen-map round trip: for a window with endTime != startTime and a
    width != 0, [timeToScreen] and [screenToTime] are defined and, over the
    rationals, inverse to each other: [screenToTime (timeToScreen t)] is [t]
    for every time [t], inside the window or not, and
    [timeToScreen (screenToTime x)] is [x] for every screen position [x]. *)
Theorem screen_map_round_trip (timeline : TimelineState) (windowWidth : Q) :
  ~ endTime timeline == startTime timeline ->
  ~ windowWidth == 0 ->
  (forall t, exists x, timeToScreen t timeline windowWidth = Some x /\
             exists t', screenToTime x timeline windowWidth = Some t' /\ t' == t) /\
  (forall x, exists t, screenToTime x timeline windowWidth = Some t /\
             exists x', timeToScreen t timeline windowWidth = Some x' /\ x' == x).
Proof.
  intros Hlen Hw.
  assert (Hlen' : ~ endTime timeline - startTime timeline == 0).
  { intros H. apply Hlen. rewrite <- (Qplus_0_l (startTime timeline)), <- H. ring. }
  split.
  - intros t. unfold timeToScreen, screenToTime, bind.
    rewrite (div_nonzero _ _ Hlen'). eexists. split; [reflexivity|].
    rewrite (div_nonzero _ _ Hw). eexists. split; [reflexivity|].
    field. split; assumption.
  - intros x. unfold timeToScreen, screenToTime, bind.
    rewrite (div_nonzero _ _ Hw). eexists. split; [reflexivity|].
    rewrite (div_nonzero _ _ Hlen'). eexists. split; [reflexivity|].
    field. split; assumption.
Qed.

Lemma screen_map_round_trip_witness :
  (~ endTime newTimelineState == startTime newTimelineState) /\
  (~ 1000 == 0) /\
  (exists x, timeToScreen 1500000000 newTimelineState 1000 = Some x /\
   exists t', screenToTime x newTimelineState 1000 = Some t' /\ t' == 1500000000).
Proof.
  assert (H1 : ~ endTime newTimelineState == startTime newTimelineState) by discriminate.
  assert (H2 : ~ 1000 == 0) by discriminate.
  split; [exact H1|]. split; [exact H2|].
  exact (proj1 (screen_map_round_trip newTimelineState 1000 H1 H2) 1500000000).
Defined.

(** C7 (as amended).  Zoom clamp: for a prior state whose window is not empty
    (endTime != startTime) and a width != 0, whatever the wheel's deltaY and
    the cursor position, the wheel handler sets a state whose window is
    within the data extrema: minStartTime <= startTime, endTime <=
    maxEndTime, so every time of the window lies between the extrema; the
    extrema and the selection are the prior ones. *)
Theorem zoom_clamp (s : TimelineState) (clientX deltaY width : Q) :
  ~ endTime s == startTime s ->
  ~ width == 0 ->
  exists s', timelineScrollHandler s clientX deltaY width = Some s' /\
             windowWithinExtrema s' /\
             (forall t, startTime s' <= t <= endTime s' ->
                        minStartTime s' <= t <= maxEndTime s') /\
             minStartTime s' = minStartTime s /\ maxEndTime s' = maxEndTime s /\
             selectedStart s' = selectedStart s /\ selectedEnd s' = selectedEnd s.
Proof.
  intros Hlen Hw.
  assert (Hlen' : ~ endTime s - startTime s == 0).
  { intros H. apply Hlen. rewrite <- (Qplus_0_l (startTime s)), <- H. ring. }
  unfold timelineScrollHandler, screenToTime, bind.
  rewrite (div_nonzero _ _ Hw), (div_nonzero _ _ Hlen').
  eexists. split; [reflexivity|].
  assert (Hwin : forall a b, minStartTime s <= Qmax (minStartTime s) a /\
                             Qmin (maxEndTime s) b <= maxEndTime s).
  { intros a b. split; [apply Q.le_max_l | apply Q.le_min_l]. }
  unfold windowWithinExtrema. cbn [startTime endTime minStartTime maxEndTime
                                   selectedStart selectedEnd].
  split; [apply Hwin|]. split; [|repeat split].
  intros t [Ht1 Ht2]. split.
  - eapply Qle_trans; [apply Q.le_max_l | exact Ht1].
  - eapply Qle_trans; [exact Ht2 | apply Q.le_min_l].
Qed.

Lemma zoom_clamp_witness :
  (~ endTime newTimelineState == startTime newTimelineState) /\
  (~ 1000 == 0) /\
  exists s', timelineScrollHandler newTimelineState 250 100 1000 = Some s' /\
             windowWithinExtrema s'.
Proof.
  assert (H1 : ~ endTime newTimelineState == startTime newTimelineState) by discriminate.
  assert (H2 : ~ 1000 == 0) by discriminate.
  split; [exact H1|]. split; [exact H2|].
  destruct (zoom_clamp newTimelineState 250 100 1000 H1 H2) as (s' & Hs & Hwin & _).
  exists s'. split; [exact Hs | exact Hwin].
Defined.

(** A window that a zoom has shrunk to a point (startTime = endTime): the
    handler divides by the window length, 0 / 0, and the state it sets holds
    NaN for both ends, which lies within no extrema. *)
Lemma zoom_on_point_window_not_clamped :
  let s := {| startTime := 2000000000; endTime := 2000000000;
              selectedStart := 1500000000; selectedEnd := 2500000000;
              minStartTime := 0; maxEndTime := 4000000000;
              action := ActionNone; deltaX := 0; notDraggedEdgeTime := 0 |} in
  ~ exists s', timelineScrollHandler s 500 100 1000 = Some s' /\ windowWithinExtrema s'.
Proof. intros s [s' [H _]]. discriminate H. Qed.

(** Only the start is clamped from below and only the end from above: a
    wheel step with deltaY < -1000 makes the new length negative, and the end
    of the window falls below its start and below minStartTime. *)
Lemma zoom_past_zero_length_inverts_window :
  exists s', timelineScrollHandler newTimelineState 0 (-3000) 1000 = Some s' /\
             windowWithinExtrema s' /\
             endTime s' < startTime s' /\ endTime s' < minStartTime s'.
Proof.
  eexists. split; [reflexivity|]. unfold windowWithinExtrema.
  vm_compute. repeat split; discriminate.
Qed.

End TimelineProps.

(** * Properties of the span forest builder *)

(** [{ ...span, children: cs }] *)
Definition setChildren (span : Heap.SpanObject) (cs : list nat) : Heap.SpanObject :=
  Heap.mkSpanObject (Heap.spanId span) (Heap.name span) (Heap.startTime span)
                    (Heap.endTime span) (Heap.parentSpanId span) cs (Heap.events span)
                    (Heap.resource span) (Heap.attributes span) (Heap.height_level span).

(** The fields of a span of the forest other than [children], as an object
    without children. *)
Definition shallow (span : VisSpan) : Heap.SpanObject :=
  Heap.mkSpanObject (spanId span) (name span) (startTime span) (endTime span)
                    (parentSpanId span) [] (events span) (resource span)
                    (attributes span) (height_level span).

Lemma flat_map_lookup_seq {A B} (g : A -> B) (l : list A) :
  flat_map (fun i => match l !! i with Some x => [g x] | None => [] end)
           (seq 0 (length l)) = map g l.
Proof.
  induction l as [|a l IH]; [reflexivity|].
  cbn [length]. rewrite <- cons_seq, <- seq_shift. cbn [flat_map lookup list_lookup map app].
  f_equal. rewrite <- IH, !flat_map_concat_map, map_map. reflexivity.
Qed.

(** ** Counting the spans of an object graph, level by level *)

Section Levels.
Variable spans : list Heap.SpanObject.
Variable par : nat -> option nat.

(** The [children] array of the object at index [i]. *)
Definition childrenAt (i : nat) : list nat :=
  match spans !! i with
  | Some span => Heap.children span
  | None => []
  end.

Definition spanIdAt (i : nat) : string :=
  match spans !! i with
  | Some span => Heap.spanId span
  | None => ""
  end.

(** The object at index [i], its children left aside. *)
Definition shallowAt (i : nat) : list Heap.SpanObject :=
  match spans !! i with
  | Some span => [setChildren span []]
  | None => []
  end.

(** The references [k] steps of [children] below the references [l]. *)
Fixpoint level (k : nat) (l : list nat) : list nat :=
  match k with
  | O => l
  | S k' => level k' (flat_map childrenAt l)
  end.

(** The references fewer than [f] steps below [l], level after level. *)
Fixpoint below (f : nat) (l : list nat) : list nat :=
  match f with
  | O => []
  | S f' => l ++ below f' (flat_map childrenAt l)
  end.

(** [k] steps of [par] from [j] end on a top-level span. *)
Fixpoint rootAt (k : nat) (j : nat) : bool :=
  match k with
  | O => Heap.isTopLevel spans j
  | S k' => match par j with
            | Some p => rootAt k' p
            | None => false
            end
  end.

Fixpoint reach (fuel : nat) (j : nat) : bool :=
  match fuel with
  | O => false
  | S fuel' => match par j with
               | Some p => reach fuel' p
               | None => Heap.isTopLevel spans j
               end
  end.

Fixpoint sumTo (f : nat) (g : nat -> nat) : nat :=
  match f with
  | O => 0
  | S f' => g 0 + sumTo f' (fun k => g (S k))
  end%nat.

Hypothesis children_of_parent : forall i j,
  count_occ Nat.eq_dec (childrenAt i) j =
  match par j with
  | Some p => if Nat.eqb p i then 1 else 0
  | None => 0
  end%nat.
Hypothesis top_level_no_parent : forall j, Heap.isTopLevel spans j = true -> par j = None.
Hypothesis all_reach : forall j, (j < length spans)%nat -> reach (length spans) j = true.

Lemma isTopLevel_lt j : Heap.isTopLevel spans j = true -> (j < length spans)%nat.
Proof.
  unfold Heap.isTopLevel. destruct (spans !! j) eqn:E; [|discriminate].
  intros _. eapply lookup_lt_Some, E.
Qed.

Lemma level_app k : forall a b, level k (a ++ b) = level k a ++ level k b.
Proof.
  induction k as [|k IH]; intros a b; simpl; [reflexivity|].
  rewrite flat_map_app. apply IH.
Qed.

Lemma level_S k : forall l, level (S k) l = flat_map childrenAt (level k l).
Proof. induction k as [|k IH]; intros l; [reflexivity|]. simpl in *. apply IH. Qed.

Lemma below_app f : forall a b, Permutation (below f (a ++ b)) (below f a ++ below f b).
Proof.
  induction f as [|f IH]; intros a b; simpl; [constructor|].
  rewrite flat_map_app, IH, <- !app_assoc. apply Permutation_app_head.
  rewrite !app_assoc. apply Permutation_app_tail, Permutation_app_comm.
Qed.

Lemma count_occ_children_of l j :
  count_occ Nat.eq_dec (flat_map childrenAt l) j =
  match par j with
  | Some p => count_occ Nat.eq_dec l p
  | None => 0%nat
  end.
Proof.
  induction l as [|a l IH]; simpl.
  - destruct (par j); reflexivity.
  - rewrite count_occ_app, IH, children_of_parent.
    destruct (par j) as [p|]; [|reflexivity].
    destruct (Nat.eq_dec a p) as [->|Hne].
    + rewrite Nat.eqb_refl. reflexivity.
    + destruct (Nat.eqb_spec p a); [congruence | reflexivity].
Qed.

Lemma count_occ_filter_seq (f : nat -> bool) n j :
  count_occ Nat.eq_dec (List.filter f (seq 0 n)) j =
  if (j <? n)%nat && f j then 1%nat else 0%nat.
Proof.
  induction n as [|n IH]; [reflexivity|].
  rewrite seq_S, List.filter_app, count_occ_app, IH. simpl.
  destruct (Nat.ltb_spec j n), (Nat.ltb_spec j (S n)); try lia; simpl.
  - destruct (f n); simpl; [|lia]. destruct (Nat.eq_dec n j); lia.
  - destruct (Nat.eq_dec n j) as [->|Hne].
    + destruct (f j); simpl; [|reflexivity]. destruct (Nat.eq_dec j j); congruence.
    + lia.
  - destruct (f n); simpl; [|reflexivity]. destruct (Nat.eq_dec n j); [lia | reflexivity].
Qed.

Lemma count_occ_seq n j :
  count_occ Nat.eq_dec (seq 0 n) j = if (j <? n)%nat then 1%nat else 0%nat.
Proof.
  rewrite <- (andb_true_r (j <? n)%nat), <- (count_occ_filter_seq (fun _ => true)).
  f_equal. induction (seq 0 n) as [|a l IH]; simpl; congruence.
Qed.

Lemma count_occ_topLevel j :
  count_occ Nat.eq_dec (Heap.topLevel spans) j = if Heap.isTopLevel spans j then 1%nat else 0%nat.
Proof.
  unfold Heap.topLevel. rewrite (count_occ_filter_seq (Heap.isTopLevel spans)).
  destruct (Heap.isTopLevel spans j) eqn:E; [|rewrite andb_false_r; reflexivity].
  apply isTopLevel_lt, Nat.ltb_lt in E. rewrite E. reflexivity.
Qed.

Lemma count_occ_level k : forall j,
  count_occ Nat.eq_dec (level k (Heap.topLevel spans)) j = if rootAt k j then 1%nat else 0%nat.
Proof.
  induction k as [|k IH]; intros j.
  - apply count_occ_topLevel.
  - rewrite level_S, count_occ_children_of. simpl.
    destruct (par j) as [p|]; [apply IH | reflexivity].
Qed.

Lemma count_occ_below f : forall l j,
  count_occ Nat.eq_dec (below f l) j = sumTo f (fun k => count_occ Nat.eq_dec (level k l) j).
Proof.
  induction f as [|f IH]; intros l j; simpl; [reflexivity|].
  rewrite count_occ_app, IH. reflexivity.
Qed.

Lemma sumTo_ext f : forall g h, (forall k, g k = h k) -> sumTo f g = sumTo f h.
Proof.
  induction f as [|f IH]; intros g h Hgh; simpl; [reflexivity|].
  rewrite Hgh. f_equal. apply IH. intros k. apply Hgh.
Qed.

Lemma sumTo_zero f : forall g, (forall k, g k = 0%nat) -> sumTo f g = 0%nat.
Proof.
  induction f as [|f IH]; intros g Hg; simpl; [reflexivity|].
  rewrite Hg, IH; [reflexivity | intros k; apply Hg].
Qed.

(** A span that reaches a root within [f] spans is below exactly one root,
    at one depth, and that depth is less than [f]. *)
Lemma reach_once f : forall j,
  reach f j = true ->
  sumTo f (fun k => if rootAt k j then 1%nat else 0%nat) = 1%nat /\
  (forall k, (f <= k)%nat -> rootAt k j = false).
Proof.
  induction f as [|f IH]; intros j Hr; [discriminate|].
  simpl in Hr. simpl sumTo. destruct (par j) as [p|] eqn:Hp.
  - destruct (IH p Hr) as [Hsum Hlate].
    assert (Htop : Heap.isTopLevel spans j = false).
    { destruct (Heap.isTopLevel spans j) eqn:E; [|reflexivity].
      apply top_level_no_parent in E. congruence. }
    split.
    + cbn [rootAt]. rewrite Htop. exact Hsum.
    + intros [|k] Hk; [lia|]. simpl. rewrite Hp. apply Hlate. lia.
  - split.
    + cbn [rootAt]. rewrite Hr. rewrite sumTo_zero; [reflexivity|].
      intros k. reflexivity.
    + intros [|k] Hk; [lia|]. simpl. rewrite Hp. reflexivity.
Qed.

Lemma rootAt_lt k : forall j, rootAt k j = true -> (j < length spans)%nat \/ par j <> None.
Proof.
  destruct k as [|k]; intros j H; simpl in H.
  - left. apply isTopLevel_lt, H.
  - right. destruct (par j); [discriminate | discriminate].
Qed.

Hypothesis par_lt : forall j p, par j = Some p -> (j < length spans)%nat.

(** The levels below the top-level spans hold every span once. *)
Lemma below_topLevel_all :
  Permutation (below (length spans) (Heap.topLevel spans)) (seq 0 (length spans)).
Proof.
  apply (Permutation_count_occ Nat.eq_dec). intros j.
  rewrite count_occ_below.
  erewrite sumTo_ext; [|intros k; apply count_occ_level].
  rewrite count_occ_seq.
  destruct (Nat.ltb_spec j (length spans)) as [Hlt|Hge].
  - apply reach_once, all_reach, Hlt.
  - apply sumTo_zero. intros k. destruct (rootAt k j) eqn:E; [|reflexivity].
    destruct (rootAt_lt _ _ E) as [H|H]; [lia|].
    destruct (par j) as [p|] eqn:Hp; [|congruence]. apply par_lt in Hp. lia.
Qed.

(** No span lies [length spans] steps below a top-level span. *)
Lemma level_topLevel_nil : level (length spans) (Heap.topLevel spans) = [].
Proof.
  apply (count_occ_inv_nil Nat.eq_dec). intros j. rewrite count_occ_level.
  destruct (rootAt (length spans) j) eqn:E; [|reflexivity].
  assert (Hlt : (j < length spans)%nat).
  { destruct (rootAt_lt _ _ E) as [H|H]; [exact H|].
    destruct (par j) as [p|] eqn:Hp; [|congruence]. eapply par_lt, Hp. }
  destruct (reach_once _ _ (all_reach j Hlt)) as [_ Hlate].
  rewrite Hlate in E by lia. discriminate.
Qed.

Lemma children_lt i j : In j (childrenAt i) -> (j < length spans)%nat.
Proof.
  intros Hin. apply (count_occ_In Nat.eq_dec) in Hin.
  rewrite children_of_parent in Hin.
  destruct (par j) as [p|] eqn:Hp; [|lia]. eapply par_lt, Hp.
Qed.

Lemma below_nil f : below f [] = [].
Proof. induction f as [|f IH]; simpl; [reflexivity | exact IH]. Qed.

Lemma level_nil k : level k [] = [].
Proof. induction k as [|k IH]; simpl; [reflexivity | exact IH]. Qed.

(** A traversal from the references [l] with fuel [f] succeeds when no span
    lies [f] steps below them, and it sees the spans of the levels below. *)
Lemma reify_below f : forall l,
  level f l = [] ->
  Forall (fun i => (i < length spans)%nat) l ->
  exists ts : list VisSpan, mapM (Heap.reify f spans) l = Some ts /\
             Permutation (map shallow (forest ts)) (flat_map shallowAt (below f l)).
Proof.
  induction f as [|f IHf]; intros l Hnil Hlt.
  - simpl in Hnil. subst l. exists []. split; [reflexivity | constructor].
  - induction l as [|i l IHl].
    + exists []. split; [reflexivity|]. simpl. rewrite below_nil. constructor.
    + inversion Hlt as [|? ? Hi Hl]; subst.
      simpl in Hnil. rewrite level_app in Hnil. apply app_eq_nil in Hnil.
      destruct Hnil as [Hnil_i Hnil_l].
      destruct (IHl Hnil_l Hl) as (ts & Hts & Hperm_l).
      destruct (lookup_lt_is_Some_2 spans i Hi) as [span Hspan].
      assert (Hch : childrenAt i = Heap.children span).
      { unfold childrenAt. rewrite Hspan. reflexivity. }
      destruct (IHf (Heap.children span)) as (cs & Hcs & Hperm_c).
      { rewrite <- Hch. exact Hnil_i. }
      { apply List.Forall_forall. intros j Hj. apply (children_lt i). rewrite Hch. exact Hj. }
      eexists (_ :: ts). split.
      * apply mapM_Some_2. constructor; [|apply mapM_Some_1, Hts].
        cbn [Heap.reify]. rewrite Hspan, Hcs. reflexivity.
      * assert (Hidx : Permutation (below (S f) (i :: l))
                                   (i :: below f (Heap.children span) ++ below (S f) l)).
        { cbn [below flat_map app]. rewrite Hch. constructor.
          rewrite (below_app f (Heap.children span) (flat_map childrenAt l)).
          rewrite !app_assoc. apply Permutation_app_tail, Permutation_app_comm. }
        rewrite (Permutation_flat_map shallowAt Hidx).
        unfold forest at 1. cbn [flat_map]. fold (forest ts).
        rewrite subtree_eq. cbn [children].
        rewrite map_app. cbn [map app flat_map]. rewrite flat_map_app.
        unfold shallowAt at 1. rewrite Hspan. cbn [app]. constructor.
        apply Permutation_app; [exact Hperm_c | exact Hperm_l].
Qed.

End Levels.

(** ** The sort keeps the elements *)

Lemma insertSorted_perm {A} (cmp : A -> A -> Z) x l :
  Permutation (insertSorted cmp x l) (x :: l).
Proof.
  induction l as [|y l IH]; simpl; [reflexivity|].
  destruct (cmp x y <? 0); [reflexivity|].
  rewrite IH. apply perm_swap.
Qed.

Lemma sortBy_perm {A} (cmp : A -> A -> Z) l : Permutation (sortBy cmp l) l.
Proof.
  unfold sortBy. rewrite <- (app_nil_l l) at 2. generalize (@nil A) as acc.
  induction l as [|x l IH]; intros acc; simpl.
  - rewrite app_nil_r. reflexivity.
  - rewrite IH, insertSorted_perm. apply Permutation_middle.
Qed.

(** ** What the linking loop builds *)

Lemma getIndex_has (m : Heap.SpanIndex) k i :
  Heap.getIndex m k = Some i -> Heap.hasIndex m k = true.
Proof.
  unfold Heap.getIndex, Heap.hasIndex.
  destruct (String.eqb_spec k "__proto__") as [->|_].
  - intros _. rewrite orb_true_iff. left. apply orb_true_r.
  - intros ->. reflexivity.
Qed.

Lemma getIndex_set_eq (m : Heap.SpanIndex) k i :
  Heap.getIndex (Heap.setIndex k i m) k = Some i.
Proof.
  unfold Heap.getIndex, Heap.setIndex.
  destruct (String.eqb k "__proto__") eqn:E; cbn [Heap.own Heap.proto]; [reflexivity|].
  apply lookup_insert_eq.
Qed.

Lemma getIndex_set_ne (m : Heap.SpanIndex) k k' i :
  k <> k' -> Heap.getIndex (Heap.setIndex k i m) k' = Heap.getIndex m k'.
Proof.
  intros Hne. unfold Heap.getIndex, Heap.setIndex.
  destruct (String.eqb_spec k "__proto__") as [->|Hk]; cbn [Heap.own Heap.proto].
  - destruct (String.eqb_spec k' "__proto__") as [->|_]; [congruence | reflexivity].
  - destruct (String.eqb k' "__proto__"); [reflexivity|].
    apply lookup_insert_ne, Hne.
Qed.

Lemma getIndex_empty k : Heap.getIndex Heap.emptyIndex k = None.
Proof.
  unfold Heap.getIndex, Heap.emptyIndex. cbn [Heap.own Heap.proto].
  destruct (String.eqb k "__proto__"); [reflexivity | apply lookup_empty].
Qed.

Section Linking.
Variable spanIdToSpan : Heap.SpanIndex.
Variable spans : list Heap.SpanObject.

(** The linking loop throws at the span at index [j]: its parent identifier
    is found by [in] and is no span's. *)
Definition throwsAt (j : nat) : bool :=
  match spans !! j with
  | Some span =>
      Heap.hasIndex spanIdToSpan (Heap.parentSpanId span)
      && match Heap.getIndex spanIdToSpan (Heap.parentSpanId span) with
         | Some _ => false
         | None => true
         end
  | None => false
  end.

(** The span at index [j] names the span at index [p] as its parent. *)
Definition parentIs (p j : nat) : bool :=
  match Heap.parentRef spanIdToSpan spans j with
  | Some q => Nat.eqb q p
  | None => false
  end.

(** The objects after the rounds [0 .. t-1] of the linking loop. *)
Definition linked (t : nat) : list Heap.SpanObject :=
  imap (fun p span =>
          setChildren span (Heap.children span ++ List.filter (parentIs p) (seq 0 t)))
       spans.

Lemma setChildren_same span : setChildren span (Heap.children span) = span.
Proof. destruct span; reflexivity. Qed.

Lemma linked_O : linked 0 = spans.
Proof.
  apply list_eq. intros p. unfold linked. rewrite list_lookup_imap.
  destruct (spans !! p) as [span|]; [|reflexivity]. simpl.
  rewrite app_nil_r, setChildren_same. reflexivity.
Qed.

Lemma linkStep_linked t :
  Heap.linkStep spanIdToSpan (linked t) t =
  if throwsAt t then inl JsObject.TypeError else inr (linked (S t)).
Proof.
  assert (Hstep : forall q,
    linked (S t) !! q =
    (fun span => if parentIs q t then Heap.pushChild t span else span) <$> linked t !! q).
  { intros q. unfold linked. rewrite !list_lookup_imap.
    destruct (spans !! q) as [span|]; [|reflexivity].
    rewrite seq_S, List.filter_app. cbn [fmap option_fmap option_map List.filter Nat.add].
    f_equal.
    destruct (parentIs q t).
    - unfold Heap.pushChild, setChildren. simpl. rewrite <- app_assoc. reflexivity.
    - rewrite app_nil_r. reflexivity. }
  assert (Hnone : Heap.parentRef spanIdToSpan spans t = None -> linked (S t) = linked t).
  { intros Hn. apply list_eq. intros p. rewrite Hstep. unfold parentIs. rewrite Hn.
    destruct (linked t !! p); reflexivity. }
  unfold Heap.parentRef in Hnone, Hstep. unfold parentIs, Heap.parentRef in Hstep.
  unfold Heap.linkStep, throwsAt. unfold linked at 1. rewrite list_lookup_imap.
  destruct (spans !! t) as [st|] eqn:Ht; cbn [fmap option_fmap option_map];
    [|rewrite Hnone by reflexivity; reflexivity].
  cbn [setChildren Heap.parentSpanId].
  destruct (Heap.getIndex spanIdToSpan (Heap.parentSpanId st)) as [q|] eqn:Hq.
  - rewrite (getIndex_has _ _ _ Hq). cbn [andb]. f_equal.
    apply list_eq. intros p. rewrite Hstep. destruct (Nat.eq_dec q p) as [->|Hne].
    + rewrite list_lookup_alter_eq, Nat.eqb_refl. reflexivity.
    + rewrite list_lookup_alter_ne by exact Hne.
      destruct (Nat.eqb_spec q p); [congruence|].
      destruct (linked t !! p); reflexivity.
  - destruct (Heap.hasIndex spanIdToSpan (Heap.parentSpanId st)); cbn [andb]; [reflexivity|].
    rewrite Hnone by reflexivity. reflexivity.
Qed.

Lemma linkChildren_linked :
  Heap.linkChildren spanIdToSpan spans =
  if existsb throwsAt (seq 0 (length spans))
  then inl JsObject.TypeError
  else inr (linked (length spans)).
Proof.
  unfold Heap.linkChildren. generalize (length spans) as t.
  induction t as [|t IH]; [cbn [seq fold_left existsb]; rewrite linked_O; reflexivity|].
  rewrite seq_S, fold_left_app, existsb_app, IH. cbn [fold_left Nat.add existsb].
  destruct (existsb throwsAt (seq 0 t)); [reflexivity|].
  rewrite linkStep_linked, orb_false_r. reflexivity.
Qed.

End Linking.

(** ** The objects [extractVisSpans] leaves *)

Lemma lookup_map {A B} (f : A -> B) (l : list A) i : map f l !! i = f <$> l !! i.
Proof.
  revert i. induction l as [|a l IH]; intros [|i]; simpl; try reflexivity. apply IH.
Qed.

(** The index maps an identifier to an object that bears it. *)
Lemma indexFrom_lookup l : forall base (m : Heap.SpanIndex) k i,
  Heap.getIndex (Heap.indexFrom base l m) k = Some i ->
  Heap.getIndex m k = Some i \/
  ((base <= i)%nat /\ exists s, l !! (i - base)%nat = Some s /\ Heap.spanId s = k).
Proof.
  induction l as [|s l IH]; intros base m k i H; simpl in H; [left; exact H|].
  apply IH in H. destruct H as [H|(Hle & s' & Hs' & Hid)].
  - destruct (decide (Heap.spanId s = k)) as [Heq|Hne].
    + rewrite Heq, getIndex_set_eq in H. injection H as <-. right.
      split; [lia|]. exists s. rewrite Nat.sub_diag. split; [reflexivity | exact Heq].
    + rewrite getIndex_set_ne in H by exact Hne. left. exact H.
  - right. split; [lia|]. exists s'. split; [|exact Hid].
    replace (i - base)%nat with (S (i - S base)) by lia. exact Hs'.
Qed.

Section Built.
Variable spans0 : list Heap.SpanObject.
Hypothesis fresh : Forall (fun span => Heap.children span = []) spans0.

(** the objects the function leaves, and the parent of each *)
Definition built : list Heap.SpanObject :=
  Heap.sortAllChildren (linked (Heap.indexSpans spans0) spans0 (length spans0)).

Definition parentOf (j : nat) : option nat :=
  Heap.parentRef (Heap.indexSpans spans0) spans0 j.

Lemma built_lookup p :
  built !! p =
  (fun span =>
     setChildren span
       (sortBy (Heap.byStartTimeRef (linked (Heap.indexSpans spans0) spans0 (length spans0)))
               (List.filter (parentIs (Heap.indexSpans spans0) spans0 p)
                            (seq 0 (length spans0)))))
  <$> spans0 !! p.
Proof.
  unfold built, Heap.sortAllChildren. rewrite lookup_map.
  unfold linked at 2. rewrite list_lookup_imap.
  destruct (spans0 !! p) as [span|] eqn:Hp; [|reflexivity]. simpl.
  rewrite List.Forall_forall in fresh.
  rewrite (fresh span) by (apply list_elem_of_In, list_elem_of_lookup; eauto).
  reflexivity.
Qed.

Lemma built_length : length built = length spans0.
Proof.
  unfold built, Heap.sortAllChildren. rewrite length_map.
  unfold linked. apply length_imap.
Qed.

Lemma built_isTopLevel j : Heap.isTopLevel built j = Heap.isTopLevel spans0 j.
Proof.
  unfold Heap.isTopLevel. rewrite built_lookup.
  destruct (spans0 !! j); reflexivity.
Qed.

Lemma built_spanIdAt j : spanIdAt built j = spanIdAt spans0 j.
Proof.
  unfold spanIdAt. rewrite built_lookup. destruct (spans0 !! j); reflexivity.
Qed.

Lemma parentOf_lt j p : parentOf j = Some p -> (j < length spans0)%nat.
Proof.
  unfold parentOf, Heap.parentRef. destruct (spans0 !! j) eqn:E; [|discriminate].
  intros _. eapply lookup_lt_Some, E.
Qed.

Lemma built_children i j :
  count_occ Nat.eq_dec (childrenAt built i) j =
  match parentOf j with
  | Some p => if Nat.eqb p i then 1 else 0
  | None => 0
  end%nat.
Proof.
  unfold childrenAt. rewrite built_lookup.
  destruct (spans0 !! i) as [span|] eqn:Hi; simpl.
  - rewrite (proj1 (Permutation_count_occ Nat.eq_dec _ _) (sortBy_perm _ _)).
    rewrite count_occ_filter_seq. unfold parentIs. fold (parentOf j).
    destruct (parentOf j) as [p|] eqn:Hp; [|rewrite andb_false_r; reflexivity].
    apply parentOf_lt, Nat.ltb_lt in Hp. rewrite Hp. reflexivity.
  - destruct (parentOf j) as [p|] eqn:Hp; [|reflexivity].
    destruct (Nat.eqb_spec p i) as [->|]; [|reflexivity].
    (* the index only holds references to objects *)
    exfalso. revert Hp Hi. unfold parentOf, Heap.parentRef, Heap.indexSpans.
    destruct (spans0 !! j) as [sj|]; [|discriminate].
    intros Hk Hi. apply indexFrom_lookup in Hk.
    destruct Hk as [H|(_ & s & H & _)]; [rewrite getIndex_empty in H; discriminate|].
    rewrite Nat.sub_0_r in H. congruence.
Qed.

Lemma reachesRoot_empty_id f : forall j,
  Heap.reachesRoot f (Heap.indexSpans spans0) spans0 j = true ->
  Heap.getIndex (Heap.indexSpans spans0) "" = None.
Proof.
  induction f as [|f IH]; intros j H; [discriminate|]. simpl in H.
  destruct (Heap.parentRef _ spans0 j) as [p|] eqn:Hp; [apply (IH p H)|].
  unfold Heap.isTopLevel in H. unfold Heap.parentRef in Hp.
  destruct (spans0 !! j) as [s|]; [|discriminate].
  apply String.eqb_eq in H. rewrite H in Hp. exact Hp.
Qed.

Lemma built_reach f : forall j,
  reach built parentOf f j = Heap.reachesRoot f (Heap.indexSpans spans0) spans0 j.
Proof.
  induction f as [|f IH]; intros j; [reflexivity|]. simpl. unfold parentOf at 1.
  destruct (Heap.parentRef _ spans0 j); [apply IH | apply built_isTopLevel].
Qed.

Hypothesis well_formed : Heap.wellFormed spans0 = true.

Lemma wellFormed_reaches j :
  (j < length spans0)%nat ->
  Heap.reachesRoot (length spans0) (Heap.indexSpans spans0) spans0 j = true.
Proof.
  intros Hj. unfold Heap.wellFormed in well_formed.
  rewrite forallb_forall in well_formed. apply well_formed, in_seq. lia.
Qed.

Lemma built_top_level_no_parent j : Heap.isTopLevel built j = true -> parentOf j = None.
Proof.
  rewrite built_isTopLevel. intros Htop.
  assert (Hj : (j < length spans0)%nat).
  { unfold Heap.isTopLevel in Htop. destruct (spans0 !! j) eqn:E; [|discriminate].
    eapply lookup_lt_Some, E. }
  pose proof (reachesRoot_empty_id _ _ (wellFormed_reaches j Hj)) as Hempty.
  unfold parentOf, Heap.parentRef. unfold Heap.isTopLevel in Htop.
  destruct (spans0 !! j) as [s|]; [|reflexivity].
  apply String.eqb_eq in Htop. rewrite Htop. exact Hempty.
Qed.

Lemma built_shallow : map (fun span => setChildren span []) built = spans0.
Proof.
  apply list_eq. intros i. rewrite lookup_map, built_lookup.
  destruct (spans0 !! i) as [s|] eqn:Hs; [|reflexivity]. simpl. f_equal.
  rewrite List.Forall_forall in fresh.
  assert (Hc : Heap.children s = []).
  { apply fresh, list_elem_of_In, list_elem_of_lookup. eauto. }
  destruct s. simpl in Hc. subst. reflexivity.
Qed.

(** The forest below the returned references: it is finite, and its spans
    are the objects, each once. *)
Lemma built_forest :
  exists trees : list VisSpan,
    Heap.reifyForest (length spans0) (built, Heap.topLevel built) = Some trees /\
    Permutation (map shallow (forest trees)) spans0.
Proof.
  pose proof built_length as Hlen.
  assert (Hreach : forall j, (j < length built)%nat ->
                             reach built parentOf (length built) j = true).
  { intros j Hj. rewrite built_reach, Hlen. apply wellFormed_reaches. lia. }
  assert (Hlt : forall j p, parentOf j = Some p -> (j < length built)%nat).
  { intros j p H. rewrite Hlen. eapply parentOf_lt, H. }
  destruct (reify_below built parentOf built_children Hlt
                        (length built) (Heap.topLevel built)) as (trees & Hts & Hperm).
  - apply (level_topLevel_nil built parentOf built_children
             built_top_level_no_parent Hreach Hlt).
  - apply List.Forall_forall. intros i Hi. unfold Heap.topLevel in Hi.
    apply filter_In in Hi. destruct Hi as [Hi _]. apply in_seq in Hi. lia.
  - exists trees. unfold Heap.reifyForest. cbn [fst snd]. rewrite <- Hlen.
    split; [exact Hts|]. rewrite Hperm.
    rewrite (Permutation_flat_map _
               (below_topLevel_all built parentOf built_children
                  built_top_level_no_parent Hreach Hlt)).
    unfold shallowAt. rewrite flat_map_lookup_seq. rewrite built_shallow. reflexivity.
Qed.

(** A well-formed payload makes the linking loop throw nowhere. *)
Lemma wellFormed_no_throw :
  existsb (throwsAt (Heap.indexSpans spans0) spans0) (seq 0 (length spans0)) = false.
Proof.
  destruct (existsb _ _) eqn:E; [|reflexivity]. exfalso.
  apply existsb_exists in E. destruct E as (j & Hj & Hthrow).
  apply in_seq in Hj.
  pose proof (wellFormed_reaches j ltac:(lia)) as Hr.
  destruct (length spans0) as [|n]; [lia|]. cbn [Heap.reachesRoot] in Hr.
  unfold throwsAt in Hthrow. unfold Heap.parentRef, Heap.isTopLevel in Hr.
  destruct (spans0 !! j) as [s|]; [|discriminate].
  destruct (Heap.getIndex (Heap.indexSpans spans0) (Heap.parentSpanId s)) as [q|] eqn:Hq.
  - rewrite andb_false_r in Hthrow. discriminate.
  - apply String.eqb_eq in Hr. rewrite Hr in Hq, Hthrow.
    unfold Heap.hasIndex in Hthrow. unfold Heap.getIndex in Hq. cbn in Hq.
    rewrite Hq in Hthrow. destruct (Heap.proto _); discriminate.
Qed.

End Built.

(** ** The forest returned by [extractVisSpans] *)

Lemma collectSpans_fresh otel_requests :
  Forall (fun span => Heap.children span = []) (Heap.collectSpans otel_requests).
Proof.
  unfold Heap.collectSpans. apply List.Forall_forall. intros span Hin.
  apply in_map_iff in Hin. destruct Hin as (rs & <- & _). reflexivity.
Qed.

Lemma extractVisSpans_built otel_requests :
  Heap.extractVisSpans otel_requests =
  if existsb (throwsAt (Heap.indexSpans (Heap.collectSpans otel_requests))
                       (Heap.collectSpans otel_requests))
             (seq 0 (length (Heap.collectSpans otel_requests)))
  then inl JsObject.TypeError
  else inr (built (Heap.collectSpans otel_requests),
            Heap.topLevel (built (Heap.collectSpans otel_requests))).
Proof.
  unfold Heap.extractVisSpans. rewrite linkChildren_linked.
  destruct (existsb _ _); reflexivity.
Qed.

Lemma extractVisSpans_inr otel_requests r :
  Heap.extractVisSpans otel_requests = inr r ->
  r = (built (Heap.collectSpans otel_requests),
       Heap.topLevel (built (Heap.collectSpans otel_requests))).
Proof.
  rewrite extractVisSpans_built. destruct (existsb _ _); [discriminate|].
  intros [= <-]. reflexivity.
Qed.

Lemma countDisplayedSpansRec_subtree span :
  countDisplayedSpansRec span = length (subtree span).
Proof.
  induction span as [span IH] using VisSpan_forall_ind.
  rewrite subtree_eq. destruct span as [? ? ? ? ? cs ? ? ? ?]. simpl in *.
  f_equal. unfold forest. induction IH as [|c cs Hc _ IHcs]; simpl; [reflexivity|].
  rewrite length_app, Hc, IHcs. reflexivity.
Qed.

Lemma countDisplayedSpans_forest trees :
  list_sum (map countDisplayedSpansRec trees) = length (forest trees).
Proof.
  unfold forest. induction trees as [|t ts IH]; simpl; [reflexivity|].
  rewrite length_app, countDisplayedSpansRec_subtree, IH. reflexivity.
Qed.

Lemma reify_S spans f i :
  Heap.reify (S f) spans i =
  match spans !! i with
  | None => None
  | Some span =>
      match mapM (Heap.reify f spans) (Heap.children span) with
      | None => None
      | Some cs =>
          Some (mkVisSpan (Heap.spanId span) (Heap.name span) (Heap.startTime span)
                          (Heap.endTime span) (Heap.parentSpanId span) cs
                          (Heap.events span) (Heap.resource span)
                          (Heap.attributes span) (Heap.height_level span))
      end
  end.
Proof. reflexivity. Qed.

(** More fuel does not change a traversal that ended. *)
Lemma reify_more spans f : forall i t,
  Heap.reify f spans i = Some t -> Heap.reify (S f) spans i = Some t.
Proof.
  induction f as [|f IH]; intros i t H; [discriminate|].
  rewrite reify_S in H. rewrite reify_S.
  destruct (spans !! i) as [span|]; [|discriminate].
  destruct (mapM (Heap.reify f spans) (Heap.children span)) as [cs|] eqn:Hcs; [|discriminate].
  apply mapM_Some_1 in Hcs.
  rewrite (mapM_Some_2 (Heap.reify (S f) spans) (Heap.children span) cs); [exact H|].
  eapply Forall2_impl; [exact Hcs|]. intros x y Hxy. apply IH, Hxy.
Qed.

Lemma reifyForest_more r f f' trees :
  (f <= f')%nat -> Heap.reifyForest f r = Some trees -> Heap.reifyForest f' r = Some trees.
Proof.
  intros Hle H. induction Hle as [|f' _ IH]; [exact H|].
  unfold Heap.reifyForest in *. apply mapM_Some_1 in IH. apply mapM_Some_2.
  eapply Forall2_impl; [exact IH|]. intros x y Hxy. apply reify_more, Hxy.
Qed.

(** C2 (as amended).  Forest partition: for every payload of N raw spans
    with pairwise-distinct identifiers in which following the parent
    identifiers from any span ends at a span whose parent identifier is
    empty, the empty string being no span's identifier (no parent identifier
    dangles, none lies on a cycle), [extractVisSpans] returns, and the forest
    below the references it returns is finite and holds exactly N spans,
    counting every node of every tree: the nodes of the forest are, children
    aside, the objects pushed for the raw spans, and every raw span's
    identifier is borne by exactly one node. *)
Theorem forest_partition (otel_requests : list Otel.ExportTraceServiceRequest) :
  List.NoDup (map (fun rs => Otel.spanId (snd rs)) (Heap.rawSpans otel_requests)) ->
  Heap.wellFormed (Heap.collectSpans otel_requests) = true ->
  exists (r : list Heap.SpanObject * list nat) (trees : list VisSpan),
    Heap.extractVisSpans otel_requests = inr r /\
    (forall fuel, (length (Heap.rawSpans otel_requests) <= fuel)%nat ->
       Heap.reifyForest fuel r = Some trees) /\
    list_sum (map countDisplayedSpansRec trees) = length (Heap.rawSpans otel_requests) /\
    Permutation (map shallow (forest trees)) (Heap.collectSpans otel_requests) /\
    (forall rs, In rs (Heap.rawSpans otel_requests) ->
       count_occ string_dec (map spanId (forest trees)) (Otel.spanId (snd rs)) = 1%nat).
Proof.
  intros Hnodup Hwf.
  destruct (built_forest _ (collectSpans_fresh otel_requests) Hwf) as (trees & Hts & Hperm).
  assert (Hids : map Heap.spanId (Heap.collectSpans otel_requests) =
                 map (fun rs => Otel.spanId (snd rs)) (Heap.rawSpans otel_requests)).
  { unfold Heap.collectSpans. rewrite map_map. reflexivity. }
  assert (Hlen : length (Heap.collectSpans otel_requests) =
                 length (Heap.rawSpans otel_requests)).
  { unfold Heap.collectSpans. apply length_map. }
  assert (Hpids : Permutation (map spanId (forest trees))
                    (map (fun rs => Otel.spanId (snd rs)) (Heap.rawSpans otel_requests))).
  { rewrite <- Hids, <- Hperm, map_map. reflexivity. }
  eexists _, trees. split; [|split; [|split; [|split]]].
  - rewrite extractVisSpans_built.
    rewrite (wellFormed_no_throw _ Hwf). reflexivity.
  - intros fuel Hfuel. eapply reifyForest_more; [|exact Hts]. lia.
  - rewrite countDisplayedSpans_forest, <- (length_map shallow).
    rewrite (Permutation_length Hperm). exact Hlen.
  - exact Hperm.
  - intros rs Hrs.
    rewrite (proj1 (Permutation_count_occ string_dec _ _) Hpids).
    apply (proj1 (NoDup_count_occ' string_dec _) Hnodup).
    apply (in_map (fun rs => Otel.spanId (snd rs))), Hrs.
Qed.

Definition rawSpan (id parent : string) (start_ end_ : Z) : Otel.Span :=
  Otel.mkSpan "t" id parent id start_ end_ [] [] [].

Definition payload (l : list Otel.Span) : list Otel.ExportTraceServiceRequest :=
  [Otel.mkRequest [Otel.mkResourceSpans (mkResource []) [Otel.mkScopeSpans l]]].

Lemma forest_partition_witness :
  let otel_requests :=
    payload [rawSpan "a" "" 0 100; rawSpan "b" "a" 10 20; rawSpan "c" "a" 5 8] in
  List.NoDup (map (fun rs => Otel.spanId (snd rs)) (Heap.rawSpans otel_requests)) /\
  Heap.wellFormed (Heap.collectSpans otel_requests) = true /\
  exists (r : list Heap.SpanObject * list nat) (trees : list VisSpan),
    Heap.extractVisSpans otel_requests = inr r /\
    Heap.reifyForest 3 r = Some trees /\
    list_sum (map countDisplayedSpansRec trees) = 3%nat.
Proof.
  intros otel_requests.
  assert (Hnd : List.NoDup (map (fun rs => Otel.spanId (snd rs))
                                (Heap.rawSpans otel_requests))).
  { repeat constructor; simpl; intuition discriminate. }
  assert (Hwf : Heap.wellFormed (Heap.collectSpans otel_requests) = true) by reflexivity.
  split; [exact Hnd|]. split; [exact Hwf|].
  destruct (forest_partition otel_requests Hnd Hwf) as (r & trees & Hr & Hts & Hcount & _).
  exists r, trees. split; [exact Hr|]. split; [apply Hts; simpl; lia | exact Hcount].
Defined.

(** One span whose parent is not in the payload: the identifiers are
    distinct, N is 1, the function returns and the forest is empty. *)
Lemma forest_partition_fails_on_orphan :
  let otel_requests := payload [rawSpan "x" "gone" 1 2] in
  List.NoDup (map (fun rs => Otel.spanId (snd rs)) (Heap.rawSpans otel_requests)) /\
  length (Heap.rawSpans otel_requests) = 1%nat /\
  exists r : list Heap.SpanObject * list nat,
    Heap.extractVisSpans otel_requests = inr r /\
    snd r = [] /\
    forall fuel, Heap.reifyForest fuel r = Some [] /\
                 list_sum (map countDisplayedSpansRec []) = 0%nat.
Proof.
  intros otel_requests. split; [|split].
  - constructor; [simpl; tauto | constructor].
  - reflexivity.
  - eexists. split; [vm_compute; reflexivity|]. split; [reflexivity|].
    intros fuel. split; reflexivity.
Qed.

Lemma topLevel_built_iff otel_requests j :
  In j (Heap.topLevel (built (Heap.collectSpans otel_requests))) <->
  exists rs, Heap.rawSpans otel_requests !! j = Some rs /\ Otel.parentSpanId (snd rs) = "".
Proof.
  unfold Heap.topLevel.
  rewrite filter_In, in_seq.
  pose proof (built_isTopLevel _ (collectSpans_fresh otel_requests) j) as Htop.
  unfold Heap.isTopLevel at 1 in Htop. rewrite Htop. clear Htop.
  rewrite (built_length (Heap.collectSpans otel_requests)).
  unfold Heap.isTopLevel, Heap.collectSpans. rewrite lookup_map.
  destruct (Heap.rawSpans otel_requests !! j) as [rs|] eqn:Hj; simpl.
  - rewrite String.eqb_eq. split.
    + intros [_ H]. exists rs. split; [reflexivity | exact H].
    + intros (rs' & Heq & H). injection Heq as <-. split; [|exact H].
      apply lookup_lt_Some in Hj. rewrite length_map. lia.
  - split; [intros [_ H]; discriminate | intros (rs' & Heq & _); discriminate].
Qed.

(** An identifier the index yields a span for is a span's identifier. *)
Lemma indexSpans_some spans0 k q :
  Heap.getIndex (Heap.indexSpans spans0) k = Some q ->
  exists s, spans0 !! q = Some s /\ Heap.spanId s = k.
Proof.
  intros Hq. apply indexFrom_lookup in Hq.
  destruct Hq as [Hq|(_ & s & Hs & Hid)]; [rewrite getIndex_empty in Hq; discriminate|].
  rewrite Nat.sub_0_r in Hs. exists s. split; assumption.
Qed.

(** Where the linking loop throws, the parent identifier is a name the index
    object inherits. *)
Lemma throwsAt_inherited spans0 j :
  throwsAt (Heap.indexSpans spans0) spans0 j = true ->
  exists s, spans0 !! j = Some s /\
            (JsObject.isPrototypeName (Heap.parentSpanId s) = true \/
             exists s', In s' spans0 /\ Heap.spanId s' = "__proto__"%string).
Proof.
  unfold throwsAt. destruct (spans0 !! j) as [s|]; [|discriminate].
  intros H. exists s. split; [reflexivity|].
  apply andb_true_iff in H. destruct H as [Hhas Hget].
  destruct (Heap.getIndex _ (Heap.parentSpanId s)) as [q|] eqn:Hq; [discriminate|].
  unfold Heap.hasIndex in Hhas. rewrite !orb_true_iff in Hhas.
  destruct Hhas as [[Hown|Hp]|Hf].
  - unfold Heap.getIndex in Hq.
    destruct (String.eqb_spec (Heap.parentSpanId s) "__proto__") as [->|_];
      [left; reflexivity|].
    rewrite Hq in Hown. discriminate.
  - left. exact Hp.
  - right. destruct (Heap.proto (Heap.indexSpans spans0)) as [q|] eqn:Hproto; [|discriminate].
    destruct (indexSpans_some spans0 "__proto__" q) as (s' & Hs' & Hid).
    { unfold Heap.getIndex. cbn. exact Hproto. }
    exists s'. split; [|exact Hid]. apply list_elem_of_In, list_elem_of_lookup. eauto.
Qed.

(** C3 (as amended).  Orphans: a raw span whose parent identifier is not
    empty and is the identifier of no span of the payload is never promoted:
    whenever [extractVisSpans] returns, it is not a root of the forest and it
    is pushed to no [children] array either, so it is left out of the
    forest; the roots are exactly the spans whose parent identifier is the
    empty string.  The function returns, silently, when no parent identifier
    of the payload is the name of a property of [Object.prototype] and no
    span's identifier is "__proto__"; when the orphan's parent identifier is
    such a name it throws a TypeError. *)
Theorem orphan_not_promoted (otel_requests : list Otel.ExportTraceServiceRequest)
        (i : nat) (rs : Otel.ResourceSpans * Otel.Span) :
  Heap.rawSpans otel_requests !! i = Some rs ->
  Otel.parentSpanId (snd rs) <> "" ->
  (forall rs', In rs' (Heap.rawSpans otel_requests) ->
               Otel.spanId (snd rs') <> Otel.parentSpanId (snd rs)) ->
  (forall r, Heap.extractVisSpans otel_requests = inr r ->
     ~ In i (snd r) /\
     (forall p, ~ In i (childrenAt (fst r) p)) /\
     (forall j, In j (snd r) <->
                exists rs_j, Heap.rawSpans otel_requests !! j = Some rs_j /\
                             Otel.parentSpanId (snd rs_j) = "")) /\
  (JsObject.isPrototypeName (Otel.parentSpanId (snd rs)) = true ->
   Heap.extractVisSpans otel_requests = inl JsObject.TypeError) /\
  ((forall rs', In rs' (Heap.rawSpans otel_requests) ->
                JsObject.isPrototypeName (Otel.parentSpanId (snd rs')) = false /\
                Otel.spanId (snd rs') <> "__proto__"%string) ->
   exists r, Heap.extractVisSpans otel_requests = inr r).
Proof.
  intros Hi Hparent Hnone.
  assert (Hunmatched : Heap.getIndex (Heap.indexSpans (Heap.collectSpans otel_requests))
                                     (Otel.parentSpanId (snd rs)) = None).
  { destruct (Heap.getIndex _ _) as [q|] eqn:Hq; [|reflexivity]. exfalso.
    destruct (indexSpans_some _ _ _ Hq) as (s & Hs & Hid).
    unfold Heap.collectSpans in Hs. rewrite lookup_map in Hs.
    destruct (Heap.rawSpans otel_requests !! q) as [rs'|] eqn:Hrs'; [|discriminate].
    injection Hs as <-. simpl in Hid.
    apply (Hnone rs'); [|exact Hid].
    apply list_elem_of_In, list_elem_of_lookup. eauto. }
  assert (Hobj : Heap.collectSpans otel_requests !! i =
                 Some (Heap.newSpanObject (fst rs) (snd rs))).
  { unfold Heap.collectSpans. rewrite lookup_map, Hi. reflexivity. }
  split; [|split].
  - intros r Hr. apply extractVisSpans_inr in Hr. subst r. cbn [fst snd].
    split; [|split].
    + rewrite topLevel_built_iff. intros (rs' & Heq & H). congruence.
    + intros p Hin. apply (count_occ_In Nat.eq_dec) in Hin.
      rewrite (built_children _ (collectSpans_fresh otel_requests)) in Hin.
      unfold parentOf, Heap.parentRef in Hin. rewrite Hobj in Hin.
      cbn [Heap.newSpanObject Heap.parentSpanId] in Hin.
      rewrite Hunmatched in Hin. lia.
    + intros j. apply topLevel_built_iff.
  - intros Hproto. rewrite extractVisSpans_built.
    assert (Hthrow : existsb (throwsAt (Heap.indexSpans (Heap.collectSpans otel_requests))
                                       (Heap.collectSpans otel_requests))
                             (seq 0 (length (Heap.collectSpans otel_requests))) = true).
    { apply existsb_exists. exists i. split.
      - apply in_seq. apply lookup_lt_Some in Hi. unfold Heap.collectSpans.
        rewrite length_map. lia.
      - unfold throwsAt. rewrite Hobj. cbn [Heap.newSpanObject Heap.parentSpanId].
        rewrite Hunmatched. unfold Heap.hasIndex. rewrite Hproto.
        rewrite orb_true_r. reflexivity. }
    rewrite Hthrow. reflexivity.
  - intros Hclean. rewrite extractVisSpans_built.
    destruct (existsb _ _) eqn:E; [|eexists; reflexivity]. exfalso.
    apply existsb_exists in E. destruct E as (j & _ & Hthrow).
    apply throwsAt_inherited in Hthrow. destruct Hthrow as (s & Hs & Hcase).
    unfold Heap.collectSpans in Hs. rewrite lookup_map in Hs.
    destruct (Heap.rawSpans otel_requests !! j) as [rs_j|] eqn:Hj; [|discriminate].
    injection Hs as <-. simpl in Hcase.
    destruct Hcase as [Hp|(s' & Hin & Hid)].
    + destruct (Hclean rs_j) as [Hc _]; [|congruence].
      apply list_elem_of_In, list_elem_of_lookup. eauto.
    + unfold Heap.collectSpans in Hin. apply in_map_iff in Hin.
      destruct Hin as (rs' & <- & Hin). simpl in Hid.
      destruct (Hclean rs' Hin) as [_ Hc]. contradiction.
Qed.

Lemma orphan_not_promoted_witness :
  let otel_requests := payload [rawSpan "a" "" 0 100; rawSpan "x" "gone" 1 2] in
  exists r, Heap.extractVisSpans otel_requests = inr r /\
            ~ In 1%nat (snd r) /\ (forall p, ~ In 1%nat (childrenAt (fst r) p)).
Proof.
  intros otel_requests.
  assert (H : Heap.rawSpans otel_requests !! 1%nat =
              Some (Otel.mkResourceSpans (mkResource [])
                      [Otel.mkScopeSpans [rawSpan "a" "" 0 100; rawSpan "x" "gone" 1 2]],
                    rawSpan "x" "gone" 1 2)) by reflexivity.
  destruct (orphan_not_promoted otel_requests 1%nat _ H) as (Hdrop & _ & Hret).
  - discriminate.
  - intros rs' [<-|[<-|[]]]; discriminate.
  - destruct Hret as [r Hr].
    + intros rs' [<-|[<-|[]]]; (split; [reflexivity | discriminate]).
    + exists r. split; [exact Hr|]. destruct (Hdrop r Hr) as (H1 & H2 & _).
      split; [exact H1 | exact H2].
Defined.

(** A span whose parent is not in the payload is not among the roots. *)
Lemma orphan_is_no_root :
  let otel_requests := payload [rawSpan "a" "" 0 100; rawSpan "x" "gone" 1 2] in
  map (fun rs => (Otel.spanId (snd rs), Otel.parentSpanId (snd rs)))
      (Heap.rawSpans otel_requests) = [("a", ""); ("x", "gone")] /\
  exists r : list Heap.SpanObject * list nat,
    Heap.extractVisSpans otel_requests = inr r /\
    snd r = [0%nat] /\
    map Heap.children (fst r) = [[]; []] /\
    ~ In 1%nat (snd r).
Proof.
  intros otel_requests. split; [reflexivity|].
  eexists. split; [vm_compute; reflexivity|]. split; [reflexivity|].
  split; [reflexivity|]. simpl. intros [H|[]]. discriminate H.
Qed.

(** An orphan whose parent identifier names an inherited property: the
    linking loop throws. *)
Lemma orphan_of_inherited_name_throws :
  Heap.extractVisSpans (payload [rawSpan "a" "" 0 100; rawSpan "x" "constructor" 1 2]) =
  inl JsObject.TypeError.
Proof. vm_compute. reflexivity. Qed.

(** * Further properties of the layout engine *)

(** ** What the sort gives *)

Section SortFacts.
Context {A : Type} (cmp : A -> A -> Z).

(** [b] does not come strictly before [a]. *)
Definition inOrder (a b : A) : Prop := ~ cmp b a < 0.

Hypothesis cmp_asym : forall a b, cmp a b < 0 -> ~ cmp b a < 0.
Hypothesis cmp_trans : forall a b c, cmp a b < 0 -> cmp b c < 0 -> cmp a c < 0.

Lemma insertSorted_In x l z : In z (insertSorted cmp x l) -> z = x \/ In z l.
Proof.
  intros H. apply (Permutation_in _ (insertSorted_perm cmp x l)) in H.
  destruct H as [<-|H]; [left; reflexivity | right; exact H].
Qed.

Lemma insertSorted_sorted x l :
  StronglySorted inOrder l -> StronglySorted inOrder (insertSorted cmp x l).
Proof.
  induction 1 as [|y l Hl IH Hy]; simpl; [repeat constructor|].
  destruct (Z.ltb_spec (cmp x y) 0) as [Hlt|Hge].
  - constructor; [constructor; assumption|].
    constructor; [apply cmp_asym, Hlt|].
    rewrite List.Forall_forall in Hy. apply List.Forall_forall. intros z Hz Hzx.
    apply (Hy z Hz). eapply cmp_trans; eassumption.
  - constructor; [exact IH|].
    apply List.Forall_forall. intros z Hz. apply insertSorted_In in Hz.
    destruct Hz as [->|Hz]; [unfold inOrder; lia|].
    rewrite List.Forall_forall in Hy. apply Hy, Hz.
Qed.

Lemma sortBy_sorted l : StronglySorted inOrder (sortBy cmp l).
Proof.
  unfold sortBy. assert (H : StronglySorted inOrder (@nil A)) by constructor.
  revert H. generalize (@nil A) as acc.
  induction l as [|x l IH]; intros acc Hacc; simpl; [exact Hacc|].
  apply IH, insertSorted_sorted, Hacc.
Qed.

End SortFacts.

Section SortByKey.
Context {A : Type} (key : A -> Z).

Definition byKey (a b : A) : Z := key a - key b.

Lemma sortBy_key_sorted l :
  StronglySorted (fun a b => key a <= key b) (sortBy byKey l).
Proof.
  assert (H : StronglySorted (inOrder byKey) (sortBy byKey l)).
  { apply sortBy_sorted; unfold byKey; intros; lia. }
  induction H as [|a l' _ IH Ha]; constructor; [exact IH|].
  eapply List.Forall_impl; [|exact Ha]. unfold inOrder, byKey. intros b Hb. lia.
Qed.

Lemma insertSorted_key_filter k x l :
  StronglySorted (fun a b => key a <= key b) l ->
  List.filter (fun a => key a =? k) (insertSorted byKey x l) =
  List.filter (fun a => key a =? k) l ++ List.filter (fun a => key a =? k) [x].
Proof.
  induction 1 as [|y l Hl IH Hy]; [reflexivity|]. cbn [insertSorted].
  destruct (Z.ltb_spec (byKey x y) 0) as [Hlt|Hge].
  - unfold byKey in Hlt. cbn [List.filter].
    destruct (Z.eqb_spec (key x) k) as [Hk|Hk]; [|rewrite app_nil_r; reflexivity].
    destruct (Z.eqb_spec (key y) k) as [Hyk|_]; [lia|].
    assert (Hnone : List.filter (fun a => key a =? k) l = []).
    { clear -Hy Hlt Hk. induction Hy as [|z l Hz _ IHl]; [reflexivity|]. simpl.
      destruct (Z.eqb_spec (key z) k); [lia | exact IHl]. }
    rewrite Hnone. reflexivity.
  - cbn [List.filter]. rewrite IH.
    destruct (key y =? k); reflexivity.
Qed.

Lemma sortBy_key_stable k l :
  List.filter (fun a => key a =? k) (sortBy byKey l) = List.filter (fun a => key a =? k) l.
Proof.
  unfold sortBy.
  assert (Hgen : forall acc,
    StronglySorted (fun a b => key a <= key b) acc ->
    StronglySorted (fun a b => key a <= key b)
                   (fold_left (fun acc x => insertSorted byKey x acc) l acc) /\
    List.filter (fun a => key a =? k) (fold_left (fun acc x => insertSorted byKey x acc) l acc) =
    List.filter (fun a => key a =? k) acc ++ List.filter (fun a => key a =? k) l).
  { induction l as [|x l IH]; intros acc Hacc; simpl.
    - split; [exact Hacc | rewrite app_nil_r; reflexivity].
    - assert (Hins : StronglySorted (fun a b => key a <= key b) (insertSorted byKey x acc)).
      { clear IH. induction Hacc as [|y acc Hacc IHacc Hy]; simpl; [repeat constructor|].
        destruct (Z.ltb_spec (byKey x y) 0) as [Hlt|Hge]; unfold byKey in *.
        - constructor; [constructor; assumption|]. constructor; [lia|].
          eapply List.Forall_impl; [|exact Hy]. simpl. intros; lia.
        - constructor; [exact IHacc|]. apply List.Forall_forall. intros z Hz.
          apply (Permutation_in _ (insertSorted_perm _ x acc)) in Hz.
          destruct Hz as [<-|Hz]; [lia|]. rewrite List.Forall_forall in Hy. apply Hy, Hz. }
      destruct (IH _ Hins) as [H1 H2]. split; [exact H1|].
      rewrite H2, (insertSorted_key_filter k x acc Hacc), <- app_assoc. simpl.
      destruct (key x =? k); reflexivity. }
  apply (Hgen [] ltac:(constructor)).
Qed.

End SortByKey.

Lemma byStartTime_byKey : byStartTime = byKey startTime.
Proof. reflexivity. Qed.

(** ** The collision test does not depend on the order of the pair *)

(** X1.  [isColliding] gives the same answer whichever of the two spans (with
    its box) comes first: testing a sibling against the earlier ones is
    testing the earlier ones against it. *)
Theorem isColliding_sym (span1 span2 : VisSpan) (bbox1 bbox2 : SpanBoundingBox) :
  isColliding span1 bbox1 span2 bbox2 = isColliding span2 bbox2 span1 bbox1.
Proof.
  unfold isColliding.
  rewrite (isCollidingInAxis_sym (startTime span1)).
  rewrite (isCollidingInAxis_sym (Z.of_N (height_level span1))).
  reflexivity.
Qed.

(** ** Every bar of a lane is drawn within the lane's height *)

Lemma top_le_fold (cs : list VisSpan) c :
  In c cs ->
  (height_level c + extent c <=
   fold_right N.max 0 (map (fun c => height_level c + extent c) cs))%N.
Proof.
  induction cs as [|c' cs IH]; intros Hc; [destruct Hc|].
  simpl. destruct Hc as [->|Hc]; [lia|]. specialize (IH Hc). lia.
Qed.

Lemma arrangeSpans_height spans :
  spans <> [] ->
  height (snd (arrangeSpans spans)) =
  fold_right N.max 0%N
             (map (fun c => height_level c + extent c)%N (fst (arrangeSpans spans))).
Proof.
  intros Hne. destruct (arrangeSiblings_laid (map arrangeSpan spans)) as (_ & _ & Hh).
  - apply Forall_map, List.Forall_forall. intros s _. apply arrangeSpan_laid.
  - apply Forall_map, List.Forall_forall. intros s _. apply arrangeSpan_laid.
  - apply Hh. destruct spans; [congruence | discriminate].
Qed.

(** X2.  Every span that [DrawSpan] draws for a lane, at whatever depth, is
    on a row below the height of the lane's bounding box: the area
    [DrawNodeSpans] reserves ([bbox.height] rows) holds all the bars. *)
Theorem rows_within_lane_height (spans : list VisSpan) (a : VisSpan * nat * N) :
  In a (drawLane (fst (arrangeSpans spans))) ->
  (snd a < height (snd (arrangeSpans spans)))%N.
Proof.
  intros Ha. unfold drawLane in Ha. apply in_flat_map in Ha.
  destruct Ha as (c & Hc & Ha).
  destruct (draw_members c _ _ _ Ha) as [_ Hrow].
  assert (Hne : spans <> []).
  { intros ->. destruct Hc. }
  rewrite (arrangeSpans_height spans Hne).
  pose proof (top_le_fold _ c Hc). lia.
Qed.

Lemma rows_within_lane_height_witness :
  let A1 := mkVisSpan "A1" "A1" 0 100 "A" [] [] (mkResource []) [] 0 in
  let A := mkVisSpan "A" "A" 0 10 "" [A1] [] (mkResource []) [] 0 in
  let B := mkVisSpan "B" "B" 5 60 "" [] [] (mkResource []) [] 0 in
  let r := arrangeSpans [A; B] in
  In (setLevel B 3, 0%nat, 3%N) (drawLane (fst r)) /\ (3 < height (snd r))%N.
Proof.
  intros A1 A B r.
  assert (H : In (setLevel B 3, 0%nat, 3%N) (drawLane (fst r))).
  { right. right. left. reflexivity. }
  split; [exact H|]. exact (rows_within_lane_height [A; B] _ H).
Defined.

(** ** Siblings that do not overlap in time are not moved *)

Definition timesApart (a b : VisSpan) : Prop :=
  isCollidingInAxis (startTime a) (endTime a) (startTime b) (endTime b) = false.

Lemma collidesWithEarlier_timesApart earlier cur box l :
  Forall (fun e => timesApart cur (fst e)) earlier ->
  collidesWithEarlier earlier cur box l = false.
Proof.
  unfold collidesWithEarlier. induction 1 as [|e rest He _ IH]; [reflexivity|].
  simpl. rewrite IH, orb_false_r. unfold isColliding, timesApart in *.
  destruct cur; simpl in *. rewrite He. reflexivity.
Qed.

Lemma placeSiblings_not_moved todo : forall placed,
  (forall e p, In e todo -> In p placed -> timesApart (fst e) (fst p)) ->
  ForallOrdPairs (fun e1 e2 => timesApart (fst e2) (fst e1)) todo ->
  placeSiblings placed todo = placed ++ todo.
Proof.
  induction todo as [|[cur box] rest IH]; intros placed Hcross Hpairs; simpl.
  - symmetry. apply app_nil_r.
  - inversion Hpairs as [|? ? Hhead Htail]; subst.
    rewrite bump_step, collidesWithEarlier_timesApart, setLevel_same.
    + rewrite IH; [rewrite <- app_assoc; reflexivity | | exact Htail].
      intros e p He Hp. apply in_app_iff in Hp. destruct Hp as [Hp|[<-|[]]].
      * apply Hcross; [right; exact He | exact Hp].
      * rewrite List.Forall_forall in Hhead. apply (Hhead e He).
    + apply List.Forall_forall. intros p Hp. apply (Hcross (cur, box) p); [left; reflexivity | exact Hp].
Qed.

Lemma arrangeSpan_times_kept span :
  startTime (fst (arrangeSpan span)) = startTime span /\
  endTime (fst (arrangeSpan span)) = endTime span.
Proof. rewrite arrangeSpan_eq. destruct (children span); split; reflexivity. Qed.

(** X3.  When no two spans of a sibling list overlap in time (closed-interval
    test on their own intervals), [arrangeSpans] moves none of them: every
    sibling keeps the level it had, and the list it leaves is the list of
    the siblings as [arrangeSpan] leaves each. *)
Theorem time_disjoint_siblings_not_moved (spans : list VisSpan) :
  ForallOrdPairs timesApart spans ->
  fst (arrangeSpans spans) = map (fun s => fst (arrangeSpan s)) spans /\
  map height_level (fst (arrangeSpans spans)) = map height_level spans.
Proof.
  intros Hpairs.
  assert (Hfst : fst (arrangeSpans spans) = map (fun s => fst (arrangeSpan s)) spans).
  { unfold arrangeSpans, arrangeSiblings.
    destruct (map arrangeSpan spans) as [|first rest] eqn:Hmap.
    - destruct spans; [reflexivity | discriminate].
    - cbn [fst]. rewrite <- Hmap. rewrite placeSiblings_not_moved.
      + cbn [app]. rewrite map_map. reflexivity.
      + intros e p _ [].
      + clear Hmap. induction Hpairs as [|s l Hs _ IH]; simpl; constructor; [|exact IH].
        apply Forall_map. eapply List.Forall_impl; [|exact Hs].
        intros b Hb. unfold timesApart in *.
        destruct (arrangeSpan_times_kept s) as [-> ->].
        destruct (arrangeSpan_times_kept b) as [-> ->].
        rewrite isCollidingInAxis_sym. exact Hb. }
  split; [exact Hfst|]. rewrite Hfst, map_map.
  apply map_ext. intros s. apply arrangeSpan_level.
Qed.

Lemma time_disjoint_siblings_not_moved_witness :
  let A := mkVisSpan "A" "A" 0 50 "" [] [] (mkResource []) [] 0 in
  let B := mkVisSpan "B" "B" 60 100 "" [] [] (mkResource []) [] 0 in
  ForallOrdPairs timesApart [A; B] /\
  map height_level (fst (arrangeSpans [A; B])) = [0%N; 0%N].
Proof.
  intros A B.
  assert (H : ForallOrdPairs timesApart [A; B]).
  { repeat constructor. }
  split; [exact H|]. exact (proj2 (time_disjoint_siblings_not_moved [A; B] H)).
Defined.

(** ** A second pass changes nothing *)

Lemma withChildren_setLevel span cs l :
  withChildren (setLevel span l) cs = setLevel (withChildren span cs) l.
Proof. destruct span; reflexivity. Qed.

Lemma arrangeSpan_setLevel span l :
  arrangeSpan (setLevel span l) =
  (setLevel (fst (arrangeSpan span)) l, snd (arrangeSpan span)).
Proof.
  rewrite (arrangeSpan_eq (setLevel span l)), (arrangeSpan_eq span).
  replace (children (setLevel span l)) with (children span) by (destruct span; reflexivity).
  destruct (children span) as [|c cs].
  - destruct span; reflexivity.
  - cbv zeta. cbn [fst snd]. rewrite withChildren_setLevel.
    destruct span; reflexivity.
Qed.

Lemma placeSiblings_settled todo : forall placed,
  collisionFree (placed ++ todo) -> placeSiblings placed todo = placed ++ todo.
Proof.
  induction todo as [|[cur box] rest IH]; intros placed Hfree; simpl.
  - symmetry. apply app_nil_r.
  - assert (Hno : collidesWithEarlier placed cur box (height_level cur) = false).
    { unfold collidesWithEarlier. rewrite setLevel_same.
      destruct (existsb _ placed) eqn:Hex; [|reflexivity].
      apply existsb_exists in Hex. destruct Hex as (e & He & Hc).
      apply list_elem_of_In, list_elem_of_lookup in He. destruct He as [i Hi].
      unfold collisionFree in Hfree.
      assert (Hilt : (i < length placed)%nat) by (eapply lookup_lt_Some, Hi).
      pose proof (ForallOrdPairs_lookup _ _ Hfree i (length placed) e (cur, box)
                    Hilt) as H.
      rewrite lookup_app_l in H by exact Hilt.
      rewrite list_lookup_middle in H by reflexivity.
      specialize (H Hi eq_refl). cbn [fst snd] in H. congruence. }
    rewrite bump_step, Hno, setLevel_same.
    rewrite IH; rewrite <- app_assoc; [reflexivity | exact Hfree].
Qed.

Lemma arrangeSiblings_again boxed :
  Forall (fun e => arrangeSpan (fst e) = e) boxed ->
  arrangeSiblings (map arrangeSpan (fst (arrangeSiblings boxed))) = arrangeSiblings boxed.
Proof.
  intros Hfix. destruct boxed as [|[s b] rest]; [reflexivity|].
  unfold arrangeSiblings at 2 3. cbn [fst].
  set (placed := placeSiblings [] ((s, b) :: rest)).
  assert (Hplaced : map arrangeSpan (map fst placed) = placed).
  { destruct (placeSiblings_relevel ((s, b) :: rest) []) as (tail & Heq & Hrel).
    fold placed in Heq. simpl in Heq. rewrite Heq. clear -Hrel Hfix.
    induction Hrel as [|e e' l l' (Hb & lv & Hs & _) _ IH]; [reflexivity|].
    inversion Hfix as [|? ? He Hl]; subst. simpl. rewrite (IH Hl). f_equal.
    rewrite Hs, arrangeSpan_setLevel, He. destruct e'; simpl in *. congruence. }
  rewrite Hplaced.
  destruct (placeSiblings_first s b rest) as (tail' & Heq' & _). fold placed in Heq'.
  assert (Hsettled : placeSiblings [] placed = placed).
  { apply (placeSiblings_settled placed []). simpl.
    apply placeSiblings_collisionFree. constructor. }
  clearbody placed. subst placed.
  unfold arrangeSiblings. rewrite Hsettled. reflexivity.
Qed.

Lemma arrangeSpan_internal span :
  children span <> [] ->
  arrangeSpan span =
  (withChildren span (fst (arrangeSpans (children span))),
   {| start_time := Z.min (startTime span) (start_time (snd (arrangeSpans (children span))));
      end_time := Z.max (endTime span) (end_time (snd (arrangeSpans (children span))));
      height := height (snd (arrangeSpans (children span))) + 1 |}).
Proof.
  intros Hne. rewrite arrangeSpan_eq. destruct (children span); [congruence | reflexivity].
Qed.

Lemma arrangeSpan_again span : arrangeSpan (fst (arrangeSpan span)) = arrangeSpan span.
Proof.
  induction span as [span IH] using VisSpan_forall_ind.
  destruct (children span) as [|c cs] eqn:Hcs.
  - rewrite (arrangeSpan_eq span), Hcs. cbn [fst]. rewrite arrangeSpan_eq, Hcs. reflexivity.
  - assert (Hne : children span <> []) by (rewrite Hcs; discriminate).
    rewrite (arrangeSpan_internal span Hne). cbn [fst]. rewrite Hcs.
    assert (Hagain : arrangeSpans (fst (arrangeSpans (c :: cs))) = arrangeSpans (c :: cs)).
    { unfold arrangeSpans. apply arrangeSiblings_again.
      apply Forall_map. eapply List.Forall_impl; [|exact IH]. intros s Hs. exact Hs. }
    assert (Hch : children (withChildren span (fst (arrangeSpans (c :: cs)))) =
                  fst (arrangeSpans (c :: cs))) by (destruct span; reflexivity).
    rewrite arrangeSpan_internal.
    + rewrite Hch, Hagain. destruct span; reflexivity.
    + rewrite Hch. destruct (arrangeSpans_cons c cs) as (tail & Heq & _).
      rewrite Heq. discriminate.
Qed.

(** X4.  The layout is stable under a second pass: laying out the spans a
    pass has left (the same list again, or a subtree again) moves no span
    and returns the same bounding box. *)
Theorem layout_idempotent :
  (forall spans, arrangeSpans (fst (arrangeSpans spans)) = arrangeSpans spans) /\
  (forall span, arrangeSpan (fst (arrangeSpan span)) = arrangeSpan span).
Proof.
  split; [|exact arrangeSpan_again].
  intros spans. unfold arrangeSpans. apply arrangeSiblings_again.
  apply Forall_map, List.Forall_forall. intros s _. apply arrangeSpan_again.
Qed.

(** * Events of a clicked span, and the span filter *)

(** ** collectEvents and ClickedSpanInfo *)

Fixpoint collectEvents (span : VisSpan) : list Event :=
  events span ++ flat_map collectEvents (children span).

(** The events [ClickedSpanInfo] lists: those of the span, with those of its
    descendants if asked, sorted by [a.timeUnixNano - b.timeUnixNano]. *)
Definition clickedSpanEvents (span : VisSpan) (includeChildEvents : bool) : list Event :=
  sortBy (byKey timeUnixNano)
         (if includeChildEvents then collectEvents span else events span).

Lemma collectEvents_eq span :
  collectEvents span = events span ++ flat_map collectEvents (children span).
Proof. destruct span; reflexivity. Qed.

Lemma collectEvents_subtree span :
  collectEvents span = flat_map events (subtree span).
Proof.
  induction span as [span IH] using VisSpan_forall_ind.
  rewrite collectEvents_eq, subtree_eq. cbn [flat_map]. f_equal.
  unfold forest. induction IH as [|c cs Hc _ IHcs]; simpl; [reflexivity|].
  rewrite flat_map_app, Hc, IHcs. reflexivity.
Qed.

(** X5.  [collectEvents] returns the events of the span and of all its
    descendants, each once, in the order of a root-first traversal; the list
    [ClickedSpanInfo] shows is these events, or the span's own when the
    child events are left out, ordered by time, and in both cases events of
    equal time keep the order they had. *)
Theorem clicked_span_events (span : VisSpan) :
  collectEvents span = flat_map events (subtree span) /\
  (forall includeChildEvents,
      StronglySorted (fun a b => timeUnixNano a <= timeUnixNano b)
                     (clickedSpanEvents span includeChildEvents)) /\
  Permutation (clickedSpanEvents span true) (flat_map events (subtree span)) /\
  Permutation (clickedSpanEvents span false) (events span) /\
  (forall t, List.filter (fun e => timeUnixNano e =? t) (clickedSpanEvents span true) =
             List.filter (fun e => timeUnixNano e =? t) (flat_map events (subtree span))) /\
  (forall t, List.filter (fun e => timeUnixNano e =? t) (clickedSpanEvents span false) =
             List.filter (fun e => timeUnixNano e =? t) (events span)).
Proof.
  unfold clickedSpanEvents. split; [apply collectEvents_subtree|].
  split; [intros b; apply sortBy_key_sorted|].
  split; [rewrite <- collectEvents_subtree; apply sortBy_perm|].
  split; [apply sortBy_perm|].
  split.
  - intros t. rewrite <- collectEvents_subtree. apply sortBy_key_stable.
  - intros t. apply sortBy_key_stable.
Qed.

(** ** filterSpans *)

(** The values of the enum [SpanFilterDecision]; a filter returns a number. *)
Definition Keep : Z := 0.
Definition DeleteSpanAndChildren : Z := 1.

(** The loop of [filterSpans], [res] being the spans pushed so far; an
    unknown decision throws. *)
Fixpoint filterLoop (filter : VisSpan -> Z) (spans res : list VisSpan)
  : string + list VisSpan :=
  match spans with
  | [] => inr res
  | span :: rest =>
      let decision := filter span in
      if decision =? Keep then filterLoop filter rest (res ++ [span])
      else if decision =? DeleteSpanAndChildren then filterLoop filter rest res
      else inl "Unknown SpanFilterDecision"%string
  end.

Definition filterSpans (spans : list VisSpan) (filter : VisSpan -> Z)
  : string + list VisSpan :=
  filterLoop filter spans [].

Definition knownDecision (d : Z) : Prop := d = Keep \/ d = DeleteSpanAndChildren.

Lemma filterLoop_known filter spans : forall res,
  Forall (fun span => knownDecision (filter span)) spans ->
  filterLoop filter spans res =
  inr (res ++ List.filter (fun span => filter span =? Keep) spans).
Proof.
  induction spans as [|span rest IH]; intros res Hall; simpl.
  - rewrite app_nil_r. reflexivity.
  - inversion Hall as [|? ? Hs Hrest]; subst.
    destruct Hs as [Hs|Hs]; rewrite Hs; simpl.
    + rewrite IH by exact Hrest. rewrite <- app_assoc. reflexivity.
    + apply IH, Hrest.
Qed.

Lemma filterLoop_unknown filter spans : forall res,
  Exists (fun span => ~ knownDecision (filter span)) spans ->
  filterLoop filter spans res = inl "Unknown SpanFilterDecision"%string.
Proof.
  induction spans as [|span rest IH]; intros res Hex; [inversion Hex|]. simpl.
  destruct (Z.eqb_spec (filter span) Keep) as [Hk|Hk].
  - apply IH. inversion Hex as [? ? H|? ? H]; subst; [|exact H].
    exfalso. apply H. left. exact Hk.
  - destruct (Z.eqb_spec (filter span) DeleteSpanAndChildren) as [Hd|Hd]; [|reflexivity].
    apply IH. inversion Hex as [? ? H|? ? H]; subst; [|exact H].
    exfalso. apply H. right. exact Hd.
Qed.

(** X6.  [filterSpans] keeps, in their order and each with its whole
    subtree, exactly the listed spans for which the filter says Keep, when
    the filter says Keep or DeleteSpanAndChildren for every listed span; it
    throws "Unknown SpanFilterDecision" as soon as the filter says anything
    else for one of them.  The filter is asked about the listed spans only,
    never about their descendants. *)
Theorem filterSpans_keeps_or_throws (spans : list VisSpan) (filter : VisSpan -> Z) :
  (Forall (fun span => knownDecision (filter span)) spans ->
   filterSpans spans filter = inr (List.filter (fun span => filter span =? Keep) spans)) /\
  (Exists (fun span => ~ knownDecision (filter span)) spans ->
   filterSpans spans filter = inl "Unknown SpanFilterDecision"%string) /\
  (forall filter', (forall span, In span spans -> filter' span = filter span) ->
                   filterSpans spans filter' = filterSpans spans filter).
Proof.
  unfold filterSpans. split; [|split].
  - intros H. rewrite filterLoop_known by exact H. reflexivity.
  - apply filterLoop_unknown.
  - intros filter' Hsame. generalize (@nil VisSpan) as res.
    induction spans as [|span rest IH]; intros res; [reflexivity|]. simpl.
    rewrite (Hsame span) by (left; reflexivity).
    assert (Hrest : forall s, In s rest -> filter' s = filter s).
    { intros s Hs. apply Hsame. right. exact Hs. }
    rewrite !(IH Hrest). reflexivity.
Qed.

(** * Properties of the lane grouper *)

(** The top-level spans of a service, in the order given. *)
Definition ofService (n : string) (spans : list VisSpan) : list VisSpan :=
  List.filter (fun span => String.eqb (serviceName span) n) spans.

Definition laneName (lane : NodeSpans) : string := node_name (node lane).

(** What the first loop of [getNodeSpans] has built after the spans [pre]. *)
Record grouped (pre : list VisSpan)
       (g : list (string * VisNode) * gmap string (list VisSpan)) : Prop := mkGrouped {
  grouped_spans : forall n,
    snd g !! n = match ofService n pre with [] => None | l => Some l end;
  grouped_nodup : List.NoDup (map fst (fst g));
  grouped_names : forall n, In n (map fst (fst g)) <-> ofService n pre <> [];
  grouped_nodes : Forall (fun e => snd e = {| node_name := fst e; node_attributes := [] |})
                         (fst g) }.

Lemma addNode_existsb nodes n :
  existsb (fun e : string * VisNode => String.eqb (fst e) n) nodes = true <->
  In n (map fst nodes).
Proof.
  rewrite existsb_exists, in_map_iff. split.
  - intros (e & He & Heq). apply String.eqb_eq in Heq. exists e. split; assumption.
  - intros (e & Heq & He). exists e. split; [exact He | apply String.eqb_eq, Heq].
Qed.

Lemma ofService_snoc n pre span :
  ofService n (pre ++ [span]) =
  ofService n pre ++ (if String.eqb (serviceName span) n then [span] else []).
Proof. unfold ofService. rewrite List.filter_app. reflexivity. Qed.

(** A round of the first loop on a name that is no [Object.prototype] name. *)
Lemma grouped_step pre g span :
  grouped pre g ->
  JsObject.isPrototypeName (serviceName span) = false ->
  exists m, addSpan (snd g) (serviceName span) span = inr m /\
            grouped (pre ++ [span]) (addNode (fst g) (serviceName span), m).
Proof.
  intros [Hsp Hnd Hnm Hno] Hp.
  exists (match snd g !! serviceName span with
          | Some l => <[serviceName span := l ++ [span]]> (snd g)
          | None => <[serviceName span := [span]]> (snd g)
          end).
  split.
  { unfold addSpan. destruct (snd g !! serviceName span); [reflexivity|].
    rewrite Hp. reflexivity. }
  assert (Hadd : addNode (fst g) (serviceName span) =
                 if existsb (fun e => String.eqb (fst e) (serviceName span)) (fst g)
                 then fst g
                 else fst g ++ [(serviceName span,
                                 {| node_name := serviceName span; node_attributes := [] |})]).
  { unfold addNode. rewrite Hp, orb_false_r. reflexivity. }
  rewrite Hadd. clear Hadd Hp.
  constructor; cbn [fst snd].
  + intros n. rewrite ofService_snoc. specialize (Hsp n).
    destruct (String.eqb_spec (serviceName span) n) as [->|Hne].
    * rewrite Hsp. destruct (ofService n pre) as [|x l].
      -- rewrite lookup_insert_eq. reflexivity.
      -- rewrite lookup_insert_eq. reflexivity.
    * rewrite app_nil_r.
      destruct (snd g !! serviceName span); rewrite lookup_insert_ne by exact Hne; exact Hsp.
  + destruct (existsb _ (fst g)) eqn:Hex; [exact Hnd|].
    rewrite map_app. cbn [map fst].
    apply List.NoDup_app; [exact Hnd | constructor; [simpl; tauto | constructor] |].
    intros n Hn [<-|[]]. apply addNode_existsb in Hn. congruence.
  + intros n. rewrite ofService_snoc.
    destruct (existsb _ (fst g)) eqn:Hex.
    * apply addNode_existsb in Hex. rewrite Hnm. rewrite Hnm in Hex.
      destruct (String.eqb_spec (serviceName span) n) as [<-|Hne].
      -- split; [intros _ H; apply app_eq_nil in H; destruct H; discriminate|].
         intros _. exact Hex.
      -- rewrite app_nil_r. tauto.
    * rewrite map_app, in_app_iff, Hnm. cbn [map fst In].
      destruct (String.eqb_spec (serviceName span) n) as [<-|Hne].
      -- split; [intros _ H; apply app_eq_nil in H; destruct H; discriminate|].
         intros _. right. left. reflexivity.
      -- rewrite app_nil_r. split; [intros [H|[H|[]]]; [exact H | contradiction] | tauto].
  + destruct (existsb _ (fst g)); [exact Hno|].
    apply Forall_app. split; [exact Hno | repeat constructor].
Qed.

(** The first loop returns on the lists none of whose service names is the
    name of a property of [Object.prototype], and throws on the others. *)
Lemma groupByNode_spec spans :
  match groupByNode spans with
  | inr g =>
      grouped spans g /\
      Forall (fun span => JsObject.isPrototypeName (serviceName span) = false) spans
  | inl _ => Exists (fun span => JsObject.isPrototypeName (serviceName span) = true) spans
  end.
Proof.
  unfold groupByNode. induction spans as [|span pre IH] using rev_ind.
  - cbn [fold_left]. split; [|constructor].
    constructor; cbn [fst snd map].
    + intros n. rewrite lookup_empty. reflexivity.
    + constructor.
    + intros n. split; [intros [] | intros H; exfalso; apply H; reflexivity].
    + constructor.
  - rewrite fold_left_app. cbn [fold_left].
    destruct (fold_left groupStep pre (inr ([], ∅))) as [e|g]; cbn [groupStep].
    + apply Exists_app. left. exact IH.
    + destruct IH as [Hg Hok]. destruct g as [nodes m].
      destruct (JsObject.isPrototypeName (serviceName span)) eqn:Hp.
      * assert (Hm : m !! serviceName span = None).
        { pose proof (grouped_spans _ _ Hg (serviceName span)) as Hsp. cbn [snd] in Hsp.
          destruct (ofService (serviceName span) pre) as [|x l] eqn:Hof; [exact Hsp|].
          exfalso. assert (Hx : In x (ofService (serviceName span) pre))
            by (rewrite Hof; left; reflexivity).
          apply filter_In in Hx. destruct Hx as [Hx Hname]. apply String.eqb_eq in Hname.
          rewrite List.Forall_forall in Hok. specialize (Hok x Hx). congruence. }
        unfold addSpan. rewrite Hm, Hp. apply Exists_app. right. constructor. exact Hp.
      * destruct (grouped_step pre (nodes, m) span Hg Hp) as (m' & Hadd & Hg').
        cbn [fst snd] in Hadd, Hg'. rewrite Hadd. split; [exact Hg'|].
        apply Forall_app. split; [exact Hok | repeat constructor; exact Hp].
Qed.

(** The lane built for a service name. *)
Definition laneOf (top_level_spans : list VisSpan) (n : string) : NodeSpans :=
  let r := arrangeSpans (sortBy byStartTime (ofService n top_level_spans)) in
  {| node := {| node_name := n; node_attributes := [] |}; spans := fst r; bbox := snd r |}.

Lemma filter_split_perm {A} (f : A -> bool) (l : list A) :
  Permutation (List.filter f l ++ List.filter (fun x => negb (f x)) l) l.
Proof.
  induction l as [|a l IH]; simpl; [constructor|].
  destruct (f a); simpl.
  - constructor. exact IH.
  - rewrite <- Permutation_middle. constructor. exact IH.
Qed.

(** [Object.values] yields every value once. *)
Lemma values_perm {V} (entries : list (string * V)) :
  Permutation (JsObject.values entries) (map snd entries).
Proof.
  unfold JsObject.values. rewrite <- map_app. apply Permutation_map.
  rewrite sortBy_perm. apply filter_split_perm.
Qed.

Lemma laneLoop_lanes top_level_spans (m : gmap string (list VisSpan)) nodes : forall res,
  (forall n, m !! n = match ofService n top_level_spans with [] => None | l => Some l end) ->
  (forall nd, In nd nodes ->
              ofService (node_name nd) top_level_spans <> [] /\
              nd = {| node_name := node_name nd; node_attributes := [] |}) ->
  laneLoop m nodes res =
  inr (res ++ map (fun nd => laneOf top_level_spans (node_name nd)) nodes).
Proof.
  induction nodes as [|nd nodes IH]; intros res Hsp Hall; cbn [laneLoop map].
  - rewrite app_nil_r. reflexivity.
  - destruct (Hall nd (or_introl eq_refl)) as [Hne Hnd].
    rewrite Hsp. destruct (ofService (node_name nd) top_level_spans) as [|x l] eqn:Hof;
      [contradiction|].
    rewrite IH; [|exact Hsp | intros nd' Hin; apply Hall; right; exact Hin].
    rewrite <- app_assoc. cbn [app]. do 3 f_equal.
    unfold laneOf. rewrite Hof, <- Hnd. reflexivity.
Qed.

(** The lanes are the lanes of the names of [nodes_by_name], sorted. *)
Lemma getNodeSpans_lanes (localeCompare : string -> string -> Z) top_level_spans g :
  groupByNode top_level_spans = inr g ->
  grouped top_level_spans g ->
  getNodeSpans localeCompare top_level_spans =
  inr (map (fun node => laneOf top_level_spans (node_name node))
           (sortBy (fun a b => localeCompare (node_name a) (node_name b))
                   (JsObject.values (fst g)))) /\
  Permutation (JsObject.values (fst g))
              (map (fun n => {| node_name := n; node_attributes := [] |}) (map fst (fst g))).
Proof.
  intros Hgroup [Hsp Hnd Hnm Hno].
  assert (Hnodes : map snd (fst g) =
                   map (fun n => {| node_name := n; node_attributes := [] |})
                       (map fst (fst g))).
  { rewrite map_map. clear -Hno. induction Hno as [|e l He _ IH]; simpl; [reflexivity|].
    rewrite He, IH. reflexivity. }
  assert (Hvals : Permutation (JsObject.values (fst g))
                    (map (fun n => {| node_name := n; node_attributes := [] |})
                         (map fst (fst g)))).
  { rewrite <- Hnodes. apply values_perm. }
  split; [|exact Hvals].
  unfold getNodeSpans. rewrite Hgroup. destruct g as [nodes m]. cbn [fst snd] in *.
  rewrite (laneLoop_lanes top_level_spans); [reflexivity | exact Hsp |].
  intros nd Hin. apply (Permutation_in _ (sortBy_perm _ _)) in Hin.
  apply (Permutation_in _ Hvals) in Hin.
  apply in_map_iff in Hin. destruct Hin as (n & <- & Hn).
  split; [apply Hnm, Hn | reflexivity].
Qed.

(** What a returning call has built. *)
Lemma getNodeSpans_inr (localeCompare : string -> string -> Z) top_level_spans lanes :
  getNodeSpans localeCompare top_level_spans = inr lanes ->
  exists g,
    grouped top_level_spans g /\
    lanes = map (fun node => laneOf top_level_spans (node_name node))
                (sortBy (fun a b => localeCompare (node_name a) (node_name b))
                        (JsObject.values (fst g))) /\
    Permutation (JsObject.values (fst g))
                (map (fun n => {| node_name := n; node_attributes := [] |})
                     (map fst (fst g))).
Proof.
  intros H. pose proof (groupByNode_spec top_level_spans) as Hspec.
  destruct (groupByNode top_level_spans) as [e|g] eqn:Hg.
  - unfold getNodeSpans in H. rewrite Hg in H. discriminate.
  - destruct Hspec as [Hgr _].
    destruct (getNodeSpans_lanes localeCompare top_level_spans g Hg Hgr) as [Hl Hn].
    rewrite Hl in H. injection H as <-. exists g. split; [exact Hgr|]. split; [reflexivity|].
    exact Hn.
Qed.

Lemma getNodeSpans_returns (localeCompare : string -> string -> Z) top_level_spans :
  Forall (fun span => JsObject.isPrototypeName (serviceName span) = false) top_level_spans ->
  exists lanes, getNodeSpans localeCompare top_level_spans = inr lanes.
Proof.
  intros Hok. pose proof (groupByNode_spec top_level_spans) as Hspec.
  destruct (groupByNode top_level_spans) as [e|g] eqn:Hg.
  - exfalso. apply List.Exists_exists in Hspec. destruct Hspec as (span & Hin & Hbad).
    rewrite List.Forall_forall in Hok. specialize (Hok span Hin). congruence.
  - destruct Hspec as [Hgr _].
    destruct (getNodeSpans_lanes localeCompare top_level_spans g Hg Hgr) as [Hl _].
    eexists. exact Hl.
Qed.

Lemma getNodeSpans_throws (localeCompare : string -> string -> Z) top_level_spans :
  Exists (fun span => JsObject.isPrototypeName (serviceName span) = true) top_level_spans ->
  getNodeSpans localeCompare top_level_spans = inl JsObject.TypeError.
Proof.
  intros Hbad. pose proof (groupByNode_spec top_level_spans) as Hspec.
  unfold getNodeSpans.
  destruct (groupByNode top_level_spans) as [e|g] eqn:Hg.
  - destruct e. reflexivity.
  - exfalso. destruct Hspec as [_ Hok].
    apply List.Exists_exists in Hbad. destruct Hbad as (span & Hin & Hp).
    rewrite List.Forall_forall in Hok. specialize (Hok span Hin). congruence.
Qed.


(** ** Every top-level span is in the lane of its service *)

Lemma flat_map_pointwise_perm {A B} (g h : A -> list B) l :
  (forall a, In a l -> Permutation (g a) (h a)) ->
  Permutation (flat_map g l) (flat_map h l).
Proof.
  induction l as [|a l IH]; intros H; simpl; [constructor|].
  apply Permutation_app; [apply H; left; reflexivity|].
  apply IH. intros b Hb. apply H. right. exact Hb.
Qed.

Lemma flat_map_singleton_name span names :
  List.NoDup names -> In (serviceName span) names ->
  flat_map (fun n => if String.eqb (serviceName span) n then [span] else []) names = [span].
Proof.
  induction 1 as [|n names Hn _ IH]; intros Hin; [destruct Hin|]. simpl.
  destruct (String.eqb_spec (serviceName span) n) as [Heq|Hne].
  - simpl. f_equal. subst n. clear -Hn.
    induction names as [|m names IH]; [reflexivity|]. simpl.
    destruct (String.eqb_spec (serviceName span) m) as [Heq|_].
    + exfalso. apply Hn. left. symmetry. exact Heq.
    + apply IH. intros H. apply Hn. right. exact H.
  - destruct Hin as [->|Hin]; [congruence|]. apply IH, Hin.
Qed.

(** Splitting a list of spans by service name loses and repeats nothing. *)
Lemma ofService_partition names spans :
  List.NoDup names -> (forall span, In span spans -> In (serviceName span) names) ->
  Permutation (flat_map (fun n => ofService n spans) names) spans.
Proof.
  intros Hnd. induction spans as [|span rest IH]; intros Hcover.
  - assert (Hnil : forall l : list string, flat_map (fun n => ofService n []) l = []).
    { induction l as [|n l IHl]; [reflexivity | exact IHl]. }
    rewrite Hnil. constructor.
  - assert (Hsplit : forall l,
      Permutation (flat_map (fun n => ofService n (span :: rest)) l)
                  (flat_map (fun n => if String.eqb (serviceName span) n then [span] else []) l
                   ++ flat_map (fun n => ofService n rest) l)).
    { induction l as [|n l IHl]; simpl; [constructor|].
      rewrite IHl. destruct (String.eqb (serviceName span) n); simpl.
      - constructor. rewrite !app_assoc. apply Permutation_app_tail, Permutation_app_comm.
      - rewrite !app_assoc. apply Permutation_app_tail, Permutation_app_comm. }
    rewrite Hsplit, flat_map_singleton_name; [|exact Hnd | apply Hcover; left; reflexivity].
    simpl. constructor. apply IH. intros s Hs. apply Hcover. right. exact Hs.
Qed.

Lemma countDisplayedSpansRec_erase span :
  countDisplayedSpansRec (eraseLevels span) = countDisplayedSpansRec span.
Proof.
  induction span as [span IH] using VisSpan_forall_ind.
  destruct span as [? ? ? ? ? cs ? ? ? ?]. simpl in *. f_equal.
  induction IH as [|c cs Hc _ IHcs]; simpl; [reflexivity|]. rewrite Hc, IHcs. reflexivity.
Qed.

Lemma count_by_erased l1 l2 :
  Permutation (map eraseLevels l1) (map eraseLevels l2) ->
  list_sum (map countDisplayedSpansRec l1) = list_sum (map countDisplayedSpansRec l2).
Proof.
  intros H.
  assert (Hc : forall l, map countDisplayedSpansRec l =
                         map countDisplayedSpansRec (map eraseLevels l)).
  { intros l. rewrite map_map. apply map_ext. intros s. symmetry.
    apply countDisplayedSpansRec_erase. }
  rewrite (Hc l1), (Hc l2). apply Permutation_list_sum, Permutation_map, H.
Qed.

Section LaneTheorems.
Variable localeCompare : string -> string -> Z.

Lemma lane_of_list top_level_spans lanes lane :
  getNodeSpans localeCompare top_level_spans = inr lanes ->
  In lane lanes ->
  lane = laneOf top_level_spans (laneName lane) /\
  ofService (laneName lane) top_level_spans <> [].
Proof.
  intros Hret Hin.
  destruct (getNodeSpans_inr _ _ _ Hret) as (g & [_ _ Hnm _] & -> & Hn).
  apply in_map_iff in Hin. destruct Hin as (nd & <- & Hnd).
  split; [reflexivity|]. unfold laneName, laneOf. cbn [node node_name].
  apply (Permutation_in _ (sortBy_perm _ _)) in Hnd.
  apply (Permutation_in _ Hn) in Hnd.
  apply in_map_iff in Hnd. destruct Hnd as (n & <- & Hin). apply Hnm, Hin.
Qed.

Lemma same_erased_sorted (l1 l2 : list VisSpan) :
  map eraseLevels l1 = map eraseLevels l2 ->
  StronglySorted (fun a b => startTime a <= startTime b) l2 ->
  StronglySorted (fun a b => startTime a <= startTime b) l1.
Proof.
  assert (Hst : forall s, startTime (eraseLevels s) = startTime s) by (intros []; reflexivity).
  revert l2. induction l1 as [|a l1 IH]; intros [|b l2] Heq Hs; try discriminate; constructor.
  - simpl in Heq. injection Heq as _ Heq. inversion Hs; subst. eapply IH; eassumption.
  - simpl in Heq. injection Heq as Hab Heq. inversion Hs as [|? ? _ Hb]; subst.
    apply List.Forall_forall. intros x Hx.
    apply (in_map eraseLevels) in Hx. rewrite Heq in Hx. apply in_map_iff in Hx.
    destruct Hx as (y & Hy & Hin). rewrite List.Forall_forall in Hb. specialize (Hb y Hin).
    rewrite <- (Hst a), <- (Hst x), Hab, <- Hy, !Hst. exact Hb.
Qed.

Lemma same_erased_filter (t : Z) (l1 l2 : list VisSpan) :
  map eraseLevels l1 = map eraseLevels l2 ->
  map eraseLevels (List.filter (fun s => startTime s =? t) l1) =
  map eraseLevels (List.filter (fun s => startTime s =? t) l2).
Proof.
  assert (Hst : forall s, startTime (eraseLevels s) = startTime s) by (intros []; reflexivity).
  revert l2. induction l1 as [|a l1 IH]; intros [|b l2] Heq; try discriminate; [reflexivity|].
  simpl in Heq. injection Heq as Hab Heq. simpl.
  rewrite <- (Hst a), Hab, Hst. destruct (startTime b =? t); simpl; [rewrite Hab|];
    rewrite (IH l2 Heq); reflexivity.
Qed.

(** X7.  A lane that [getNodeSpans] returns is never empty and holds exactly
    the top-level spans whose resource has the lane's service name: they are
    ordered by start time, spans of equal start time in the order given, and
    laid out by [arrangeSpans], whose box is the lane's. *)
Theorem lane_contents (top_level_spans : list VisSpan) (lanes : list NodeSpans)
        (lane : NodeSpans) :
  getNodeSpans localeCompare top_level_spans = inr lanes ->
  In lane lanes ->
  let mine := ofService (laneName lane) top_level_spans in
  mine <> [] /\
  spans lane = fst (arrangeSpans (sortBy byStartTime mine)) /\
  bbox lane = snd (arrangeSpans (sortBy byStartTime mine)) /\
  Permutation (map eraseLevels (spans lane)) (map eraseLevels mine) /\
  StronglySorted (fun a b => startTime a <= startTime b) (spans lane) /\
  (forall t, map eraseLevels (List.filter (fun s => startTime s =? t) (spans lane)) =
             map eraseLevels (List.filter (fun s => startTime s =? t) mine)).
Proof.
  intros Hret Hin mine. destruct (lane_of_list _ _ _ Hret Hin) as [Hlane Hname].
  fold mine in Hname.
  assert (Hs : spans lane = fst (arrangeSpans (sortBy byStartTime mine))).
  { rewrite Hlane at 1. reflexivity. }
  pose proof (arrangeSpans_erase (sortBy byStartTime mine)) as Her. rewrite <- Hs in Her.
  split; [exact Hname|]. split; [exact Hs|].
  split; [rewrite Hlane at 1; reflexivity|].
  split; [rewrite Her; apply Permutation_map, sortBy_perm|].
  split.
  - eapply same_erased_sorted; [exact Her|]. rewrite byStartTime_byKey. apply sortBy_key_sorted.
  - intros t. rewrite (same_erased_filter t _ _ Her). f_equal.
    rewrite byStartTime_byKey. apply sortBy_key_stable.
Qed.

Lemma lanes_names top_level_spans lanes :
  getNodeSpans localeCompare top_level_spans = inr lanes ->
  List.NoDup (map laneName lanes) /\
  (forall span, In span top_level_spans -> In (serviceName span) (map laneName lanes)).
Proof.
  intros Hret.
  destruct (getNodeSpans_inr _ _ _ Hret) as (g & [_ Hnd Hnm _] & -> & Hn).
  assert (Hnames : Permutation
            (map laneName
                 (map (fun node => laneOf top_level_spans (node_name node))
                      (sortBy (fun a b => localeCompare (node_name a) (node_name b))
                              (JsObject.values (fst g)))))
            (map fst (fst g))).
  { rewrite map_map. unfold laneName, laneOf. cbn [node node_name].
    rewrite (sortBy_perm _ (JsObject.values (fst g))), Hn, map_map.
    cbn [node_name]. rewrite map_id. reflexivity. }
  split.
  - eapply Permutation_NoDup; [symmetry; exact Hnames | exact Hnd].
  - intros span Hspan. apply (Permutation_in _ (Permutation_sym Hnames)).
    apply Hnm. intros Hnil.
    assert (Hmem : In span (ofService (serviceName span) top_level_spans)).
    { apply filter_In. split; [exact Hspan | apply String.eqb_refl]. }
    rewrite Hnil in Hmem. destruct Hmem.
Qed.

Lemma lanes_erased top_level_spans lanes :
  getNodeSpans localeCompare top_level_spans = inr lanes ->
  Permutation (map eraseLevels (flat_map spans lanes)) (map eraseLevels top_level_spans).
Proof.
  intros Hret.
  destruct (getNodeSpans_inr _ _ _ Hret) as (g & [_ Hnd Hnm _] & -> & Hn).
  rewrite map_flat_map, flat_map_concat_map, map_map, <- flat_map_concat_map.
  rewrite (sortBy_perm _ (JsObject.values (fst g))), Hn.
  rewrite flat_map_concat_map, map_map, <- flat_map_concat_map.
  assert (Hpart : Permutation (flat_map (fun n => ofService n top_level_spans)
                                        (map fst (fst g)))
                              top_level_spans).
  { apply (ofService_partition _ top_level_spans Hnd).
    intros span Hspan. apply Hnm. intros Hnil.
    assert (Hmem : In span (ofService (serviceName span) top_level_spans)).
    { apply filter_In. split; [exact Hspan | apply String.eqb_refl]. }
    rewrite Hnil in Hmem. destruct Hmem. }
  etransitivity; [|apply Permutation_map, Hpart].
  rewrite map_flat_map. apply flat_map_pointwise_perm. intros n _.
  unfold laneOf. cbn [spans node_name]. rewrite arrangeSpans_erase.
  apply Permutation_map, sortBy_perm.
Qed.

(** X8.  [getNodeSpans] throws a TypeError when the service name of one of
    the spans given is the name of a property of [Object.prototype] (such a
    name is found by [in] in the empty [spans_by_node_name], and what is
    found has no [push]).  On every other list it returns lanes that split
    the top-level spans: no two lanes have the same name, every span given
    has the lane of its service name, and the lanes together hold the spans
    given, each once (with levels written by the layout). *)
Theorem lanes_partition (top_level_spans : list VisSpan) :
  (Exists (fun span => JsObject.isPrototypeName (serviceName span) = true) top_level_spans ->
   getNodeSpans localeCompare top_level_spans = inl JsObject.TypeError) /\
  (Forall (fun span => JsObject.isPrototypeName (serviceName span) = false) top_level_spans ->
   exists lanes,
     getNodeSpans localeCompare top_level_spans = inr lanes /\
     List.NoDup (map laneName lanes) /\
     (forall span, In span top_level_spans ->
                   exists lane, In lane lanes /\ laneName lane = serviceName span) /\
     Permutation (map eraseLevels (flat_map spans lanes)) (map eraseLevels top_level_spans)).
Proof.
  split; [apply getNodeSpans_throws|].
  intros Hok. destruct (getNodeSpans_returns localeCompare _ Hok) as [lanes Hret].
  exists lanes. split; [exact Hret|].
  destruct (lanes_names _ _ Hret) as [Hnd Hcover].
  split; [exact Hnd|]. split; [|apply lanes_erased, Hret].
  intros span Hspan. specialize (Hcover span Hspan).
  apply in_map_iff in Hcover. destruct Hcover as (lane & Hname & Hlane).
  exists lane. split; assumption.
Qed.

(** X9.  When [getNodeSpans] returns, [countDisplayedSpans] of its lanes is
    the number of spans of the forest given, every top-level span counted
    with all its descendants: grouping and layout lose no span and repeat
    none. *)
Theorem displayed_span_count (top_level_spans : list VisSpan) (lanes : list NodeSpans) :
  getNodeSpans localeCompare top_level_spans = inr lanes ->
  countDisplayedSpans lanes = length (forest top_level_spans).
Proof.
  intros Hret.
  unfold countDisplayedSpans. rewrite <- countDisplayedSpans_forest.
  rewrite <- (count_by_erased _ _ (lanes_erased top_level_spans lanes Hret)).
  clear Hret. induction lanes as [|lane lanes IH]; simpl; [reflexivity|].
  rewrite map_app, list_sum_app, IH. reflexivity.
Qed.

Hypothesis localeCompare_asym : forall a b, localeCompare a b < 0 -> ~ localeCompare b a < 0.
Hypothesis localeCompare_trans :
  forall a b c, localeCompare a b < 0 -> localeCompare b c < 0 -> localeCompare a c < 0.

(** X10.  When [localeCompare] orders the names (its "before" is asymmetric
    and transitive), the lanes [getNodeSpans] returns come in that order: no
    lane has a name that comes before the name of an earlier lane. *)
Theorem lanes_sorted_by_name (top_level_spans : list VisSpan) (lanes : list NodeSpans) :
  getNodeSpans localeCompare top_level_spans = inr lanes ->
  StronglySorted (fun a b => ~ localeCompare (laneName b) (laneName a) < 0) lanes.
Proof.
  intros Hret. destruct (getNodeSpans_inr _ _ _ Hret) as (g & _ & -> & _).
  assert (H : StronglySorted (inOrder (fun a b => localeCompare (node_name a) (node_name b)))
                (sortBy (fun a b => localeCompare (node_name a) (node_name b))
                        (JsObject.values (fst g)))).
  { apply sortBy_sorted.
    - intros a b. apply localeCompare_asym.
    - intros a b c. apply localeCompare_trans. }
  clear Hret.
  induction H as [|nd l _ IH Hnd]; simpl; constructor; [exact IH|].
  apply Forall_map. eapply List.Forall_impl; [|exact Hnd].
  intros nd'. unfold inOrder, laneName, laneOf. cbn [node node_name]. tauto.
Qed.

End LaneTheorems.

Definition serviceResource (n : string) : Resource :=
  mkResource [mkKeyValue "service.name" (mkAttributeValue n 0 false 0%Q)].

Definition rootOf (n id : string) (start_ end_ : Z) : VisSpan :=
  mkVisSpan id id start_ end_ "" [] [] (serviceResource n) [] 0.

(** names compared by length *)
Definition byLength (a b : string) : Z :=
  Z.of_nat (String.length a) - Z.of_nat (String.length b).

Definition threeRoots : list VisSpan :=
  [rootOf "node10" "c" 7 9; rootOf "n1" "a" 5 20; rootOf "node10" "d" 0 8].

Lemma lane_contents_witness :
  let lane := laneOf threeRoots "node10" in
  exists lanes,
    getNodeSpans byLength threeRoots = inr lanes /\
    In lane lanes /\
    map name (spans lane) = ["d"; "c"]%string /\
    map height_level (spans lane) = [0; 2]%N.
Proof.
  intros lane.
  eassert (Hret : getNodeSpans byLength threeRoots = inr _) by reflexivity.
  eexists. split; [exact Hret|].
  assert (H : In lane [laneOf threeRoots "n1"; laneOf threeRoots "node10"])
    by (right; left; reflexivity).
  split; [exact H|].
  destruct (lane_contents byLength threeRoots _ lane Hret H) as (_ & Hs & _).
  rewrite Hs. split; reflexivity.
Defined.

Lemma lanes_partition_witness :
  Forall (fun span => JsObject.isPrototypeName (serviceName span) = false) threeRoots /\
  exists lanes,
    getNodeSpans byLength threeRoots = inr lanes /\
    List.NoDup (map laneName lanes) /\
    Permutation (map eraseLevels (flat_map spans lanes)) (map eraseLevels threeRoots).
Proof.
  assert (Hok : Forall (fun span => JsObject.isPrototypeName (serviceName span) = false)
                       threeRoots) by (repeat constructor).
  split; [exact Hok|].
  destruct (proj2 (lanes_partition byLength threeRoots) Hok) as (lanes & Hret & Hnd & _ & Hp).
  exists lanes. split; [exact Hret|]. split; [exact Hnd | exact Hp].
Defined.

Lemma displayed_span_count_witness :
  exists lanes,
    getNodeSpans byLength threeRoots = inr lanes /\
    countDisplayedSpans lanes = 3%nat.
Proof.
  eassert (Hret : getNodeSpans byLength threeRoots = inr _) by reflexivity.
  eexists. split; [exact Hret|].
  exact (displayed_span_count byLength threeRoots _ Hret).
Defined.

Lemma lanes_sorted_by_name_witness :
  (forall a b, byLength a b < 0 -> ~ byLength b a < 0) /\
  (forall a b c, byLength a b < 0 -> byLength b c < 0 -> byLength a c < 0) /\
  exists lanes,
    getNodeSpans byLength [rootOf "node10" "c" 7 9; rootOf "n1" "a" 5 20] = inr lanes /\
    StronglySorted (fun a b => ~ byLength (laneName b) (laneName a) < 0) lanes.
Proof.
  assert (H1 : forall a b, byLength a b < 0 -> ~ byLength b a < 0)
    by (unfold byLength; intros; lia).
  assert (H2 : forall a b c, byLength a b < 0 -> byLength b c < 0 -> byLength a c < 0)
    by (unfold byLength; intros; lia).
  split; [exact H1|]. split; [exact H2|].
  eassert (Hret : getNodeSpans byLength [rootOf "node10" "c" 7 9; rootOf "n1" "a" 5 20]
                  = inr _) by reflexivity.
  eexists. split; [exact Hret|].
  exact (lanes_sorted_by_name byLength H1 H2 _ _ Hret).
Defined.

(** A service named after a property of [Object.prototype]: the call throws. *)
Lemma service_named_constructor_throws :
  getNodeSpans byLength [rootOf "n1" "a" 5 20; rootOf "constructor" "b" 0 8] =
  inl JsObject.TypeError.
Proof. reflexivity. Qed.

(** * The drag gestures, re-initialization and the time points *)

Module Gestures.
Import Timeline.
Local Open Scope Q_scope.

(** The two fields of a mouse event the handlers read. *)
Record MouseEvent : Type := mkMouseEvent {
  button : Z;
  clientX : Q }.

(** [{ ...timelineState, selectedStart: a, selectedEnd: b }] *)
Definition withSelection (s : TimelineState) (a b : Q) : TimelineState :=
  {| startTime := startTime s; endTime := endTime s;
     selectedStart := a; selectedEnd := b;
     minStartTime := minStartTime s; maxEndTime := maxEndTime s;
     action := action s; deltaX := deltaX s;
     notDraggedEdgeTime := notDraggedEdgeTime s |}.

(** [{ ...timelineState, action: a, deltaX: d, notDraggedEdgeTime: t }] *)
Definition withGesture (s : TimelineState) (a : TimelineAction) (d t : Q) : TimelineState :=
  {| startTime := startTime s; endTime := endTime s;
     selectedStart := selectedStart s; selectedEnd := selectedEnd s;
     minStartTime := minStartTime s; maxEndTime := maxEndTime s;
     action := a; deltaX := d; notDraggedEdgeTime := t |}.

Definition isNoAction (a : TimelineAction) : bool :=
  match a with ActionNone => true | _ => false end.

(** The guard of the four mouse-down handlers: the primary button, and no
    gesture in progress. *)
Definition accepts (s : TimelineState) (e : MouseEvent) : bool :=
  (button e =? 0)%Z && isNoAction (action s).

(** Each handler gives the state after the event: the state it sets, or the
    state as it was when it returns without setting one. *)
Definition leftBarOnMouseDown (s : TimelineState) (width : Q) (e : MouseEvent)
  : option TimelineState :=
  if negb (accepts s e) then Some s
  else
    let* selectedStartX := timeToScreen (selectedStart s) s width in
    Some (withGesture s DraggingEdge (clientX e - selectedStartX) (selectedEnd s)).

Definition rightBarOnMouseDown (s : TimelineState) (width : Q) (e : MouseEvent)
  : option TimelineState :=
  if negb (accepts s e) then Some s
  else
    let* selectedEndX := timeToScreen (selectedEnd s) s width in
    Some (withGesture s DraggingEdge (clientX e - selectedEndX) (selectedStart s)).

Definition middleBarOnMouseDown (s : TimelineState) (width : Q) (e : MouseEvent)
  : option TimelineState :=
  if negb (accepts s e) then Some s
  else
    let* selectedStartX := timeToScreen (selectedStart s) s width in
    Some (withGesture s DraggingMiddle (clientX e - selectedStartX) (notDraggedEdgeTime s)).

Definition backgroundOnMouseDown (s : TimelineState) (width : Q) (e : MouseEvent)
  : option TimelineState :=
  if negb (accepts s e) then Some s
  else
    let* clickedTime := screenToTime (clientX e) s width in
    Some (withGesture (withSelection s clickedTime clickedTime) DraggingEdge 0 clickedTime).

(** [onMouseMove] of [makeTimelineDragHandlers] *)
Definition onMouseMove (s : TimelineState) (windowWidth : Q) (e : MouseEvent)
  : option TimelineState :=
  let mouseX := clientX e in
  match action s with
  | DraggingEdge =>
      let* draggedEdgeTime := screenToTime (mouseX - deltaX s) s windowWidth in
      let newSelectedStart := Qmin draggedEdgeTime (notDraggedEdgeTime s) in
      let newSelectedEnd := Qmax draggedEdgeTime (notDraggedEdgeTime s) in
      Some (withSelection s newSelectedStart newSelectedEnd)
  | DraggingMiddle =>
      let* newSelectedStart := screenToTime (mouseX - deltaX s) s windowWidth in
      let newSelectedEnd := newSelectedStart + (selectedEnd s - selectedStart s) in
      Some (withSelection s newSelectedStart newSelectedEnd)
  | ActionNone => Some s
  end.

(** [onMouseUp] of [makeTimelineDragHandlers] *)
Definition onMouseUp (s : TimelineState) (e : MouseEvent) : TimelineState :=
  withGesture s ActionNone (deltaX s) (notDraggedEdgeTime s).

(** The block of [TraceVisualizer] that follows a load: the state it sets when
    the extrema computed from the spans differ from the stored ones. *)
Definition reinitialize (s : TimelineState) (minStartTime_ maxEndTime_ : Q) : TimelineState :=
  if negb (Qeq_bool minStartTime_ (minStartTime s))
     || negb (Qeq_bool maxEndTime_ (maxEndTime s))
  then {| startTime := minStartTime_; endTime := maxEndTime_;
          selectedStart := minStartTime_;
          selectedEnd := Qmin (minStartTime_ + (1 # 10) * 1000000000) maxEndTime_;
          minStartTime := minStartTime_; maxEndTime := maxEndTime_;
          action := action s; deltaX := deltaX s;
          notDraggedEdgeTime := notDraggedEdgeTime s |}
  else s.

(** The numbers of [TimePoints]: for each of the [numPoints] points, its time
    and its screen position. *)
Definition timePointWidth : Q := 230.

Definition timePoints (startTime_ endTime_ width : Q) : option (list (Q * Q)) :=
  let numPoints := Qfloor (width / timePointWidth) in
  mapM (fun i : nat =>
          let* step := div (endTime_ - startTime_) (inject_Z numPoints) in
          let time := startTime_ + step * inject_Z (Z.of_nat i) in
          let* r := div (time - startTime_) (endTime_ - startTime_) in
          Some (time, r * width))
       (seq 0 (Z.to_nat numPoints)).

End Gestures.

(** * Properties of the drag gestures *)

Module GestureProps.
Import Timeline Gestures.
Local Open Scope Q_scope.

(** The navigational window and the data extrema of two states agree. *)
Definition sameWindow (s s' : TimelineState) : Prop :=
  startTime s' = startTime s /\ endTime s' = endTime s /\
  minStartTime s' = minStartTime s /\ maxEndTime s' = maxEndTime s.

Definition keepsWindow (s : TimelineState) (r : option TimelineState) : Prop :=
  match r with
  | Some s' => sameWindow s s'
  | None => True
  end.

Lemma sameWindow_refl s : sameWindow s s.
Proof. repeat split. Qed.

Lemma nonzero_length (s : TimelineState) :
  ~ endTime s == startTime s -> ~ endTime s - startTime s == 0.
Proof.
  intros Hlen H. apply Hlen. rewrite <- (Qplus_0_l (startTime s)), <- H. ring.
Qed.

Lemma screenToTime_window s s' x w :
  sameWindow s s' -> screenToTime x s' w = screenToTime x s w.
Proof.
  intros (Hs & He & _). unfold screenToTime. rewrite Hs, He. reflexivity.
Qed.

(** X11.  No mouse handler touches the navigational window or the data
    extrema: whatever the state and the event, the state set by each of the
    four mouse-down handlers, by [onMouseMove] and by [onMouseUp] has the
    startTime, endTime, minStartTime and maxEndTime of the state before. *)
Theorem mouse_handlers_keep_window (s : TimelineState) (w : Q) (e : MouseEvent) :
  keepsWindow s (leftBarOnMouseDown s w e) /\
  keepsWindow s (rightBarOnMouseDown s w e) /\
  keepsWindow s (middleBarOnMouseDown s w e) /\
  keepsWindow s (backgroundOnMouseDown s w e) /\
  keepsWindow s (onMouseMove s w e) /\
  sameWindow s (onMouseUp s e).
Proof.
  unfold leftBarOnMouseDown, rightBarOnMouseDown, middleBarOnMouseDown,
    backgroundOnMouseDown, onMouseMove, onMouseUp, timeToScreen, screenToTime, bind.
  repeat split;
    repeat match goal with
           | |- context [if ?b then _ else _] => destruct b
           | |- context [match div ?a ?b with _ => _ end] => destruct (div a b)
           | |- context [match action ?s with _ => _ end] => destruct (action s)
           end; simpl; try exact I; repeat split.
Qed.

(** The state after a run of mouse moves, each handled in the state the
    previous one set. *)
Fixpoint mouseMoves (s : TimelineState) (w : Q) (es : list MouseEvent)
  : option TimelineState :=
  match es with
  | [] => Some s
  | e :: es' => let* s' := onMouseMove s w e in mouseMoves s' w es'
  end.

Lemma onMouseMove_action s w e s' :
  onMouseMove s w e = Some s' ->
  action s' = action s /\ deltaX s' = deltaX s /\
  notDraggedEdgeTime s' = notDraggedEdgeTime s.
Proof.
  unfold onMouseMove, screenToTime, bind.
  destruct (action s) eqn:Ha; [intros [= <-]; rewrite Ha; auto | |];
    destruct (div _ _); intros [= <-]; simpl; rewrite ?Ha; auto.
Qed.

Lemma onMouseMove_window s w e s' :
  onMouseMove s w e = Some s' -> sameWindow s s'.
Proof.
  unfold onMouseMove, screenToTime, bind.
  destruct (action s); [intros [= <-]; apply sameWindow_refl | |];
    destruct (div _ _); intros [= <-]; repeat split.
Qed.

Lemma mouseMoves_action s w es s' :
  mouseMoves s w es = Some s' -> action s' = action s.
Proof.
  revert s. induction es as [|e es IH]; intros s; simpl.
  - intros [= <-]. reflexivity.
  - unfold bind. destruct (onMouseMove s w e) as [s1|] eqn:E; [|discriminate].
    intros H. rewrite (IH _ H). apply (onMouseMove_action _ _ _ _ E).
Qed.

Lemma mouseDown_action s w e s1 :
  accepts s e = true ->
  leftBarOnMouseDown s w e = Some s1 \/ rightBarOnMouseDown s w e = Some s1 \/
  middleBarOnMouseDown s w e = Some s1 \/ backgroundOnMouseDown s w e = Some s1 ->
  action s1 <> ActionNone.
Proof.
  intros Hacc.
  unfold leftBarOnMouseDown, rightBarOnMouseDown, middleBarOnMouseDown,
    backgroundOnMouseDown, timeToScreen, screenToTime, bind.
  rewrite Hacc. simpl.
  intros [H | [H | [H | H]]]; destruct (div _ _); try discriminate;
    injection H as <-; discriminate.
Qed.

(** X12.  One gesture at a time: once a mouse-down has been accepted (primary
    button, no gesture in progress), then after any run of mouse moves every
    further mouse-down, on either bar, the middle or the background and with
    any button, leaves the state as it is; only the mouse-up, which sets the
    action back to None, ends the gesture. *)
Theorem one_gesture_at_a_time (s s1 s2 : TimelineState) (w : Q)
        (e0 : MouseEvent) (es : list MouseEvent) :
  accepts s e0 = true ->
  leftBarOnMouseDown s w e0 = Some s1 \/ rightBarOnMouseDown s w e0 = Some s1 \/
  middleBarOnMouseDown s w e0 = Some s1 \/ backgroundOnMouseDown s w e0 = Some s1 ->
  mouseMoves s1 w es = Some s2 ->
  forall (w' : Q) (e : MouseEvent),
    (leftBarOnMouseDown s2 w' e = Some s2 /\ rightBarOnMouseDown s2 w' e = Some s2 /\
     middleBarOnMouseDown s2 w' e = Some s2 /\ backgroundOnMouseDown s2 w' e = Some s2) /\
    action (onMouseUp s2 e) = ActionNone.
Proof.
  intros Hacc Hdown Hmoves w' e.
  pose proof (mouseDown_action _ _ _ _ Hacc Hdown) as Ha.
  rewrite <- (mouseMoves_action _ _ _ _ Hmoves) in Ha.
  assert (Hno : accepts s2 e = false).
  { unfold accepts. destruct (action s2); [contradiction| |];
      simpl; apply andb_false_r. }
  unfold leftBarOnMouseDown, rightBarOnMouseDown, middleBarOnMouseDown,
    backgroundOnMouseDown. rewrite Hno. simpl. repeat split.
Qed.

(** X13.  Dragging an edge keeps the selection ordered: a mouse move in the
    DraggingEdge action sets a selection with selectedStart <= selectedEnd one
    end of which is the edge that is not dragged, and the selection it sets
    depends on the pointer's position only, not on the moves before it. *)
Theorem edge_drag_ordered (s s' : TimelineState) (w : Q) (e : MouseEvent) :
  action s = DraggingEdge ->
  onMouseMove s w e = Some s' ->
  selectedStart s' <= selectedEnd s' /\
  (selectedStart s' == notDraggedEdgeTime s \/ selectedEnd s' == notDraggedEdgeTime s) /\
  forall e2, onMouseMove s' w e2 = onMouseMove s w e2.
Proof.
  intros Ha Hm. pose proof (onMouseMove_action _ _ _ _ Hm) as (Ha' & Hd & Hn).
  pose proof (onMouseMove_window _ _ _ _ Hm) as Hw.
  split; [|split].
  - unfold onMouseMove, bind in Hm. rewrite Ha in Hm.
    destruct (screenToTime _ _ _) as [d|]; [|discriminate].
    injection Hm as <-. simpl.
    eapply Qle_trans; [apply Q.le_min_l | apply Q.le_max_l].
  - unfold onMouseMove, bind in Hm. rewrite Ha in Hm.
    destruct (screenToTime _ _ _) as [d|]; [|discriminate].
    injection Hm as <-. simpl.
    destruct (Q.min_spec d (notDraggedEdgeTime s)) as [[Hlt Hmin]|[Hle Hmin]].
    + right. apply Q.max_r. apply Qlt_le_weak. exact Hlt.
    + left. exact Hmin.
  - intros e2. unfold onMouseMove. rewrite Ha', Ha, Hd, Hn.
    rewrite (screenToTime_window s s' _ _ Hw).
    unfold bind. destruct (screenToTime _ s w); [|reflexivity].
    unfold withSelection. destruct Hw as (-> & -> & -> & ->).
    rewrite Ha', Hd, Hn, Ha. reflexivity.
Qed.

(** X14.  Dragging the middle keeps the width of the selection: a mouse move
    in the DraggingMiddle action sets a selection of the width of the one
    before. *)
Theorem middle_drag_keeps_width (s s' : TimelineState) (w : Q) (e : MouseEvent) :
  action s = DraggingMiddle ->
  onMouseMove s w e = Some s' ->
  selectedEnd s' - selectedStart s' == selectedEnd s - selectedStart s.
Proof.
  intros Ha Hm. unfold onMouseMove, bind in Hm. rewrite Ha in Hm.
  destruct (screenToTime _ _ _) as [d|]; [|discriminate].
  injection Hm as <-. simpl. ring.
Qed.

(** The time the pointer's displacement stands for. *)
Definition timeShift (s : TimelineState) (w : Q) (e0 e1 : MouseEvent) : Q :=
  (clientX e1 - clientX e0) / w * (endTime s - startTime s).

(** X15.  A grabbed edge follows the pointer: with a window that is not empty
    and a width != 0, an accepted mouse-down on the left (right) bar followed
    by a mouse move sets the selection between the other end and the grabbed
    end moved by the time the pointer's displacement stands for; the two are
    swapped when the pointer crosses the other end. *)
Theorem grabbed_edge_follows_pointer (s : TimelineState) (w : Q) (e0 e1 : MouseEvent) :
  ~ endTime s == startTime s ->
  ~ w == 0 ->
  accepts s e0 = true ->
  (exists s1 s2 d,
      leftBarOnMouseDown s w e0 = Some s1 /\ onMouseMove s1 w e1 = Some s2 /\
      d == selectedStart s + timeShift s w e0 e1 /\
      selectedStart s2 = Qmin d (selectedEnd s) /\
      selectedEnd s2 = Qmax d (selectedEnd s)) /\
  (exists s1 s2 d,
      rightBarOnMouseDown s w e0 = Some s1 /\ onMouseMove s1 w e1 = Some s2 /\
      d == selectedEnd s + timeShift s w e0 e1 /\
      selectedStart s2 = Qmin d (selectedStart s) /\
      selectedEnd s2 = Qmax d (selectedStart s)).
Proof.
  intros Hlen Hw Hacc. pose proof (nonzero_length s Hlen) as Hlen'.
  unfold leftBarOnMouseDown, rightBarOnMouseDown, timeToScreen. rewrite Hacc.
  cbn [negb]. rewrite !(TimelineProps.div_nonzero _ _ Hlen'). cbn [bind].
  split; do 3 eexists; (split; [reflexivity|]);
    unfold onMouseMove, screenToTime; cbn [action deltaX withGesture];
    rewrite !(TimelineProps.div_nonzero _ _ Hw); cbn [bind];
    (split; [reflexivity|]);
    cbn [withSelection withGesture selectedStart selectedEnd notDraggedEdgeTime
         startTime endTime];
    (split; [|split; reflexivity]); unfold timeShift; field; split; assumption.
Qed.

(** X16.  A grabbed selection follows the pointer: with a window that is not
    empty and a width != 0, an accepted mouse-down on the middle bar followed
    by a mouse move shifts both ends of the selection by the time the
    pointer's displacement stands for. *)
Theorem grabbed_selection_follows_pointer (s : TimelineState) (w : Q) (e0 e1 : MouseEvent) :
  ~ endTime s == startTime s ->
  ~ w == 0 ->
  accepts s e0 = true ->
  exists s1 s2,
    middleBarOnMouseDown s w e0 = Some s1 /\ onMouseMove s1 w e1 = Some s2 /\
    selectedStart s2 == selectedStart s + timeShift s w e0 e1 /\
    selectedEnd s2 == selectedEnd s + timeShift s w e0 e1.
Proof.
  intros Hlen Hw Hacc. pose proof (nonzero_length s Hlen) as Hlen'.
  unfold middleBarOnMouseDown, timeToScreen. rewrite Hacc.
  cbn [negb]. rewrite !(TimelineProps.div_nonzero _ _ Hlen'). cbn [bind].
  do 2 eexists. split; [reflexivity|].
  unfold onMouseMove, screenToTime. cbn [action deltaX withGesture].
  rewrite !(TimelineProps.div_nonzero _ _ Hw). cbn [bind].
  split; [reflexivity|].
  cbn [withSelection withGesture selectedStart selectedEnd notDraggedEdgeTime
       startTime endTime].
  unfold timeShift. split; field; split; assumption.
Qed.

(** X17.  Pressing on the background and dragging selects what lies between:
    with a width != 0, an accepted mouse-down on the background collapses the
    selection onto the time under the pointer, and a mouse move then sets
    the selection from the smaller to the larger of that time and the time
    under the pointer now. *)
Theorem background_drag_selects_between (s : TimelineState) (w : Q) (e0 e1 : MouseEvent) :
  ~ w == 0 ->
  accepts s e0 = true ->
  exists s1 s2 t0 t1,
    screenToTime (clientX e0) s w = Some t0 /\
    screenToTime (clientX e1) s w = Some t1 /\
    backgroundOnMouseDown s w e0 = Some s1 /\
    selectedStart s1 = t0 /\ selectedEnd s1 = t0 /\
    onMouseMove s1 w e1 = Some s2 /\
    selectedStart s2 == Qmin t0 t1 /\ selectedEnd s2 == Qmax t0 t1.
Proof.
  intros Hw Hacc.
  unfold backgroundOnMouseDown, screenToTime. rewrite Hacc.
  cbn [negb]. rewrite !(TimelineProps.div_nonzero _ _ Hw). cbn [bind].
  do 4 eexists. do 5 (split; [reflexivity|]).
  unfold onMouseMove, screenToTime. cbn [action deltaX withGesture withSelection].
  rewrite !(TimelineProps.div_nonzero _ _ Hw). cbn [bind].
  split; [reflexivity|].
  cbn [withSelection withGesture selectedStart selectedEnd notDraggedEdgeTime
       startTime endTime].
  assert (Heq : startTime s + (clientX e1 - 0) / w * (endTime s - startTime s)
                == startTime s + clientX e1 / w * (endTime s - startTime s)).
  { field. exact Hw. }
  split.
  - rewrite Heq. apply Q.min_comm.
  - rewrite Heq. apply Q.max_comm.
Qed.

(** X18.  The wheel zooms about the pointer: with a window that is not empty
    and a width != 0, when neither clamp applies the wheel handler sets a
    window whose length is the old one times 1 + deltaY / 1000 and in which
    the pointer's screen position stands for the same time as before. *)
Theorem zoom_about_pointer (s : TimelineState) (x deltaY w : Q) :
  let newLength := (endTime s - startTime s) * (1 + deltaY * (1 # 1000)) in
  let shown := startTime s + x / w * (endTime s - startTime s) in
  let newStart := shown - x / w * newLength in
  ~ endTime s == startTime s ->
  ~ w == 0 ->
  minStartTime s <= newStart ->
  newStart + newLength <= maxEndTime s ->
  exists s' t t',
    timelineScrollHandler s x deltaY w = Some s' /\
    endTime s' - startTime s' == newLength /\
    screenToTime x s w = Some t /\
    screenToTime x s' w = Some t' /\ t' == t.
Proof.
  intros newLength shown newStart Hlen Hw Hlo Hhi.
  pose proof (nonzero_length s Hlen) as Hlen'.
  unfold timelineScrollHandler, screenToTime.
  rewrite !(TimelineProps.div_nonzero _ _ Hw). cbn [bind].
  rewrite !(TimelineProps.div_nonzero _ _ Hlen'). cbn [bind].
  do 3 eexists. split; [reflexivity|]. cbn [startTime endTime].
  fold shown. fold newLength.
  assert (Hs : shown - (shown - startTime s) * newLength / (endTime s - startTime s)
               == newStart).
  { unfold newStart, shown. field. split; assumption. }
  assert (Hmax : Qmax (minStartTime s)
                   (shown - (shown - startTime s) * newLength / (endTime s - startTime s))
                 == newStart).
  { rewrite Hs. apply Q.max_r. exact Hlo. }
  assert (Hmin : Qmin (maxEndTime s)
                   (shown - (shown - startTime s) * newLength / (endTime s - startTime s)
                    + newLength)
                 == newStart + newLength).
  { rewrite Hs. apply Q.min_r. exact Hhi. }
  split; [|split; [reflexivity|split; [reflexivity|]]].
  - rewrite Hmax, Hmin. ring.
  - rewrite Hmax, Hmin. unfold newStart. ring.
Qed.

(** X19.  The re-initialization settles: the state it sets stores the very
    extrema it was given, so running it again on that state with the same
    extrema changes nothing. *)
Theorem reinitialize_settles (s : TimelineState) (lo hi : Q) :
  reinitialize (reinitialize s lo hi) lo hi = reinitialize s lo hi.
Proof.
  unfold reinitialize at 2 3.
  destruct (negb (Qeq_bool lo (minStartTime s)) || negb (Qeq_bool hi (maxEndTime s)))%bool
    eqn:E.
  - unfold reinitialize. cbn [minStartTime maxEndTime].
    rewrite !(proj2 (Qeq_bool_iff _ _) (Qeq_refl _)). reflexivity.
  - unfold reinitialize. rewrite E. reflexivity.
Qed.

(** X20.  What a load shows: when the extrema computed from the spans differ
    from the stored ones and lo <= hi, the re-initialization sets the window
    to the extrema and a selection that starts at lo, lies within the window
    and is at most a tenth of a second long. *)
Theorem reinitialize_selection (s : TimelineState) (lo hi : Q) :
  lo <= hi ->
  ~ (lo == minStartTime s /\ hi == maxEndTime s) ->
  let s' := reinitialize s lo hi in
  startTime s' = lo /\ endTime s' = hi /\
  minStartTime s' = lo /\ maxEndTime s' = hi /\
  selectedStart s' = lo /\
  startTime s' <= selectedStart s' /\ selectedStart s' <= selectedEnd s' /\
  selectedEnd s' <= endTime s' /\
  selectedEnd s' - selectedStart s' <= 100000000.
Proof.
  intros Hle Hne s'. subst s'. unfold reinitialize.
  destruct (negb (Qeq_bool lo (minStartTime s)) || negb (Qeq_bool hi (maxEndTime s)))%bool
    eqn:E.
  - cbn [startTime endTime minStartTime maxEndTime selectedStart selectedEnd].
    repeat (split; [reflexivity|]).
    split; [apply Qle_refl|]. split; [|split].
    + apply Q.min_glb; [|exact Hle]. lra.
    + apply Q.le_min_r.
    + pose proof (Q.le_min_l (lo + (1 # 10) * 1000000000) hi). lra.
  - exfalso. apply Hne. apply orb_false_elim in E as [E1 E2].
    apply negb_false_iff in E1, E2. split; apply Qeq_bool_iff; assumption.
Qed.

Lemma mapM_total {A B} (f : A -> option B) (g : A -> B) (l : list A) :
  (forall x, f x = Some (g x)) -> mapM f l = Some (map g l).
Proof.
  intros H. induction l as [|a l IH]; [reflexivity|].
  cbn. rewrite H. cbn. rewrite IH. reflexivity.
Qed.

(** X21.  The time points: for a window that is not empty [TimePoints] draws
    floor(width / 230) points; the i-th stands for the time startTime +
    (endTime - startTime) / numPoints * i and is drawn at i * (width /
    numPoints), within [0, width), and consecutive points are at least the
    230 pixels of a label apart. *)
Theorem time_points_spaced (startTime_ endTime_ width : Q) :
  ~ endTime_ == startTime_ ->
  let numPoints := Qfloor (width / timePointWidth) in
  exists pts,
    timePoints startTime_ endTime_ width = Some pts /\
    length pts = Z.to_nat numPoints /\
    forall (i : nat) (p : Q * Q),
      nth_error pts i = Some p ->
      fst p == startTime_ + (endTime_ - startTime_) / inject_Z numPoints * inject_Z (Z.of_nat i) /\
      snd p == inject_Z (Z.of_nat i) * (width / inject_Z numPoints) /\
      0 <= snd p /\ snd p < width /\
      timePointWidth <= width / inject_Z numPoints.
Proof.
  intros Hlen numPoints.
  assert (Hlen' : ~ endTime_ - startTime_ == 0) by (intros H; apply Hlen; lra).
  unfold timePoints. fold numPoints.
  destruct (Z_lt_le_dec 0 numPoints) as [Hpos | Hnone].
  - assert (Hn : 0 < inject_Z numPoints).
    { change 0 with (inject_Z 0). rewrite <- Zlt_Qlt. exact Hpos. }
    assert (Hn0 : ~ inject_Z numPoints == 0) by lra.
    set (g := fun i : nat =>
                (startTime_ + (endTime_ - startTime_) / inject_Z numPoints
                              * inject_Z (Z.of_nat i),
                 (startTime_ + (endTime_ - startTime_) / inject_Z numPoints
                               * inject_Z (Z.of_nat i) - startTime_)
                 / (endTime_ - startTime_) * width)).
    rewrite (mapM_total _ g).
    2:{ intros i. rewrite (TimelineProps.div_nonzero _ _ Hn0). cbn [bind].
        rewrite (TimelineProps.div_nonzero _ _ Hlen'). reflexivity. }
    eexists. split; [reflexivity|]. split.
    { rewrite length_map, length_seq. reflexivity. }
    intros i p Hp.
    rewrite nth_error_map in Hp.
    destruct (nth_error (seq 0 (Z.to_nat numPoints)) i) as [j|] eqn:Hj; [|discriminate].
    injection Hp as <-.
    assert (Hi : (i < Z.to_nat numPoints)%nat).
    { pose proof (proj1 (nth_error_Some (seq 0%nat (Z.to_nat numPoints)) i)) as Hb.
      rewrite length_seq in Hb. apply Hb. rewrite Hj. discriminate. }
    pose proof (nth_error_nth _ _ 0%nat Hj) as Hj'.
    rewrite seq_nth in Hj' by exact Hi. simpl in Hj'. subst j.
    assert (Hfl : inject_Z numPoints <= width / timePointWidth) by apply Qfloor_le.
    assert (Hwn : inject_Z numPoints * timePointWidth <= width).
    { assert (Hw : width == width / timePointWidth * timePointWidth)
        by (unfold timePointWidth; field).
      rewrite Hw at 1. apply Qmult_le_compat_r; [exact Hfl | discriminate]. }
    assert (Hsp : timePointWidth <= width / inject_Z numPoints).
    { apply Qle_shift_div_l; [exact Hn|].
      rewrite Qmult_comm. exact Hwn. }
    assert (Hii : inject_Z (Z.of_nat i) + 1 <= inject_Z numPoints).
    { change 1 with (inject_Z 1). rewrite <- inject_Z_plus, <- Zle_Qle. lia. }
    assert (Hi0 : 0 <= inject_Z (Z.of_nat i)).
    { change 0 with (inject_Z 0). rewrite <- Zle_Qle. lia. }
    assert (Hpos' : snd (g i) == inject_Z (Z.of_nat i) * (width / inject_Z numPoints)).
    { unfold g. cbn [snd]. field. split; assumption. }
    set (u := width / inject_Z numPoints) in *.
    assert (Hu : u * inject_Z numPoints == width).
    { unfold u. field. exact Hn0. }
    assert (H230 : 0 < timePointWidth) by reflexivity.
    split; [reflexivity|]. split; [exact Hpos'|].
    split; [|split; [|exact Hsp]].
    + rewrite Hpos'. apply Qmult_le_0_compat; [exact Hi0 | lra].
    + rewrite Hpos'. rewrite <- Hu.
      apply Qlt_le_trans with (u * (inject_Z (Z.of_nat i) + 1)).
      * assert (0 < u) by lra. nra.
      * apply Qmult_le_l; [lra | exact Hii].
  - assert (Hz : Z.to_nat numPoints = 0%nat) by lia.
    rewrite Hz. eexists. split; [reflexivity|]. split; [reflexivity|].
    intros [|i] p; discriminate.
Qed.

(** Concrete instances. *)

Definition press : MouseEvent := mkMouseEvent 0 250.
Definition drag : MouseEvent := mkMouseEvent 0 400.
Definition draggingEdge : TimelineState :=
  withGesture newTimelineState DraggingEdge 0 2500000000.
Definition draggingMiddle : TimelineState :=
  withGesture newTimelineState DraggingMiddle 0 0.

Lemma one_gesture_at_a_time_witness :
  accepts newTimelineState press = true /\
  exists s1 s2,
    leftBarOnMouseDown newTimelineState 1000 press = Some s1 /\
    mouseMoves s1 1000 [drag; press] = Some s2 /\
    backgroundOnMouseDown s2 1000 press = Some s2.
Proof.
  assert (Hacc : accepts newTimelineState press = true) by reflexivity.
  eassert (E1 : leftBarOnMouseDown newTimelineState 1000 press = Some _)
    by (vm_compute; reflexivity).
  match type of E1 with
  | _ = Some ?s1 =>
      eassert (E2 : mouseMoves s1 1000 [drag; press] = Some _)
        by (vm_compute; reflexivity)
  end.
  split; [exact Hacc|]. eexists _, _. split; [exact E1|]. split; [exact E2|].
  exact (proj2 (proj2 (proj2 (proj1
    (one_gesture_at_a_time _ _ _ 1000 press [drag; press] Hacc (or_introl E1) E2
       1000 press))))).
Defined.

Lemma edge_drag_ordered_witness :
  action draggingEdge = DraggingEdge /\
  exists s', onMouseMove draggingEdge 1000 drag = Some s' /\
             selectedStart s' <= selectedEnd s'.
Proof.
  assert (Ha : action draggingEdge = DraggingEdge) by reflexivity.
  eassert (E : onMouseMove draggingEdge 1000 drag = Some _)
    by (vm_compute; reflexivity).
  split; [exact Ha|]. eexists. split; [exact E|].
  exact (proj1 (edge_drag_ordered _ _ 1000 drag Ha E)).
Defined.

Lemma middle_drag_keeps_width_witness :
  action draggingMiddle = DraggingMiddle /\
  exists s', onMouseMove draggingMiddle 1000 drag = Some s' /\
             selectedEnd s' - selectedStart s' == 1000000000.
Proof.
  assert (Ha : action draggingMiddle = DraggingMiddle) by reflexivity.
  eassert (E : onMouseMove draggingMiddle 1000 drag = Some _)
    by (vm_compute; reflexivity).
  split; [exact Ha|]. eexists. split; [exact E|].
  rewrite (middle_drag_keeps_width _ _ 1000 drag Ha E). reflexivity.
Defined.

Lemma grabbed_edge_follows_pointer_witness :
  (~ endTime newTimelineState == startTime newTimelineState) /\
  (~ 1000 == 0) /\
  accepts newTimelineState press = true /\
  exists s1 s2 d,
    leftBarOnMouseDown newTimelineState 1000 press = Some s1 /\
    onMouseMove s1 1000 drag = Some s2 /\
    d == selectedStart newTimelineState + timeShift newTimelineState 1000 press drag /\
    selectedStart s2 = Qmin d (selectedEnd newTimelineState) /\
    selectedEnd s2 = Qmax d (selectedEnd newTimelineState).
Proof.
  assert (H1 : ~ endTime newTimelineState == startTime newTimelineState) by discriminate.
  assert (H2 : ~ 1000 == 0) by discriminate.
  assert (H3 : accepts newTimelineState press = true) by reflexivity.
  split; [exact H1|]. split; [exact H2|]. split; [exact H3|].
  exact (proj1 (grabbed_edge_follows_pointer newTimelineState 1000 press drag H1 H2 H3)).
Defined.

Lemma grabbed_selection_follows_pointer_witness :
  (~ endTime newTimelineState == startTime newTimelineState) /\
  (~ 1000 == 0) /\
  accepts newTimelineState press = true /\
  exists s1 s2,
    middleBarOnMouseDown newTimelineState 1000 press = Some s1 /\
    onMouseMove s1 1000 drag = Some s2 /\
    selectedStart s2
    == selectedStart newTimelineState + timeShift newTimelineState 1000 press drag /\
    selectedEnd s2
    == selectedEnd newTimelineState + timeShift newTimelineState 1000 press drag.
Proof.
  assert (H1 : ~ endTime newTimelineState == startTime newTimelineState) by discriminate.
  assert (H2 : ~ 1000 == 0) by discriminate.
  assert (H3 : accepts newTimelineState press = true) by reflexivity.
  split; [exact H1|]. split; [exact H2|]. split; [exact H3|].
  exact (grabbed_selection_follows_pointer newTimelineState 1000 press drag H1 H2 H3).
Defined.

Lemma background_drag_selects_between_witness :
  (~ 1000 == 0) /\
  accepts newTimelineState press = true /\
  exists s1 s2 t0 t1,
    screenToTime (clientX press) newTimelineState 1000 = Some t0 /\
    screenToTime (clientX drag) newTimelineState 1000 = Some t1 /\
    backgroundOnMouseDown newTimelineState 1000 press = Some s1 /\
    selectedStart s1 = t0 /\ selectedEnd s1 = t0 /\
    onMouseMove s1 1000 drag = Some s2 /\
    selectedStart s2 == Qmin t0 t1 /\ selectedEnd s2 == Qmax t0 t1.
Proof.
  assert (H2 : ~ 1000 == 0) by discriminate.
  assert (H3 : accepts newTimelineState press = true) by reflexivity.
  split; [exact H2|]. split; [exact H3|].
  exact (background_drag_selects_between newTimelineState 1000 press drag H2 H3).
Defined.

Lemma zoom_about_pointer_witness :
  (~ endTime newTimelineState == startTime newTimelineState) /\
  (~ 1000 == 0) /\
  exists s' t t',
    timelineScrollHandler newTimelineState 500 100 1000 = Some s' /\
    endTime s' - startTime s' == 2200000000 /\
    screenToTime 500 newTimelineState 1000 = Some t /\
    screenToTime 500 s' 1000 = Some t' /\ t' == t.
Proof.
  assert (H1 : ~ endTime newTimelineState == startTime newTimelineState) by discriminate.
  assert (H2 : ~ 1000 == 0) by discriminate.
  split; [exact H1|]. split; [exact H2|].
  destruct (zoom_about_pointer newTimelineState 500 100 1000 H1 H2)
    as (s' & t & t' & A & B & C & D & E).
  - apply Qle_bool_iff. vm_compute. reflexivity.
  - apply Qle_bool_iff. vm_compute. reflexivity.
  - exists s', t, t'. split; [exact A|]. split; [|split; [exact C|split; [exact D|exact E]]].
    rewrite B. reflexivity.
Defined.

Lemma reinitialize_selection_witness :
  5 <= 1000000000 /\
  ~ (5 == minStartTime newTimelineState /\ 1000000000 == maxEndTime newTimelineState) /\
  selectedStart (reinitialize newTimelineState 5 1000000000) = 5 /\
  selectedEnd (reinitialize newTimelineState 5 1000000000) <= 1000000000.
Proof.
  assert (H1 : 5 <= 1000000000) by (apply Qle_bool_iff; reflexivity).
  assert (H2 : ~ (5 == minStartTime newTimelineState /\
                  1000000000 == maxEndTime newTimelineState)).
  { intros [H _]. discriminate H. }
  split; [exact H1|]. split; [exact H2|].
  pose proof (reinitialize_selection newTimelineState 5 1000000000 H1 H2)
    as (Hs & He & _ & _ & Hsel & _ & _ & Hend & _).
  split; [exact Hsel|]. rewrite He in Hend. exact Hend.
Defined.

Lemma time_points_spaced_witness :
  (~ 10 == 0) /\
  exists pts, timePoints 0 10 500 = Some pts /\ length pts = 2%nat.
Proof.
  assert (H1 : ~ 10 == 0) by discriminate.
  split; [exact H1|].
  destruct (time_points_spaced 0 10 500 H1) as (pts & A & B & _).
  exists pts. split; [exact A | exact B].
Defined.

End GestureProps.

(** * More on the forest builder *)

(** ** Sorting with comparators that agree on the list *)

Lemma insertSorted_ext {A} (cmp cmp' : A -> A -> Z) x l :
  (forall y, In y l -> cmp x y = cmp' x y) ->
  insertSorted cmp x l = insertSorted cmp' x l.
Proof.
  induction l as [|y l IH]; intros H; [reflexivity|]. simpl.
  rewrite (H y) by (left; reflexivity).
  rewrite IH by (intros z Hz; apply H; right; exact Hz). reflexivity.
Qed.

Lemma sortBy_ext {A} (cmp cmp' : A -> A -> Z) l :
  (forall a b, In a l -> In b l -> cmp a b = cmp' a b) ->
  sortBy cmp l = sortBy cmp' l.
Proof.
  unfold sortBy. intros H.
  assert (Hgen : forall acc,
    (forall a b, In a (acc ++ l) -> In b (acc ++ l) -> cmp a b = cmp' a b) ->
    fold_left (fun acc x => insertSorted cmp x acc) l acc =
    fold_left (fun acc x => insertSorted cmp' x acc) l acc).
  { clear H. induction l as [|x l IH]; intros acc H; simpl; [reflexivity|].
    rewrite (insertSorted_ext cmp cmp' x acc).
    2:{ intros y Hy. apply H; apply in_or_app; [right; left; reflexivity | left; exact Hy]. }
    apply IH. intros a b Ha Hb.
    assert (Hin : forall z, In z (insertSorted cmp' x acc ++ l) -> In z (acc ++ x :: l)).
    { intros z Hz. apply in_app_or in Hz. apply in_or_app. destruct Hz as [Hz|Hz].
      - apply (Permutation_in _ (insertSorted_perm cmp' x acc)) in Hz.
        destruct Hz as [<-|Hz]; [right; left; reflexivity | left; exact Hz].
      - right; right; exact Hz. }
    apply H; apply Hin; assumption. }
  apply Hgen. exact H.
Qed.

Lemma StronglySorted_weaken {A} (R R' : A -> A -> Prop) l :
  (forall a b, R a b -> R' a b) -> StronglySorted R l -> StronglySorted R' l.
Proof.
  intros H. induction 1 as [|a l _ IH Ha]; constructor; [exact IH|].
  eapply List.Forall_impl; [|exact Ha]. apply H.
Qed.

Lemma StronglySorted_filter {A} (R : A -> A -> Prop) (f : A -> bool) l :
  StronglySorted R l -> StronglySorted R (List.filter f l).
Proof.
  induction 1 as [|a l _ IH Ha]; simpl; [constructor|].
  destruct (f a); [|exact IH]. constructor; [exact IH|].
  apply List.Forall_forall. intros b Hb. apply filter_In in Hb.
  rewrite List.Forall_forall in Ha. apply Ha, Hb.
Qed.

Lemma seq_sorted n : forall a, StronglySorted lt (seq a n).
Proof.
  induction n as [|n IH]; intros a; simpl; constructor; [apply IH|].
  apply List.Forall_forall. intros b Hb. apply in_seq in Hb. lia.
Qed.

(** ** The children arrays *)

(** The start time of the object a reference points to. *)
Definition startAt (spans : list Heap.SpanObject) (i : nat) : Z :=
  match spans !! i with
  | Some span => Heap.startTime span
  | None => 0
  end.

Lemma byStartTimeRef_byKey spans a b :
  (a < length spans)%nat -> (b < length spans)%nat ->
  Heap.byStartTimeRef spans a b = byKey (startAt spans) a b.
Proof.
  intros Ha Hb. unfold Heap.byStartTimeRef, byKey, startAt.
  destruct (lookup_lt_is_Some_2 _ _ Ha) as [sa ->].
  destruct (lookup_lt_is_Some_2 _ _ Hb) as [sb ->]. reflexivity.
Qed.

Section BuiltChildren.
Variable spans0 : list Heap.SpanObject.
Hypothesis fresh : Forall (fun span => Heap.children span = []) spans0.

Lemma linked_length :
  length (linked (Heap.indexSpans spans0) spans0 (length spans0)) = length spans0.
Proof. unfold linked. apply length_imap. Qed.

Lemma linked_startAt i :
  startAt (linked (Heap.indexSpans spans0) spans0 (length spans0)) i = startAt spans0 i.
Proof.
  unfold startAt. unfold linked. rewrite list_lookup_imap.
  destruct (spans0 !! i); reflexivity.
Qed.

Lemma built_startAt i : startAt (built spans0) i = startAt spans0 i.
Proof.
  unfold startAt. rewrite (built_lookup spans0 fresh). destruct (spans0 !! i); reflexivity.
Qed.

Lemma built_children_sorted p span :
  built spans0 !! p = Some span ->
  StronglySorted (fun a b => startAt (built spans0) a <= startAt (built spans0) b)
                 (Heap.children span) /\
  forall k, StronglySorted lt
              (List.filter (fun a => startAt (built spans0) a =? k) (Heap.children span)).
Proof.
  rewrite (built_lookup spans0 fresh).
  destruct (spans0 !! p) as [s0|]; [|discriminate]. intros [= <-]. cbn [setChildren Heap.children].
  set (l := List.filter (parentIs (Heap.indexSpans spans0) spans0 p) (seq 0 (length spans0))).
  set (L := linked (Heap.indexSpans spans0) spans0 (length spans0)).
  assert (Hl : forall a, In a l -> (a < length L)%nat).
  { intros a Ha. apply filter_In in Ha. destruct Ha as [Ha _]. apply in_seq in Ha.
    unfold L. rewrite linked_length. lia. }
  rewrite (sortBy_ext (Heap.byStartTimeRef L) (byKey (startAt L)))
    by (intros a b Ha Hb; apply byStartTimeRef_byKey; apply Hl; assumption).
  split.
  - eapply StronglySorted_weaken; [|apply sortBy_key_sorted].
    intros a b. cbv beta. rewrite !built_startAt. unfold L. rewrite !linked_startAt. tauto.
  - intros k.
    rewrite (filter_ext _ (fun a => startAt L a =? k))
      by (intros a; rewrite built_startAt; unfold L; rewrite linked_startAt; reflexivity).
    rewrite sortBy_key_stable. unfold l.
    apply StronglySorted_filter, StronglySorted_filter, seq_sorted.
Qed.

End BuiltChildren.

(** X22.  The children arrays are sorted: in the objects a returning
    [extractVisSpans] leaves, every span's children are in ascending order
    of start time, and children with the same start time are in the order of
    the input. *)
Theorem children_sorted_by_start (otel_requests : list Otel.ExportTraceServiceRequest)
        (r : list Heap.SpanObject * list nat) (p : nat) (span : Heap.SpanObject) :
  Heap.extractVisSpans otel_requests = inr r ->
  let spans := fst r in
  spans !! p = Some span ->
  StronglySorted (fun a b => startAt spans a <= startAt spans b) (Heap.children span) /\
  forall k, StronglySorted lt (List.filter (fun a => startAt spans a =? k) (Heap.children span)).
Proof.
  intros Hr spans. subst spans. apply extractVisSpans_inr in Hr. subst r. cbn [fst].
  apply built_children_sorted, collectSpans_fresh.
Qed.

(** ** Who is whose child *)

(** The last index of [l] whose object bears the identifier [k]. *)
Fixpoint lastIndex (k : string) (l : list Heap.SpanObject) : option nat :=
  match l with
  | [] => None
  | s :: l' =>
      match lastIndex k l' with
      | Some i => Some (S i)
      | None => if String.eqb (Heap.spanId s) k then Some 0%nat else None
      end
  end.

Lemma indexFrom_last l : forall base (m : Heap.SpanIndex) k,
  Heap.getIndex (Heap.indexFrom base l m) k =
  match lastIndex k l with
  | Some i => Some (base + i)%nat
  | None => Heap.getIndex m k
  end.
Proof.
  induction l as [|s l IH]; intros base m k; simpl; [reflexivity|].
  rewrite IH. destruct (lastIndex k l) as [i|]; [f_equal; lia|].
  destruct (String.eqb_spec (Heap.spanId s) k) as [->|Hne].
  - rewrite getIndex_set_eq. f_equal. lia.
  - rewrite getIndex_set_ne by exact Hne. reflexivity.
Qed.

Lemma lastIndex_None k l :
  lastIndex k l = None ->
  forall q sq, l !! q = Some sq -> Heap.spanId sq <> k.
Proof.
  induction l as [|s l IH]; intros H q sq Hq; [discriminate|].
  simpl in H. destruct (lastIndex k l) as [i|]; [discriminate|].
  destruct (String.eqb_spec (Heap.spanId s) k) as [|Hne]; [discriminate|].
  destruct q as [|q]; simpl in Hq.
  - injection Hq as <-. exact Hne.
  - eapply IH; [reflexivity | exact Hq].
Qed.

Lemma lastIndex_Some k l : forall i,
  lastIndex k l = Some i ->
  (exists s, l !! i = Some s /\ Heap.spanId s = k) /\
  forall q sq, l !! q = Some sq -> Heap.spanId sq = k -> (q <= i)%nat.
Proof.
  induction l as [|s l IH]; intros i H; [discriminate|].
  simpl in H. destruct (lastIndex k l) as [i'|] eqn:E.
  - injection H as <-. destruct (IH i' eq_refl) as [Hs Hmax]. split; [exact Hs|].
    intros [|q] sq Hq Hid; [lia|]. simpl in Hq. specialize (Hmax q sq Hq Hid). lia.
  - destruct (String.eqb_spec (Heap.spanId s) k) as [Heq|]; [|discriminate].
    injection H as <-. split; [exists s; split; [reflexivity | exact Heq]|].
    intros [|q] sq Hq Hid; [lia|]. simpl in Hq.
    exfalso. exact (lastIndex_None k l E q sq Hq Hid).
Qed.

Lemma indexSpans_lookup l k i :
  Heap.getIndex (Heap.indexSpans l) k = Some i <->
  (exists s, l !! i = Some s /\ Heap.spanId s = k) /\
  forall q sq, l !! q = Some sq -> Heap.spanId sq = k -> (q <= i)%nat.
Proof.
  unfold Heap.indexSpans. rewrite indexFrom_last.
  destruct (lastIndex k l) as [i'|] eqn:E; simpl.
  - destruct (lastIndex_Some k l i' E) as [(s & Hs & Hid) Hmax]. split.
    + intros [= <-]. split; [exists s; auto | exact Hmax].
    + intros [(s' & Hs' & Hid') Hmax']. f_equal.
      specialize (Hmax i s' Hs' Hid'). specialize (Hmax' i' s Hs Hid). lia.
  - rewrite getIndex_empty. split; [discriminate|].
    intros [(s & Hs & Hid) _]. exfalso. exact (lastIndex_None k l E i s Hs Hid).
Qed.

(** X23.  Who is whose child: in the objects a returning [extractVisSpans]
    leaves, the span at index j is among the children of the span at index p
    exactly when p is the last span of the input whose identifier is j's
    parent identifier; no children array holds a span twice, and no span is
    in two children arrays.  Among spans with the same identifier only the
    last one gets children. *)
Theorem child_of_last_named_parent (otel_requests : list Otel.ExportTraceServiceRequest)
        (r : list Heap.SpanObject * list nat) (p j : nat) :
  Heap.extractVisSpans otel_requests = inr r ->
  let spans := fst r in
  (In j (childrenAt spans p) <->
   exists sj sp,
     spans !! j = Some sj /\ spans !! p = Some sp /\
     Heap.spanId sp = Heap.parentSpanId sj /\
     forall q sq, spans !! q = Some sq -> Heap.spanId sq = Heap.parentSpanId sj ->
                  (q <= p)%nat) /\
  List.NoDup (childrenAt spans p) /\
  (forall p', In j (childrenAt spans p) -> In j (childrenAt spans p') -> p' = p).
Proof.
  intros Hr spans. subst spans. apply extractVisSpans_inr in Hr. subst r. cbn [fst].
  set (spans0 := Heap.collectSpans otel_requests).
  pose proof (collectSpans_fresh otel_requests) as fresh. fold spans0 in fresh.
  assert (Hin : forall q i, In i (childrenAt (built spans0) q) <-> parentOf spans0 i = Some q).
  { intros q i. rewrite (count_occ_In Nat.eq_dec), (built_children spans0 fresh).
    destruct (parentOf spans0 i) as [q'|]; [|split; [lia | discriminate]].
    destruct (Nat.eqb_spec q' q) as [->|Hne]; split; try lia; congruence. }
  assert (Hfield : forall q o, built spans0 !! q = Some o ->
            exists o0, spans0 !! q = Some o0 /\ Heap.spanId o = Heap.spanId o0 /\
                       Heap.parentSpanId o = Heap.parentSpanId o0).
  { intros q o. rewrite (built_lookup spans0 fresh).
    destruct (spans0 !! q) as [o0|]; [|discriminate]. intros [= <-].
    exists o0. repeat split. }
  assert (Hfield' : forall q o0, spans0 !! q = Some o0 ->
            exists o, built spans0 !! q = Some o /\ Heap.spanId o = Heap.spanId o0 /\
                      Heap.parentSpanId o = Heap.parentSpanId o0).
  { intros q o0 Hq. rewrite (built_lookup spans0 fresh), Hq. eexists.
    split; [reflexivity|]. split; reflexivity. }
  split; [|split].
  - rewrite Hin. unfold parentOf, Heap.parentRef. split.
    + destruct (spans0 !! j) as [sj0|] eqn:Hj; [|discriminate].
      intros Hidx. apply indexSpans_lookup in Hidx.
      destruct Hidx as [(sp0 & Hp & Hid) Hmax].
      destruct (Hfield' _ _ Hj) as (sj & Hsj & _ & Hpar).
      destruct (Hfield' _ _ Hp) as (sp & Hsp & Hspid & _).
      exists sj, sp. split; [exact Hsj|]. split; [exact Hsp|].
      split; [congruence|].
      intros q sq Hq Hqid. destruct (Hfield _ _ Hq) as (sq0 & Hq0 & Hqid0 & _).
      apply (Hmax q sq0 Hq0). congruence.
    + intros (sj & sp & Hsj & Hsp & Hid & Hmax).
      destruct (Hfield _ _ Hsj) as (sj0 & Hj0 & _ & Hpar).
      destruct (Hfield _ _ Hsp) as (sp0 & Hp0 & Hspid & _).
      rewrite Hj0. apply indexSpans_lookup. split.
      * exists sp0. split; [exact Hp0 | congruence].
      * intros q sq0 Hq0 Hqid. destruct (Hfield' _ _ Hq0) as (sq & Hq & Hqid' & _).
        apply (Hmax q sq Hq). congruence.
  - apply (NoDup_count_occ Nat.eq_dec). intros i.
    rewrite (built_children spans0 fresh).
    destruct (parentOf spans0 i) as [q|]; [|lia].
    destruct (Nat.eqb q p); lia.
  - intros p' H1 H2. apply Hin in H1, H2. congruence.
Qed.

(** X24.  Linking and sorting write children arrays only: the object a
    returning [extractVisSpans] leaves at index i has the fields the i-th
    raw span of the payload was pushed with, the resource of its
    resourceSpans entry and height_level 0, whatever its children. *)
Theorem objects_keep_raw_fields (otel_requests : list Otel.ExportTraceServiceRequest)
        (r : list Heap.SpanObject * list nat) (i : nat) (span : Heap.SpanObject) :
  Heap.extractVisSpans otel_requests = inr r ->
  fst r !! i = Some span ->
  exists rs,
    Heap.rawSpans otel_requests !! i = Some rs /\
    setChildren span [] = Heap.newSpanObject (fst rs) (snd rs) /\
    Heap.height_level span = 0%N.
Proof.
  intros Hr. apply extractVisSpans_inr in Hr. subst r. cbn [fst].
  rewrite (built_lookup _ (collectSpans_fresh otel_requests)).
  unfold Heap.collectSpans. rewrite lookup_map.
  destruct (Heap.rawSpans otel_requests !! i) as [rs|]; [|discriminate].
  intros [= <-]. exists rs. split; [reflexivity|]. split; reflexivity.
Qed.

Definition familyPayload : list Otel.ExportTraceServiceRequest :=
  payload [rawSpan "a" "" 0 100; rawSpan "b" "a" 10 20; rawSpan "c" "a" 5 8].

Lemma children_sorted_by_start_witness :
  exists r span,
    Heap.extractVisSpans familyPayload = inr r /\
    fst r !! 0%nat = Some span /\
    Heap.children span = [2%nat; 1%nat] /\
    StronglySorted (fun a b => startAt (fst r) a <= startAt (fst r) b) (Heap.children span).
Proof.
  eassert (Hr : Heap.extractVisSpans familyPayload = inr _) by (vm_compute; reflexivity).
  match type of Hr with
  | _ = inr ?r => eassert (E : fst r !! 0%nat = Some _) by (vm_compute; reflexivity)
  end.
  eexists _, _. split; [exact Hr|]. split; [exact E|]. split; [reflexivity|].
  exact (proj1 (children_sorted_by_start familyPayload _ 0 _ Hr E)).
Defined.

Lemma child_of_last_named_parent_witness :
  exists r,
    Heap.extractVisSpans familyPayload = inr r /\
    List.NoDup (childrenAt (fst r) 0) /\
    (In 1%nat (childrenAt (fst r) 0) <->
     exists sj sp,
       fst r !! 1%nat = Some sj /\ fst r !! 0%nat = Some sp /\
       Heap.spanId sp = Heap.parentSpanId sj /\
       forall q sq, fst r !! q = Some sq -> Heap.spanId sq = Heap.parentSpanId sj ->
                    (q <= 0)%nat).
Proof.
  eassert (Hr : Heap.extractVisSpans familyPayload = inr _) by (vm_compute; reflexivity).
  eexists. split; [exact Hr|].
  destruct (child_of_last_named_parent familyPayload _ 0 1 Hr) as (Hiff & Hnd & _).
  split; [exact Hnd | exact Hiff].
Defined.

Lemma objects_keep_raw_fields_witness :
  exists r span rs,
    Heap.extractVisSpans familyPayload = inr r /\
    fst r !! 0%nat = Some span /\
    Heap.rawSpans familyPayload !! 0%nat = Some rs /\
    setChildren span [] = Heap.newSpanObject (fst rs) (snd rs) /\
    Heap.height_level span = 0%N.
Proof.
  eassert (Hr : Heap.extractVisSpans familyPayload = inr _) by (vm_compute; reflexivity).
  match type of Hr with
  | _ = inr ?r => eassert (E : fst r !! 0%nat = Some _) by (vm_compute; reflexivity)
  end.
  destruct (objects_keep_raw_fields familyPayload _ 0 _ Hr E) as (rs & A & B & C).
  eexists _, _, rs. split; [exact Hr|]. split; [exact E|].
  split; [exact A|]. split; [exact B | exact C].
Defined.

(** * The in-place sort of ClickedSpanInfo *)

Section StableSortUnique.
Context {A : Type} (key : A -> Z).

Let sorted := StronglySorted (fun a b : A => key a <= key b).
Let pick (k : Z) := List.filter (fun a : A => key a =? k).

Lemma pick_head_le x l y l' :
  sorted (x :: l) -> pick (key y) (x :: l) = pick (key y) (y :: l') -> key x <= key y.
Proof.
  intros Hs Hp. assert (Hin : In y (x :: l)).
  { assert (H : In y (pick (key y) (x :: l))).
    { rewrite Hp. unfold pick. simpl. rewrite Z.eqb_refl. left. reflexivity. }
    apply filter_In in H. apply H. }
  inversion Hs as [|? ? _ Hall]; subst.
  destruct Hin as [<-|Hin]; [lia|].
  rewrite List.Forall_forall in Hall. apply Hall, Hin.
Qed.

(** Two lists in ascending order of the key that hold, for every key, the
    same elements in the same order, are the same list. *)
Lemma sorted_pick_unique l1 : forall l2,
  sorted l1 -> sorted l2 -> (forall k, pick k l1 = pick k l2) -> l1 = l2.
Proof.
  induction l1 as [|x l1 IH]; intros l2 H1 H2 Hp.
  - destruct l2 as [|y l2]; [reflexivity|].
    specialize (Hp (key y)). unfold pick in Hp. simpl in Hp.
    rewrite Z.eqb_refl in Hp. discriminate.
  - destruct l2 as [|y l2].
    { specialize (Hp (key x)). unfold pick in Hp. simpl in Hp.
      rewrite Z.eqb_refl in Hp. discriminate. }
    assert (Hxy : key x = key y).
    { pose proof (pick_head_le x l1 y l2 H1 (Hp (key y))).
      pose proof (pick_head_le y l2 x l1 H2 (eq_sym (Hp (key x)))). lia. }
    pose proof (Hp (key x)) as Hk. unfold pick in Hk. simpl in Hk.
    rewrite <- Hxy, Z.eqb_refl in Hk. injection Hk as <- Hk.
    f_equal. inversion H1; inversion H2; subst.
    apply IH; [assumption | assumption |].
    intros k. specialize (Hp k). unfold pick in *. simpl in Hp.
    destruct (key x =? k); [injection Hp as Hp|]; exact Hp.
Qed.

Lemma sortBy_presorted_prefix e r :
  sortBy (byKey key) (sortBy (byKey key) e ++ r) = sortBy (byKey key) (e ++ r).
Proof.
  apply sorted_pick_unique; try apply sortBy_key_sorted.
  intros k. unfold pick. rewrite !sortBy_key_stable, !List.filter_app, sortBy_key_stable.
  reflexivity.
Qed.

End StableSortUnique.

(** [{ ...span, events: es }] *)
Definition withEvents (span : VisSpan) (es : list Event) : VisSpan :=
  mkVisSpan (spanId span) (name span) (startTime span) (endTime span)
            (parentSpanId span) (children span) es (resource span)
            (attributes span) (height_level span).

(** The span object after [ClickedSpanInfo] has run on it: [events.sort]
    sorts in place, and without the child events [events] is the span's own
    array. *)
Definition clickedSpanAfter (span : VisSpan) (includeChildEvents : bool) : VisSpan :=
  if includeChildEvents then span
  else withEvents span (sortBy (byKey timeUnixNano) (events span)).

(** X25.  The in-place sort does no harm: [ClickedSpanInfo] sorts the span's
    own events array when the child events are left out, and whatever it is
    asked on the span afterwards, it lists the events it would have listed
    on the span as it was; the span keeps its events, reordered, and every
    other field. *)
Theorem in_place_sort_harmless (span : VisSpan) (before after : bool) :
  clickedSpanEvents (clickedSpanAfter span before) after = clickedSpanEvents span after /\
  Permutation (events (clickedSpanAfter span before)) (events span) /\
  withEvents (clickedSpanAfter span before) (events span) = span.
Proof.
  destruct before; cbn [clickedSpanAfter].
  - split; [reflexivity|]. split; [reflexivity|]. destruct span; reflexivity.
  - split; [|split; [apply sortBy_perm | destruct span; reflexivity]].
    unfold clickedSpanEvents. destruct after.
    + rewrite !collectEvents_eq. cbn [withEvents events children].
      apply sortBy_presorted_prefix.
    + cbn [withEvents events].
      pose proof (sortBy_presorted_prefix timeUnixNano (events span) []) as H.
      rewrite !app_nil_r in H. exact H.
Qed.

(** * The time range query and the data extrema *)

Lemma filter_all {A} (f : A -> bool) l :
  (forall x, In x l -> f x = true) -> List.filter f l = l.
Proof.
  induction l as [|a l IH]; intros H; [reflexivity|]. simpl.
  rewrite (H a) by (left; reflexivity). f_equal. apply IH.
  intros x Hx. apply H. right. exact Hx.
Qed.

Lemma filter_narrow {A} (f g : A -> bool) l :
  (forall x, f x = true -> g x = true) ->
  List.filter f (List.filter g l) = List.filter f l.
Proof.
  intros H. induction l as [|a l IH]; [reflexivity|]. simpl.
  destruct (g a) eqn:Hg; simpl.
  - rewrite IH. reflexivity.
  - destruct (f a) eqn:Hf; [|exact IH]. rewrite (H a Hf) in Hg. discriminate.
Qed.

(** X26.  Narrowing the range narrows the answer: for a range [a, b] with
    a <= b inside a range [a', b'], the spans [getSpansForTimeRange] returns
    for [a, b] are among those it returns for [a', b'], and asking for
    [a, b] among the latter gives the same list as asking among all: a span
    shown in a range stays shown in every wider one. *)
Theorem narrower_range_narrower_answer (this : AllSpans) (a b a' b' : Z) :
  a' <= a -> a <= b -> b <= b' ->
  getSpansForTimeRange (mkAllSpans (getSpansForTimeRange this a' b')) a b =
  getSpansForTimeRange this a b /\
  (forall span, In span (getSpansForTimeRange this a b) ->
                In span (getSpansForTimeRange this a' b')).
Proof.
  intros H1 H2 H3.
  assert (Hmono : forall span : VisSpan,
    isCollidingInAxis (startTime span) (endTime span) a b = true ->
    isCollidingInAxis (startTime span) (endTime span) a' b' = true).
  { intros span. rewrite !isCollidingInAxis_true. lia. }
  unfold getSpansForTimeRange. cbn [all_spans]. split.
  - apply filter_narrow. exact Hmono.
  - intros span Hin. apply filter_In in Hin. apply filter_In.
    split; [apply Hin | apply Hmono, Hin].
Qed.

Lemma narrower_range_narrower_answer_witness :
  let this := mkAllSpans [rootOf "n" "a" 0 10; rootOf "n" "b" 20 30; rootOf "n" "c" 40 50] in
  getSpansForTimeRange (mkAllSpans (getSpansForTimeRange this 5 45)) 25 28 =
  getSpansForTimeRange this 25 28.
Proof.
  intros this.
  exact (proj1 (narrower_range_narrower_answer this 25 28 5 45
                  ltac:(lia) ltac:(lia) ltac:(lia))).
Defined.

(** [Math.min(...l)] and [Math.max(...l)] on finite numbers; of no number
    they are the infinities, which no integer stands for: [None]. *)
Definition mathMin (l : list Z) : option Z :=
  match l with
  | [] => None
  | x :: l' => Some (fold_left Z.min l' x)
  end.

Definition mathMax (l : list Z) : option Z :=
  match l with
  | [] => None
  | x :: l' => Some (fold_left Z.max l' x)
  end.

(** The extrema [TraceVisualizer] computes from the spans [extractVisSpans]
    returns. *)
Definition minStartTime (spans : list VisSpan) : option Z := mathMin (map startTime spans).
Definition maxEndTime (spans : list VisSpan) : option Z := mathMax (map endTime spans).

Lemma fold_min_le l : forall x,
  fold_left Z.min l x <= x /\ Forall (fun y => fold_left Z.min l x <= y) l.
Proof.
  induction l as [|y l IH]; intros x; simpl; [split; [lia | constructor]|].
  destruct (IH (Z.min x y)) as [H1 H2]. split; [lia|].
  constructor; [lia | exact H2].
Qed.

Lemma fold_max_ge l : forall x,
  x <= fold_left Z.max l x /\ Forall (fun y => y <= fold_left Z.max l x) l.
Proof.
  induction l as [|y l IH]; intros x; simpl; [split; [lia | constructor]|].
  destruct (IH (Z.max x y)) as [H1 H2]. split; [lia|].
  constructor; [lia | exact H2].
Qed.

Lemma mathMin_le l lo : mathMin l = Some lo -> forall y, In y l -> lo <= y.
Proof.
  destruct l as [|x l]; [discriminate|]. intros [= <-] y [<-|Hy].
  - apply fold_min_le.
  - destruct (fold_min_le l x) as [_ H]. rewrite List.Forall_forall in H. apply H, Hy.
Qed.

Lemma mathMax_ge l hi : mathMax l = Some hi -> forall y, In y l -> y <= hi.
Proof.
  destruct l as [|x l]; [discriminate|]. intros [= <-] y [<-|Hy].
  - apply fold_max_ge.
  - destruct (fold_max_ge l x) as [_ H]. rewrite List.Forall_forall in H. apply H, Hy.
Qed.

(** X27.  The extrema span the data: when every top-level span starts no
    later than it ends, the range from the computed minStartTime to the
    computed maxEndTime holds every top-level span's interval, and
    [getSpansForTimeRange] on it returns all of them. *)
Theorem full_range_shows_all (spans : list VisSpan) (lo hi : Z) :
  Forall (fun span => startTime span <= endTime span) spans ->
  minStartTime spans = Some lo ->
  maxEndTime spans = Some hi ->
  (forall span, In span spans -> lo <= startTime span /\ endTime span <= hi) /\
  getSpansForTimeRange (mkAllSpans spans) lo hi = spans.
Proof.
  intros Hord Hlo Hhi.
  assert (Hin : forall span, In span spans -> lo <= startTime span /\ endTime span <= hi).
  { intros span Hs. split.
    - apply (mathMin_le _ _ Hlo). apply in_map. exact Hs.
    - apply (mathMax_ge _ _ Hhi). apply in_map. exact Hs. }
  split; [exact Hin|].
  unfold getSpansForTimeRange. cbn [all_spans]. apply filter_all.
  intros span Hs. apply isCollidingInAxis_true.
  rewrite List.Forall_forall in Hord. specialize (Hord span Hs).
  specialize (Hin span Hs). lia.
Qed.

Lemma full_range_shows_all_witness :
  let spans := [rootOf "n" "a" 0 10; rootOf "n" "b" 20 30; rootOf "n" "c" 5 50] in
  minStartTime spans = Some 0 /\ maxEndTime spans = Some 50 /\
  getSpansForTimeRange (mkAllSpans spans) 0 50 = spans.
Proof.
  intros spans.
  assert (Hord : Forall (fun span => startTime span <= endTime span) spans).
  { repeat constructor; simpl; lia. }
  assert (Hlo : minStartTime spans = Some 0) by reflexivity.
  assert (Hhi : maxEndTime spans = Some 50) by reflexivity.
  split; [exact Hlo|]. split; [exact Hhi|].
  exact (proj2 (full_range_shows_all spans 0 50 Hord Hlo Hhi)).
Defined.
